(** * EDMS column matching engine (main.go): model and verified properties

    The development embeds the matching engine of [main.go]: the key
    normaliser [standardKey], the edit distance [levenshteinDistance], the
    fuzzy predicate [isFuzzyMatch] and the column-pair loops of
    [matchHandler].

    Conventions of the embedding.
    - A Go [string] is a sequence of bytes; it is a [string] here, whose
      characters are the 8-bit [ascii] values.  [len(s)] is [String.length]
      and [s[i]] is [String.get].
    - Lengths, loop counters and the slice indices computed from them
      ([i-1], [len(s2)+1]) are natural numbers.  An [int] that is stored in
      a slice, a map or a record, or compared with another, is an integer,
      and the [+], [-] and [*] that compute it reduce their result to the
      64-bit two's complement range ([Int64.wrap]).  The theorems that
      depend on the absence of overflow say so through a bound on a length
      or on a number of rows.
    - A run-time panic (index out of range) is the result [None].
    - The decoding of the request and the encoding of the response are
      input and output: [matchHandler] starts from the decoded
      [MatchRequest] and the store, and ends with the value it encodes. *)

From Stdlib Require Import ZArith Ascii String DecimalString DecimalZ DecimalPos.
From stdpp Require Import base option list sorting gmap strings.

Local Open Scope Z_scope.

(** ** Go's 64-bit [int] *)

Module Int64.

Definition max_int : Z := 2 ^ 63 - 1.
Definition min_int : Z := - 2 ^ 63.

Definition wrap (z : Z) : Z := (z + 2 ^ 63) mod 2 ^ 64 - 2 ^ 63.

Definition add (a b : Z) : Z := wrap (a + b).
Definition sub (a b : Z) : Z := wrap (a - b).
Definition mul (a b : Z) : Z := wrap (a * b).

End Int64.

(** ** Slices and loops *)

(** [for _, x := range xs { st = body x st }], stopping at the first panic. *)
Fixpoint forM {A S : Type} (xs : list A) (body : A → S → option S) (st : S)
  : option S :=
  match xs with
  | [] => Some st
  | x :: xs' => st' ← body x st; forM xs' body st'
  end.

(** [for i, x := range xs]: the elements paired with their indices. *)
Definition indexed {A : Type} (xs : list A) : list (nat * A) :=
  imap (λ i x, (i, x)) xs.

(** [v[i] = x] on a slice: panics when [i] is out of range. *)
Definition slice_set {A : Type} (v : list A) (i : nat) (x : A)
  : option (list A) :=
  if decide (i < length v)%nat then Some (<[i:=x]> v) else None.

(** [copy(dst, src)]: overwrites the first [min(len(dst), len(src))] cells. *)
Definition copy {A : Type} (dst src : list A) : list A :=
  take (length dst) src ++ drop (length src) dst.

(** [l[z]] for an index computed as an [int]. *)
Definition at_Z {A : Type} (l : list A) (z : Z) : option A :=
  if decide (z < 0) then None else l !! Z.to_nat z.

(** ** Utility functions *)

Definition len (s : string) : Z := Z.of_nat (String.length s).

(** [func min(a, b, c int) int] *)
Definition min (a b c : Z) : Z :=
  if decide (a < b) then
    if decide (a < c) then a else c
  else if decide (b < c) then b else c.

(** [func max(a, b int) int] *)
Definition max (a b : Z) : Z :=
  if decide (a > b) then a else b.

(** The inner loop of [levenshteinDistance], for the row [i] of the matrix:
    [for j := 1; j <= len(s2); j++ { ... v1[j] = min(...) }]. *)
Definition levenshteinInner (s1 s2 : string) (i : nat) (v0 : list Z)
  (j : nat) (v1 : list Z) : option (list Z) :=
  c1 ← String.get (i - 1) s1;
  c2 ← String.get (j - 1) s2;
  let cost := if decide (c1 = c2) then 0 else 1 in
  a ← v1 !! (j - 1)%nat;
  b ← v0 !! j;
  c ← v0 !! (j - 1)%nat;
  slice_set v1 j (min (Int64.add a 1) (Int64.add b 1) (Int64.add c cost)).

(** The outer loop body: one row of the matrix, then [copy(v0, v1)]. *)
Definition levenshteinOuter (s1 s2 : string) (i : nat)
  (vs : list Z * list Z) : option (list Z * list Z) :=
  let '(v0, v1) := vs in
  v1 ← slice_set v1 0 (Z.of_nat i);
  v1 ← forM (seq 1 (String.length s2)) (levenshteinInner s1 s2 i v0) v1;
  Some (copy v0 v1, v1).

(** [func levenshteinDistance(s1, s2 string) int] *)
Definition levenshteinDistance (s1 s2 : string) : option Z :=
  if decide (s1 = s2) then Some 0
  else if decide (len s1 = 0) then Some (len s2)
  else if decide (len s2 = 0) then Some (len s1)
  else
    let v0 := replicate (String.length s2 + 1) 0 in
    let v1 := replicate (String.length s2 + 1) 0 in
    v0 ← forM (seq 0 (length v0)) (λ i v0, slice_set v0 i (Z.of_nat i)) v0;
    '(v0, v1) ← forM (seq 1 (String.length s1)) (levenshteinOuter s1 s2) (v0, v1);
    v1 !! String.length s2.

(** ** The [strings] package

    [strings.ToLower] and [strings.TrimSpace] belong to Go's standard
    library, not to the program: the engine is modelled over any pair of
    such functions. *)
Class Strings := {
  ToLower : string → string;
  TrimSpace : string → string
}.

(** [func standardKey(val string) string] *)
Definition standardKey `{Strings} (val : string) : string :=
  TrimSpace (ToLower val).

(** [func isFuzzyMatch(val1, val2 string, threshold int) bool] *)
Definition isFuzzyMatch `{Strings} (val1 val2 : string) (threshold : Z)
  : option bool :=
  let s1 := standardKey val1 in
  let s2 := standardKey val2 in
  if decide (s1 = s2) then Some true
  else if decide (s1 = "" ∨ s2 = "") then Some false
  else
    let maxLen := max (len s1) (len s2) in
    if decide (maxLen = 0) then Some true
    else
      dist ← levenshteinDistance s1 s2;
      Some (bool_decide (Int64.mul dist 100 ≤ Int64.mul maxLen threshold)).

(** ** API data structures *)

Record SheetData := {
  Headers : list string;
  Rows : list (list string)
}.

Record MatchRequest := {
  Sheet1 : string;
  Sheet2 : string;
  UseFuzzy : bool;
  FuzzyThreshold : Z;
  IsTargeted : bool
}.

Record MatchResult := {
  OriginalRow1 : Z;
  OriginalRow2 : Z;
  Val1 : string;
  Val2 : string;
  IsFuzzy : bool
}.

Record MatchGroup := {
  Tab1 : string;
  Tab2 : string;
  Header1 : string;
  Header2 : string;
  Matches : list MatchResult
}.

(** [fmt.Sprintf("%d", z)] *)
Definition itoa (z : Z) : string := NilZero.string_of_int (Z.to_int z).

(** [fmt.Sprintf("%d-%d", row1Idx, row2Idx)] *)
Definition pairKey (row1Idx row2Idx : Z) : string :=
  itoa row1Idx +:+ "-" +:+ itoa row2Idx.

(** ** The loops of [matchHandler]

    The state threaded through the rows of one column pair is the slice
    [matches] and the set [matchedPairs]. *)
Section engine.
Context `{Strings}.
Variables (req : MatchRequest) (sheet1Data sheet2Data : SheetData).

(** The index [keyMap2] of column [c2] of the second sheet. *)
Definition buildKeyMap (c2 : nat) : gmap string (list Z) :=
  foldl (λ (keyMap2 : gmap string (list Z)) '(r2, row2),
           match row2 !! c2 with
           | Some cell =>
               let key := standardKey cell in
               if decide (key ≠ "") then
                 <[key := default [] (keyMap2 !! key)
                            ++ [Int64.add (Z.of_nat r2) 2]]> keyMap2
               else keyMap2
           | None => keyMap2
           end)
        ∅ (indexed (Rows sheet2Data)).

(** 1. Exact/Standard Match: the body of the loop over [row2Indices]. *)
Definition exactStep (c2 : nat) (row1Idx : Z) (val1 : string) (row2Idx : Z)
  (st : list MatchResult * gset string)
  : option (list MatchResult * gset string) :=
  let '(matches, matchedPairs) := st in
  let pk := pairKey row1Idx row2Idx in
  if decide (pk ∈ matchedPairs) then Some st
  else
    row2 ← at_Z (Rows sheet2Data) (Int64.sub row2Idx 2);
    val2 ← row2 !! c2;
    Some (matches ++ [{| OriginalRow1 := row1Idx; OriginalRow2 := row2Idx;
                         Val1 := val1; Val2 := val2; IsFuzzy := false |}],
          {[pk]} ∪ matchedPairs).

Definition exactPass (c2 : nat) (keyMap2 : gmap string (list Z))
  (row1Idx : Z) (val1 key1 : string) (st : list MatchResult * gset string)
  : option (list MatchResult * gset string) :=
  match keyMap2 !! key1 with
  | Some row2Indices => forM row2Indices (exactStep c2 row1Idx val1) st
  | None => Some st
  end.

(** 2. Fuzzy Match: the body of the loop over the rows of the second sheet. *)
Definition fuzzyStep (c2 : nat) (row1Idx : Z) (val1 : string)
  (x : nat * list string) (st : list MatchResult * gset string)
  : option (list MatchResult * gset string) :=
  let '(r2, row2) := x in
  let '(matches, matchedPairs) := st in
  let row2Idx := Int64.add (Z.of_nat r2) 2 in
  let pk := pairKey row1Idx row2Idx in
  if decide (pk ∈ matchedPairs) then Some st
  else
    match row2 !! c2 with
    | None => Some st
    | Some val2 =>
        isMatch ← isFuzzyMatch val1 val2 (FuzzyThreshold req);
        if isMatch : bool then
          Some (matches ++ [{| OriginalRow1 := row1Idx; OriginalRow2 := row2Idx;
                               Val1 := val1; Val2 := val2; IsFuzzy := true |}],
                {[pk]} ∪ matchedPairs)
        else Some st
    end.

Definition fuzzyPass (c2 : nat) (row1Idx : Z) (val1 : string)
  (st : list MatchResult * gset string)
  : option (list MatchResult * gset string) :=
  if UseFuzzy req then
    forM (indexed (Rows sheet2Data)) (fuzzyStep c2 row1Idx val1) st
  else Some st.

(** The body of [for r1, row1 := range sheet1Data.Rows]. *)
Definition rowStep (c1 c2 : nat) (keyMap2 : gmap string (list Z))
  (x : nat * list string) (st : list MatchResult * gset string)
  : option (list MatchResult * gset string) :=
  let '(r1, row1) := x in
  match row1 !! c1 with
  | None => Some st
  | Some val1 =>
      let key1 := standardKey val1 in
      let row1Idx := Int64.add (Z.of_nat r1) 2 in
      st ← exactPass c2 keyMap2 row1Idx val1 key1 st;
      fuzzyPass c2 row1Idx val1 st
  end.

(** The records of the column pair [(c1, c2)], starting from the set
    [matchedPairs] left by the column pairs before it. *)
Definition matchColumnPair (c1 c2 : nat) (matchedPairs : gset string)
  : option (list MatchResult * gset string) :=
  let keyMap2 := buildKeyMap c2 in
  forM (indexed (Rows sheet1Data)) (rowStep c1 c2 keyMap2) ([], matchedPairs).

(** The body of [for c2 := 0; c2 < numCols2; c2++]. *)
Definition columnPair (c1 c2 : nat) (st : list MatchGroup * gset string)
  : option (list MatchGroup * gset string) :=
  let '(allMatches, matchedPairs) := st in
  '(matches, matchedPairs) ← matchColumnPair c1 c2 matchedPairs;
  if decide (0 < length matches)%nat then
    header1 ← Headers sheet1Data !! c1;
    header2 ← Headers sheet2Data !! c2;
    Some (allMatches ++ [{| Tab1 := Sheet1 req; Tab2 := Sheet2 req;
                            Header1 := header1; Header2 := header2;
                            Matches := matches |}],
          matchedPairs)
  else Some (allMatches, matchedPairs).

(** The two column loops, from [allMatches] and [matchedPairs] empty. *)
Definition matchColumns : option (list MatchGroup * gset string) :=
  let numCols1 := length (Headers sheet1Data) in
  let numCols2 := length (Headers sheet2Data) in
  forM (seq 0 numCols1)
       (λ c1, forM (seq 0 numCols2) (columnPair c1))
       ([], ∅).
End engine.

(** What [matchHandler] writes to the client. *)
Inductive Response :=
  | BadRequest (msg : string)
  | OK (allMatches : list MatchGroup).

(** [func matchHandler(w http.ResponseWriter, r *http.Request)], from the
    decoded request on; [dataStore] is the store the uploads filled. *)
Definition matchHandler `{Strings} (dataStore : gmap string SheetData)
  (req : MatchRequest) : option Response :=
  match dataStore !! Sheet1 req, dataStore !! Sheet2 req with
  | Some sheet1Data, Some sheet2Data =>
      '(allMatches, _) ← matchColumns req sheet1Data sheet2Data;
      Some (OK allMatches)
  | _, _ => Some (BadRequest "One or both sheets not found in store.")
  end.

(** ** The upload and data handlers *)

(** The order of Go strings: lexicographic on the bytes. *)
Definition stringLe (a b : string) : Prop := String.leb a b = true.

Definition stringLe_dec (a b : string) : Decision (stringLe a b) :=
  decide (String.leb a b = true).

(** [sort.Strings]: the names in increasing order. *)
Definition sortStrings (names : list string) : list string :=
  @merge_sort string stringLe stringLe_dec names.

(** What the collaborators of [uploadHandler] hand to it: the failure of
    [r.FormFile], of [io.Copy] or of [excelize.OpenReader], or the sheets
    of the workbook, in the order in which the loop over [GetSheetMap]
    visits them, each name with the rows [GetRows] returns for it ([None]
    when it returns an error). *)
Inductive UploadedFile :=
  | NoFormFile
  | UnreadableFile
  | NotAWorkbook
  | Workbook (sheets : list (string * option (list (list string)))).

(** What [uploadHandler] writes to the client: an error status, or the
    sheet names. *)
Inductive UploadResponse :=
  | UploadError (status : Z)
  | Uploaded (sheetNames : list string).

(** [data := make([]string, len(row)); for j, cell := range row
    { data[j] = cell }] *)
Definition copyRow (row : list string) : option (list string) :=
  forM (indexed row) (λ '(j, cell) data, slice_set data j cell)
       (replicate (length row) "").

(** The body of the loop over the sheets of the workbook. *)
Definition storeSheet (x : string * option (list (list string)))
  (st : list string * gmap string SheetData)
  : option (list string * gmap string SheetData) :=
  let '(sheetName, result) := x in
  let '(names, dataStore) := st in
  let names := names ++ [sheetName] in
  match result with
  | None => Some (names, dataStore)
  | Some [] => Some (names, dataStore)
  | Some (headers :: rest) =>
      dataRows ← forM (indexed rest)
                   (λ '(i, row) dataRows,
                      data ← copyRow row; slice_set dataRows i data)
                   (replicate (length rest) []);
      Some (names,
            <[sheetName := {| Headers := headers; Rows := dataRows |}]>
              dataStore)
  end.

(** [func uploadHandler(w http.ResponseWriter, r *http.Request)]: the
    response and the store it leaves. *)
Definition uploadHandler (method : string) (file : UploadedFile)
  (dataStore : gmap string SheetData)
  : option (UploadResponse * gmap string SheetData) :=
  if decide (method ≠ "POST") then Some (UploadError 405, dataStore)
  else
    let dataStore : gmap string SheetData := ∅ in
    match file with
    | NoFormFile => Some (UploadError 400, dataStore)
    | UnreadableFile => Some (UploadError 500, dataStore)
    | NotAWorkbook => Some (UploadError 500, dataStore)
    | Workbook sheets =>
        '(names, dataStore) ← forM sheets storeSheet ([], dataStore);
        Some (Uploaded (sortStrings names), dataStore)
    end.

(** [strings.Split(s, sep)] for a separator of one byte. *)
Fixpoint Split (s : string) (sep : ascii) : list string :=
  match s with
  | EmptyString => [EmptyString]
  | String c s' =>
      if decide (c = sep) then EmptyString :: Split s' sep
      else match Split s' sep with
           | part :: parts => String c part :: parts
           | [] => [String c EmptyString]
           end
  end.

(** What [dataHandler] writes to the client. *)
Inductive DataResponse :=
  | DataError (status : Z) (msg : string)
  | Data (headers : list string) (rows : list (list string)).

(** [func dataHandler(w http.ResponseWriter, r *http.Request)], from the
    path [r.URL.Path] of the request. *)
Definition dataHandler (dataStore : gmap string SheetData) (path : string)
  : option DataResponse :=
  let pathParts := Split path "/" in
  if decide (length pathParts < 4)%nat then
    Some (DataError 400 "Sheet name not specified.")
  else
    sheetName ← pathParts !! 3%nat;
    match dataStore !! sheetName with
    | None => Some (DataError 404 "Sheet not found.")
    | Some data => Some (Data (Headers data) (Rows data))
    end.

(** The sheet [uploadHandler] stores for what [GetRows] returns. *)
Definition sheetOf (result : option (list (list string)))
  : option SheetData :=
  match result with
  | Some (headers :: rest) => Some {| Headers := headers; Rows := rest |}
  | _ => None
  end.

(** The store after the sheets of a workbook, one [dataStore[sheetName] =
    ...] after the other. *)
Definition stored (dataStore : gmap string SheetData)
  (sheets : list (string * option (list (list string))))
  : gmap string SheetData :=
  foldl (λ st x, match sheetOf x.2 with
                 | Some data => <[x.1 := data]> st
                 | None => st
                 end) dataStore sheets.

(** ** The sheet selection of the page (app.js)

    [selectedSheets] is the array of the names of the selected sheets; the
    names are the strings of the upload response.  Of the document, the
    model keeps what decides how a call ends and the array it leaves:
    which elements the lookups find.  The classes and the texts written
    to the elements found are not part of the model. *)

(** [Array.prototype.indexOf] on an array of strings: [None] is [-1]. *)
Fixpoint indexOf (xs : list string) (x : string) : option nat :=
  match xs with
  | [] => None
  | y :: ys => if decide (y = x) then Some 0%nat else S <$> indexOf ys x
  end.

(** ['.sheet-option[data-sheet-name="' + oldSheet + '"]'] *)
Definition selector (oldSheet : string) : string :=
  (".sheet-option[data-sheet-name=" ++ String (ascii_of_nat 34) oldSheet
     ++ String (ascii_of_nat 34) "]")%string.

(** The document: whether [document.querySelector] finds an element for
    a selector (it answers null, or raises on a selector it cannot parse,
    otherwise), and whether [document.getElementById] finds one for an
    id. *)
Record Document := {
  querySelector : string → bool;
  getElementById : string → bool }.

(** How a call ends, and the array it leaves. *)
Inductive Completion :=
  | Returned (selectedSheets : list string)
  | Threw (selectedSheets : list string).

Definition arrayOf (c : Completion) : list string :=
  match c with Returned xs | Threw xs => xs end.

(** [function updateSelectionSlots()]: whether it returns.  A write to a
    property of an element that [getElementById] does not find raises.
    With two sheets selected it calls [populateExportColumns] twice: an
    async function, in which a failure rejects the promise and raises
    nothing in the caller. *)
Definition updateSelectionSlots (document : Document)
  (selectedSheets : list string) : bool :=
  getElementById document "slot1Name" &&
  getElementById document "slot2Name" &&
  getElementById document "matchBtn" &&
  (let isReady := bool_decide (length selectedSheets = 2%nat) in
   if isReady then true
   else
     getElementById document "exportIgnoreCols1Container" &&
     getElementById document "exportIgnoreCols2Container" &&
     getElementById document "exportControls" &&
     getElementById document "exportAllBtn").

(** [window.toggleSheetSelection = function(sheetName, element)].
    [element] tells whether the second argument is an element, with a
    [classList]; the click handler of a sheet button passes the target of
    the click.  After the array is updated, the call touches
    [element.classList] and ends with [updateSelectionSlots()]: either
    may raise, and the array stays as updated.  In the last branch a
    lookup that finds no element raises after the [pop] and before the
    [push]. *)
Definition toggleSheetSelection (document : Document) (sheetName : string)
  (element : bool) (selectedSheets : list string) : Completion :=
  let finish (selectedSheets : list string) : Completion :=
    if element && updateSelectionSlots document selectedSheets
    then Returned selectedSheets
    else Threw selectedSheets in
  match indexOf selectedSheets sheetName with
  | Some index => finish (delete index selectedSheets)
  | None =>
      if decide (length selectedSheets < 2)%nat
      then finish (selectedSheets ++ [sheetName])
      else
        let oldSheet := default "undefined" (last selectedSheets) in
        let selectedSheets := removelast selectedSheets in
        if querySelector document (selector oldSheet)
        then finish (selectedSheets ++ [sheetName])
        else Threw selectedSheets
  end.

(** The clicks on the buttons after [initializeSheetSelector] has emptied
    the array: each one with the name of its button, the element it
    passes and the document it finds.  The array stays as a handler that
    raised has left it. *)
Definition clickAll (clicks : list (string * bool * Document))
  : list string :=
  foldl (λ selectedSheets click,
           arrayOf (toggleSheetSelection click.2 click.1.1 click.1.2
                      selectedSheets))
        [] clicks.

(** ** The [strings] functions on ASCII text

    On a string of ASCII characters Go's [strings.ToLower] maps the letters
    [A]-[Z] to [a]-[z] and [strings.TrimSpace] removes the leading and
    trailing characters among tab, line feed, vertical tab, form feed,
    carriage return and space.  This instance is used for the concrete
    inputs of the examples. *)
Module AsciiStrings.

Definition lower (c : ascii) : ascii :=
  let n := nat_of_ascii c in
  if decide (65 ≤ n ∧ n ≤ 90)%nat then ascii_of_nat (n + 32) else c.

Fixpoint toLower (s : string) : string :=
  match s with
  | EmptyString => EmptyString
  | String c s' => String (lower c) (toLower s')
  end.

Definition isSpace (c : ascii) : bool :=
  let n := nat_of_ascii c in
  bool_decide ((9 ≤ n ∧ n ≤ 13) ∨ n = 32)%nat.

Fixpoint trimLeft (s : string) : string :=
  match s with
  | EmptyString => EmptyString
  | String c s' => if isSpace c then trimLeft s' else s
  end.

Fixpoint trimRight (s : string) : string :=
  match s with
  | EmptyString => EmptyString
  | String c s' =>
      match trimRight s' with
      | EmptyString => if isSpace c then EmptyString else String c EmptyString
      | t => String c t
      end
  end.

Definition trimSpace (s : string) : string := trimRight (trimLeft s).

Definition strings : Strings :=
  {| ToLower := toLower; TrimSpace := trimSpace |}.

End AsciiStrings.

(** ** Concrete inputs

    The two sheets of a request are stored under the names [A] and [B]. *)
Module Examples.

Definition request (useFuzzy : bool) (threshold : Z) : MatchRequest :=
  {| Sheet1 := "A"; Sheet2 := "B"; UseFuzzy := useFuzzy;
     FuzzyThreshold := threshold; IsTargeted := false |}.

Definition store (a b : SheetData) : gmap string SheetData :=
  <["A" := a]> (<["B" := b]> ∅).

Definition run (a b : SheetData) (useFuzzy : bool) (threshold : Z)
  : option Response :=
  matchHandler (H := AsciiStrings.strings) (store a b)
    (request useFuzzy threshold).

Definition key (val : string) : string :=
  standardKey (H := AsciiStrings.strings) val.

Definition record (r1 r2 : Z) (v1 v2 : string) (fz : bool) : MatchResult :=
  {| OriginalRow1 := r1; OriginalRow2 := r2; Val1 := v1; Val2 := v2;
     IsFuzzy := fz |}.

Definition group (h1 h2 : string) (ms : list MatchResult) : MatchGroup :=
  {| Tab1 := "A"; Tab2 := "B"; Header1 := h1; Header2 := h2; Matches := ms |}.

(** One row that matches the single row of [B] under both of its columns. *)
Definition twoColumnsA : SheetData :=
  {| Headers := ["a"; "b"]; Rows := [["x"; "x"]] |}.
Definition oneColumnB : SheetData :=
  {| Headers := ["c"]; Rows := [["x"]] |}.
Definition twoRowsB : SheetData :=
  {| Headers := ["c"]; Rows := [["x"]; ["x"]] |}.

(** Blank and whitespace-only cells. *)
Definition blankA : SheetData :=
  {| Headers := ["a"]; Rows := [["  "]] |}.
Definition blankB : SheetData :=
  {| Headers := ["c"]; Rows := [[""]; [" "]] |}.

Definition aliceA : SheetData :=
  {| Headers := ["Name"]; Rows := [["Alice"]] |}.
Definition aliceB : SheetData :=
  {| Headers := ["Name"]; Rows := [["alice"]; ["alice"]] |}.

Definition fooA : SheetData := {| Headers := ["k"]; Rows := [["foo"]] |}.
Definition fooB : SheetData := {| Headers := ["k"]; Rows := [["foo"]] |}.

(** Ragged sheets: rows shorter than the columns compared. *)
Definition raggedA : SheetData :=
  {| Headers := ["a"; "b"]; Rows := [["x"]; []; ["y"; "x"]] |}.
Definition raggedB : SheetData :=
  {| Headers := ["c"; "d"]; Rows := [["x"]; []; ["q"; "x"]] |}.

(** A fuzzy match under the first column pair, an exact one under the
    last. *)
Definition catA : SheetData :=
  {| Headers := ["a"; "b"]; Rows := [["cat"; "dog"]; ["z"; "dog"]] |}.
Definition catB : SheetData :=
  {| Headers := ["c"; "d"]; Rows := [["cab"; "dog"]] |}.

(** The letter e with an acute accent: two bytes in UTF-8. *)
Definition eAcute : string :=
  String (ascii_of_nat 195) (String (ascii_of_nat 169) EmptyString).

End Examples.

(** ** The classic edit distance

    The bytes of a string; one edit inserts, deletes or replaces a single
    byte anywhere in the sequence; [edits n s t] holds when [n] edits in a
    row turn [s] into [t]. *)
Definition bytes (s : string) : list ascii := list_ascii_of_string s.

Inductive edit1 : list ascii → list ascii → Prop :=
  | edit_insert p c q : edit1 (p ++ q) (p ++ c :: q)
  | edit_delete p c q : edit1 (p ++ c :: q) (p ++ q)
  | edit_subst p c c' q : c ≠ c' → edit1 (p ++ c :: q) (p ++ c' :: q).

Inductive edits : nat → list ascii → list ascii → Prop :=
  | edits_done s : edits 0 s s
  | edits_more n s t u : edit1 s t → edits n t u → edits (S n) s u.

(** The recurrence the distance matrix obeys, read from the heads of the
    two sequences. *)
Fixpoint lev (a : list ascii) : list ascii → nat :=
  match a with
  | [] => λ b, length b
  | x :: a' =>
      fix lev_row (b : list ascii) : nat :=
        match b with
        | [] => S (length a')
        | y :: b' =>
            Nat.min (S (lev_row b'))
              (Nat.min (S (lev a' b))
                 ((if decide (x = y) then 0 else 1) + lev a' b'))%nat
        end
  end.

(** The cell [(i, j)] of the matrix: the distance between the first [i]
    bytes of [a] and the first [j] bytes of [b]. *)
Definition cell (a b : list ascii) (i j : nat) : nat :=
  lev (reverse (take i a)) (reverse (take j b)).

Definition matrixRow (a b : list ascii) (i : nat) : list Z :=
  (λ j, Z.of_nat (cell a b i j)) <$> seq 0 (length b + 1).

(** ** Characters of a text

    The other reading of "character": the characters of a text in UTF-8,
    each one a lead byte with the continuation bytes it announces (a byte
    that is no part of such a sequence stands alone).  [charEdits n s t]:
    [n] insertions, deletions or substitutions of one character turn [s]
    into [t]. *)
Definition isContinuation (c : ascii) : bool :=
  let n := nat_of_ascii c in bool_decide (128 ≤ n ∧ n < 192)%nat.

(** The number of bytes a lead byte announces. *)
Definition width (c : ascii) : nat :=
  let n := nat_of_ascii c in
  if decide (n < 192)%nat then 1%nat
  else if decide (n < 224)%nat then 2%nat
  else if decide (n < 240)%nat then 3%nat
  else if decide (n < 248)%nat then 4%nat
  else 1%nat.

(** A continuation byte that stands alone. *)
Definition isTail (c : list ascii) : bool :=
  match c with
  | [x] => isContinuation x
  | _ => false
  end.

Fixpoint characters (bs : list ascii) : list (list ascii) :=
  match bs with
  | [] => []
  | b :: rest =>
      let cs := characters rest in
      let tail := take (width b - 1) cs in
      if Nat.eqb (length tail) (width b - 1) && forallb isTail tail
      then (b :: concat tail) :: drop (width b - 1) cs
      else [b] :: cs
  end.

Inductive charEdit1 : list (list ascii) → list (list ascii) → Prop :=
  | charEdit_insert p c q : charEdit1 (p ++ q) (p ++ c :: q)
  | charEdit_delete p c q : charEdit1 (p ++ c :: q) (p ++ q)
  | charEdit_subst p c c' q : c ≠ c' → charEdit1 (p ++ c :: q) (p ++ c' :: q).

Inductive charEdits : nat → list (list ascii) → list (list ascii) → Prop :=
  | charEdits_done s : charEdits 0 s s
  | charEdits_more n s t u :
      charEdit1 s t → charEdits n t u → charEdits (S n) s u.

(** ** Records and the state of the loops *)

(** The key under which [matchedPairs] remembers a record. *)
Definition keyOf (m : MatchResult) : string :=
  pairKey (OriginalRow1 m) (OriginalRow2 m).

Definition rowPair (m : MatchResult) : Z * Z :=
  (OriginalRow1 m, OriginalRow2 m).

(** All the records of a response, group after group. *)
Definition allRecords (groups : list MatchGroup) : list MatchResult :=
  concat (Matches <$> groups).

(** [extends Q st st']: the state [st'] is [st] with records appended whose
    keys are new to [matchedPairs] and pairwise distinct, each record
    satisfying [Q]; the set has grown by exactly their keys. *)
Definition extends (Q : MatchResult → Prop)
  (st st' : list MatchResult * gset string) : Prop :=
  ∃ new : list MatchResult,
    st'.1 = st.1 ++ new ∧
    st'.2 = list_to_set (keyOf <$> new) ∪ st.2 ∧
    NoDup (keyOf <$> new) ∧
    Forall (λ m, Q m ∧ keyOf m ∉ st.2) new.

(** The number of rows is representable, with room for the offset. *)
Definition rowsFit (sheet : SheetData) : Prop :=
  Z.of_nat (length (Rows sheet)) < Int64.max_int.

(** Two values match exactly: equal, non-empty normalized keys. *)
Definition exactKeys `{Strings} (val1 val2 : string) : Prop :=
  standardKey val1 = standardKey val2 ∧ standardKey val1 ≠ "".

(** The exact and the fuzzy records the column pair [(c1, c2)] may hold:
    the rows [i] and [j] exist and have the cells compared. *)
Inductive recorded `{Strings} (req : MatchRequest)
    (sheet1Data sheet2Data : SheetData) (c1 c2 : nat)
  : MatchResult → Prop :=
  | recorded_exact i j row1 row2 row2' val1 v2 val2 :
      Rows sheet1Data !! i = Some row1 →
      row1 !! c1 = Some val1 →
      Rows sheet2Data !! j = Some row2 →
      row2 !! c2 = Some v2 →
      exactKeys val1 v2 →
      at_Z (Rows sheet2Data) (Int64.sub (Int64.add (Z.of_nat j) 2) 2)
        = Some row2' →
      row2' !! c2 = Some val2 →
      recorded req sheet1Data sheet2Data c1 c2
        {| OriginalRow1 := Int64.add (Z.of_nat i) 2;
           OriginalRow2 := Int64.add (Z.of_nat j) 2;
           Val1 := val1; Val2 := val2; IsFuzzy := false |}
  | recorded_fuzzy i j row1 row2 val1 val2 :
      Rows sheet1Data !! i = Some row1 →
      row1 !! c1 = Some val1 →
      Rows sheet2Data !! j = Some row2 →
      row2 !! c2 = Some val2 →
      ¬ exactKeys val1 val2 →
      isFuzzyMatch val1 val2 (FuzzyThreshold req) = Some true →
      recorded req sheet1Data sheet2Data c1 c2
        {| OriginalRow1 := Int64.add (Z.of_nat i) 2;
           OriginalRow2 := Int64.add (Z.of_nat j) 2;
           Val1 := val1; Val2 := val2; IsFuzzy := true |}.

(** What the fuzzy pass of the row [i] appends, before the keys consumed
    by the exact pass are taken into account. *)
Definition fuzzyRecord `{Strings} (req : MatchRequest) (sheet2Data : SheetData)
  (c2 i : nat) (val1 : string) (m : MatchResult) : Prop :=
  ∃ j row2 val2,
    Rows sheet2Data !! j = Some row2 ∧ row2 !! c2 = Some val2 ∧
    isFuzzyMatch val1 val2 (FuzzyThreshold req) = Some true ∧
    m = {| OriginalRow1 := Int64.add (Z.of_nat i) 2;
           OriginalRow2 := Int64.add (Z.of_nat j) 2;
           Val1 := val1; Val2 := val2; IsFuzzy := true |}.

(** A group of the response: the records of one column pair, under the
    headers of its two columns. *)
Definition groupOf `{Strings} (req : MatchRequest)
  (sheet1Data sheet2Data : SheetData) (g : MatchGroup) : Prop :=
  ∃ c1 c2,
    Headers sheet1Data !! c1 = Some (Header1 g) ∧
    Headers sheet2Data !! c2 = Some (Header2 g) ∧
    Tab1 g = Sheet1 req ∧ Tab2 g = Sheet2 req ∧
    Matches g ≠ [] ∧
    Forall (recorded req sheet1Data sheet2Data c1 c2) (Matches g).

(** The invariant of the two column loops. *)
Definition responseInv `{Strings} (req : MatchRequest)
  (sheet1Data sheet2Data : SheetData)
  (st : list MatchGroup * gset string) : Prop :=
  NoDup (keyOf <$> allRecords st.1) ∧
  (∀ m, m ∈ allRecords st.1 → keyOf m ∈ st.2) ∧
  Forall (groupOf req sheet1Data sheet2Data) st.1.

(** The cells [(i, c1)] of the first sheet and [(j, c2)] of the second
    exist and match exactly. *)
Definition exactCells `{Strings} (sheet1Data sheet2Data : SheetData)
  (c1 c2 i j : nat) : Prop :=
  ∃ row1 row2 val1 val2,
    Rows sheet1Data !! i = Some row1 ∧ row1 !! c1 = Some val1 ∧
    Rows sheet2Data !! j = Some row2 ∧ row2 !! c2 = Some val2 ∧
    exactKeys val1 val2.

(** The cells [(i, c1)] and [(j, c2)] exist and the comparison matches
    them: exactly, or by the fuzzy predicate when the request enables it. *)
Definition matchingCells `{Strings} (req : MatchRequest)
  (sheet1Data sheet2Data : SheetData) (c1 c2 i j : nat) : Prop :=
  ∃ row1 row2 val1 val2,
    Rows sheet1Data !! i = Some row1 ∧ row1 !! c1 = Some val1 ∧
    Rows sheet2Data !! j = Some row2 ∧ row2 !! c2 = Some val2 ∧
    (exactKeys val1 val2 ∨
     (UseFuzzy req = true ∧
      isFuzzyMatch val1 val2 (FuzzyThreshold req) = Some true)).

(** The order of the records of a group: by row of the first sheet, the
    exact records of a row before its fuzzy ones, then by row of the
    second sheet. *)
Definition recordBefore (m m' : MatchResult) : Prop :=
  OriginalRow1 m < OriginalRow1 m' ∨
  (OriginalRow1 m = OriginalRow1 m' ∧
   ((IsFuzzy m = false ∧ IsFuzzy m' = true) ∨
    (IsFuzzy m = IsFuzzy m' ∧ OriginalRow2 m < OriginalRow2 m'))).

(** The order of the groups of a response: by column of the first sheet,
    then by column of the second; [groupAt] ties a group to the pair of
    columns whose headers it carries. *)
Definition pairBefore (p p' : nat * nat) : Prop :=
  (p.1 < p'.1)%nat ∨ (p.1 = p'.1 ∧ (p.2 < p'.2)%nat).

Definition groupAt (sheet1Data sheet2Data : SheetData) (g : MatchGroup)
  (p : nat * nat) : Prop :=
  Headers sheet1Data !! p.1 = Some (Header1 g) ∧
  Headers sheet2Data !! p.2 = Some (Header2 g).

(** The groups so far belong to pairs of columns before [(c1, c2)], in
    increasing order. *)
Definition groupsBefore (sheet1Data sheet2Data : SheetData) (c1 c2 : nat)
  (st : list MatchGroup * gset string) : Prop :=
  ∃ pairs, Forall2 (groupAt sheet1Data sheet2Data) st.1 pairs ∧
           StronglySorted pairBefore pairs ∧
           Forall (λ p, pairBefore p (c1, c2)) pairs.

(** The response holds a record for the rows [(r1, r2)] in a group with
    the headers [h1] and [h2]. *)
Definition reportedUnder (groups : list MatchGroup) (h1 h2 : string)
  (r1 r2 : Z) : Prop :=
  ∃ g m, g ∈ groups ∧ Header1 g = h1 ∧ Header2 g = h2 ∧
         m ∈ Matches g ∧ rowPair m = (r1, r2).

(** The response holds, in a group with the headers [h1] and [h2], a
    record for the rows [(r1, r2)] that carries the values [val1] and
    [val2]. *)
Definition reportedCells (groups : list MatchGroup) (h1 h2 : string)
  (r1 r2 : Z) (val1 val2 : string) : Prop :=
  ∃ g m, g ∈ groups ∧ Header1 g = h1 ∧ Header2 g = h2 ∧
         m ∈ Matches g ∧ rowPair m = (r1, r2) ∧
         Val1 m = val1 ∧ Val2 m = val2.

(** The state of the column loops when they are about to run the column
    pair [(a, b)], seen from a row pair [(r1, r2)] that [(c1, c2)] is the
    first column pair to match: once [(c1, c2)] has run, its group reports
    the row pair; until then, the key of the row pair is not in
    [matchedPairs]. *)
Definition firstInv (h1 h2 : string) (r1 r2 : Z) (val1 val2 : string)
  (c1 c2 a b : nat) (st : list MatchGroup * gset string) : Prop :=
  (pairBefore (c1, c2) (a, b) →
   reportedCells st.1 h1 h2 r1 r2 val1 val2) ∧
  (¬ pairBefore (c1, c2) (a, b) → pairKey r1 r2 ∉ st.2).

(** The row number [n] is listed under [key] in the index. *)
Definition inBucket (keyMap2 : gmap string (list Z)) (key : string) (n : Z)
  : Prop :=
  ∃ row2Indices, keyMap2 !! key = Some row2Indices ∧ n ∈ row2Indices.

(** Decimal digits, for the keys of [matchedPairs]. *)
Definition isDigit (c : ascii) : bool :=
  let n := nat_of_ascii c in bool_decide (48 ≤ n ∧ n ≤ 57)%nat.

Fixpoint allDigits (s : string) : bool :=
  match s with
  | EmptyString => true
  | String c s' => isDigit c && allDigits s'
  end.

(** ** Loops *)

Lemma forM_app {A S} (xs ys : list A) (body : A → S → option S) st :
  forM (xs ++ ys) body st = st' ← forM xs body st; forM ys body st'.
Proof.
  revert st. induction xs as [|x xs IH]; intros st; simpl; [done|].
  destruct (body x st) as [st'|]; simpl; [apply IH | done].
Qed.

(** A loop over [start, start + n) that maintains an invariant indexed by
    the number of iterations done runs to its end. *)
Lemma forM_seq_inv {S} (I : nat → S → Prop) (body : nat → S → option S)
    (start n : nat) st :
  I 0%nat st →
  (∀ k s, (k < n)%nat → I k s →
     ∃ s', body (start + k)%nat s = Some s' ∧ I (Datatypes.S k) s') →
  ∃ st', forM (seq start n) body st = Some st' ∧ I n st'.
Proof.
  intros H0 Hstep. induction n as [|n IH].
  - exists st. done.
  - destruct IH as (st1 & Hrun & HI).
    { intros k s Hk. apply Hstep. lia. }
    destruct (Hstep n st1) as (st2 & Hbody & HI2); [lia | done |].
    exists st2. split; [|done].
    rewrite seq_S, forM_app, Hrun. simpl. by rewrite Hbody.
Qed.

(** An invariant that every iteration preserves holds at the end. *)
Lemma forM_preserves {A S} (P : S → Prop) (xs : list A)
    (body : A → S → option S) st st' :
  forM xs body st = Some st' →
  P st →
  (∀ x s s', x ∈ xs → body x s = Some s' → P s → P s') →
  P st'.
Proof.
  revert st. induction xs as [|x xs IH]; intros st Hrun HP Hstep; simpl in Hrun.
  - by simplify_eq.
  - destruct (body x st) as [st1|] eqn:Hb; simplify_eq/=.
    apply (IH st1); [done | |].
    + eapply Hstep; [apply list_elem_of_here | done | done].
    + intros y s s' Hy. apply Hstep. by apply list_elem_of_further.
Qed.

(** A loop whose iterations never panic does not panic. *)
Lemma forM_total {A S} (P : S → Prop) (xs : list A)
    (body : A → S → option S) st :
  P st →
  (∀ x s, x ∈ xs → P s → ∃ s', body x s = Some s' ∧ P s') →
  ∃ st', forM xs body st = Some st' ∧ P st'.
Proof.
  revert st. induction xs as [|x xs IH]; intros st HP Hstep; simpl.
  - by exists st.
  - destruct (Hstep x st) as (st1 & Hb & HP1); [apply list_elem_of_here | done |].
    rewrite Hb. simpl. apply IH; [done|].
    intros y s Hy. apply Hstep. by apply list_elem_of_further.
Qed.

Lemma forM_seq_run_inv {S} (I : nat → S → Prop) (body : nat → S → option S)
    (n : nat) st st' :
  I 0%nat st →
  (∀ k s s', (k < n)%nat → I k s → body k s = Some s' →
             I (Datatypes.S k) s') →
  forM (seq 0 n) body st = Some st' →
  I n st'.
Proof.
  intros H0 Hstep. revert st'. induction n as [|n IH]; intros st' Hrun.
  { simpl in Hrun. by simplify_eq. }
  rewrite seq_S, forM_app in Hrun. simpl in Hrun.
  destruct (forM (seq 0 n) body st) as [s|] eqn:Hpre; [|done].
  simpl in Hrun. destruct (body n s) as [s1|] eqn:Hb; [|done].
  simpl in Hrun. simplify_eq.
  apply (Hstep n s); [lia| |done]. apply IH; [|done].
  intros k t t' Hk. apply Hstep. lia.
Qed.

(** ** 64-bit arithmetic *)

Lemma wrap_small z :
  Int64.min_int ≤ z ≤ Int64.max_int → Int64.wrap z = z.
Proof.
  unfold Int64.wrap, Int64.min_int, Int64.max_int. intros Hz.
  rewrite Z.mod_small; lia.
Qed.

Lemma min_spec a b c : min a b c = Z.min a (Z.min b c).
Proof. unfold min. repeat case_decide; lia. Qed.

Lemma max_spec a b : max a b = Z.max a b.
Proof. unfold max. case_decide; lia. Qed.

(** ** The recurrence [lev] *)

Lemma lev_cons_cons x a y b :
  lev (x :: a) (y :: b) =
    Nat.min (S (lev (x :: a) b))
      (Nat.min (S (lev a (y :: b)))
         ((if decide (x = y) then 0 else 1) + lev a b))%nat.
Proof. done. Qed.

Lemma lev_nil_r a : lev a [] = length a.
Proof. by destruct a. Qed.

Lemma lev_refl a : lev a a = 0%nat.
Proof.
  induction a as [|x a IH]; [done|].
  rewrite lev_cons_cons, IH. case_decide; [lia | done].
Qed.

Lemma lev_sym a b : lev a b = lev b a.
Proof.
  revert b. induction a as [|x a IHa]; intros b.
  - by rewrite lev_nil_r.
  - induction b as [|y b IHb]; [done|].
    rewrite !lev_cons_cons, IHb, (IHa (y :: b)), (IHa b).
    repeat case_decide; simplify_eq; lia.
Qed.

Lemma lev_le_max a b : (lev a b ≤ Nat.max (length a) (length b))%nat.
Proof.
  revert b. induction a as [|x a IHa]; intros b; [simpl; lia|].
  destruct b as [|y b]; [simpl; lia|].
  rewrite lev_cons_cons. specialize (IHa b). cbn [length].
  case_decide; lia.
Qed.

Lemma lev_cons_l x a b : (lev (x :: a) b ≤ S (lev a b))%nat.
Proof.
  destruct b as [|y b]; [rewrite !lev_nil_r; cbn [length]; lia|].
  rewrite lev_cons_cons. lia.
Qed.

Lemma lev_cons_r a y b : (lev a (y :: b) ≤ S (lev a b))%nat.
Proof.
  destruct a as [|x a]; [simpl; lia|].
  rewrite lev_cons_cons. lia.
Qed.

Lemma lev_uncons_l x a b : (lev a b ≤ S (lev (x :: a) b))%nat.
Proof.
  induction b as [|y b IH]; [rewrite !lev_nil_r; cbn [length]; lia|].
  rewrite lev_cons_cons. pose proof (lev_cons_r a y b).
  case_decide; lia.
Qed.

Lemma lev_subst_l x x' a b : (lev (x :: a) b ≤ S (lev (x' :: a) b))%nat.
Proof.
  induction b as [|y b IH]; [simpl; lia|].
  rewrite (lev_cons_cons x'), (lev_cons_cons x).
  repeat case_decide; lia.
Qed.

Lemma lev_cong_l x a a' :
  (∀ b, lev a b ≤ S (lev a' b))%nat →
  ∀ b, (lev (x :: a) b ≤ S (lev (x :: a') b))%nat.
Proof.
  intros Ha b. induction b as [|y b IH].
  - specialize (Ha []). rewrite !lev_nil_r in Ha. simpl. lia.
  - rewrite !lev_cons_cons.
    pose proof (Ha (y :: b)). pose proof (Ha b).
    case_decide; lia.
Qed.

(** One edit of the first sequence changes the value by at most one. *)
Lemma edit1_lev a a' b : edit1 a a' → (lev a b ≤ S (lev a' b))%nat.
Proof.
  intros Hedit. revert b.
  destruct Hedit as [p c q|p c q|p c c' q _];
    (induction p as [|x p IH]; simpl; [|by apply lev_cong_l]); intros b.
  - apply lev_uncons_l.
  - apply lev_cons_l.
  - apply lev_subst_l.
Qed.

Lemma edits_lower_bound n a b : edits n a b → (lev a b ≤ n)%nat.
Proof.
  induction 1 as [s|n s t u Hst _ IH]; [by rewrite lev_refl|].
  pose proof (edit1_lev s t u Hst). lia.
Qed.

(** ** Edit scripts *)

Lemma edit1_cons c s t : edit1 s t → edit1 (c :: s) (c :: t).
Proof.
  intros [p x q|p x q|p x x' q Hx].
  - apply (edit_insert (c :: p)).
  - apply (edit_delete (c :: p)).
  - by apply (edit_subst (c :: p)).
Qed.

Lemma edits_cons n c s t : edits n s t → edits n (c :: s) (c :: t).
Proof.
  induction 1 as [s|n s t u Hst _ IH]; [constructor|].
  eapply edits_more; [by apply edit1_cons | done].
Qed.

Lemma edit1_reverse s t : edit1 s t → edit1 (reverse s) (reverse t).
Proof.
  intros [p x q|p x q|p x x' q Hx];
    rewrite !reverse_app, ?reverse_cons, <- ?(assoc_L (++)); simpl.
  - apply edit_insert.
  - apply edit_delete.
  - by apply edit_subst.
Qed.

Lemma edits_reverse n s t : edits n s t → edits n (reverse s) (reverse t).
Proof.
  induction 1 as [s|n s t u Hst _ IH]; [constructor|].
  eapply edits_more; [by apply edit1_reverse | done].
Qed.

Lemma edits_from_nil b : edits (length b) [] b.
Proof.
  induction b as [|y b IH]; [constructor|]. simpl.
  eapply edits_more; [apply (edit_insert [] y []) | by apply edits_cons].
Qed.

(** The recurrence is reached by an edit script. *)
Lemma edits_lev a b : edits (lev a b) a b.
Proof.
  revert b. induction a as [|x a IHa]; intros b; [apply edits_from_nil|].
  induction b as [|y b IHb].
  - rewrite lev_nil_r. simpl.
    eapply edits_more; [apply (edit_delete [] x a)|].
    specialize (IHa []). by rewrite lev_nil_r in IHa.
  - rewrite lev_cons_cons.
    destruct (Nat.min_dec (S (lev (x :: a) b))
                (Nat.min (S (lev a (y :: b)))
                   ((if decide (x = y) then 0 else 1) + lev a b))) as [->| ->];
      [|destruct (Nat.min_dec (S (lev a (y :: b)))
                   ((if decide (x = y) then 0 else 1) + lev a b)) as [->| ->]].
    + eapply edits_more; [apply (edit_insert [] y (x :: a))|].
      by apply edits_cons.
    + eapply edits_more; [apply (edit_delete [] x a) | apply IHa].
    + case_decide as Hxy.
      * subst y. apply edits_cons, IHa.
      * eapply edits_more; [by apply (edit_subst [] x y a)|].
        apply edits_cons, IHa.
Qed.

(** ** Strings as byte sequences *)

Lemma length_bytes s : length (bytes s) = String.length s.
Proof. induction s as [|c s IH]; simpl; [done | by rewrite IH]. Qed.

Lemma get_bytes s k : String.get k s = bytes s !! k.
Proof.
  revert k. induction s as [|c s IH]; intros [|k]; simpl; done.
Qed.

(** ** The matrix *)

Lemma cell_0_l a b j : (j ≤ length b)%nat → cell a b 0 j = j.
Proof.
  intros Hj. unfold cell. rewrite take_0. simpl.
  rewrite length_reverse, length_take. lia.
Qed.

Lemma cell_0_r a b i : (i ≤ length a)%nat → cell a b i 0 = i.
Proof.
  intros Hi. unfold cell. rewrite (take_0 b). change (reverse []) with (@nil ascii).
  rewrite lev_nil_r, length_reverse, length_take. lia.
Qed.

Lemma cell_S_S a b i j x y :
  a !! i = Some x → b !! j = Some y →
  cell a b (S i) (S j) =
    Nat.min (S (cell a b (S i) j))
      (Nat.min (S (cell a b i (S j)))
         ((if decide (x = y) then 0 else 1) + cell a b i j))%nat.
Proof.
  intros Ha Hb. unfold cell.
  rewrite (take_S_r a i x Ha), (take_S_r b j y Hb), !reverse_snoc.
  apply lev_cons_cons.
Qed.

Lemma cell_le a b i j :
  (cell a b i j ≤ Nat.max (length a) (length b))%nat.
Proof.
  unfold cell.
  pose proof (lev_le_max (reverse (take i a)) (reverse (take j b))) as Hle.
  rewrite !length_reverse, !length_take in Hle. lia.
Qed.

Lemma cell_full a b :
  cell a b (length a) (length b) = lev (reverse a) (reverse b).
Proof. unfold cell. by rewrite !firstn_all. Qed.

Lemma length_matrixRow a b i : length (matrixRow a b i) = (length b + 1)%nat.
Proof. unfold matrixRow. by rewrite length_fmap, length_seq. Qed.

Lemma matrixRow_lookup a b i j :
  (j ≤ length b)%nat →
  matrixRow a b i !! j = Some (Z.of_nat (cell a b i j)).
Proof.
  intros Hj. unfold matrixRow.
  rewrite list_lookup_fmap, lookup_seq_lt; [done | lia].
Qed.

(** A slice of the right length that agrees with a row of the matrix on
    every index is that row. *)
Lemma matrixRow_eq a b i (v : list Z) :
  length v = (length b + 1)%nat →
  (∀ j, (j ≤ length b)%nat → v !! j = Some (Z.of_nat (cell a b i j))) →
  v = matrixRow a b i.
Proof.
  intros Hlen Hv. apply list_eq. intros j.
  destruct (decide (j ≤ length b)%nat) as [Hj|Hj].
  - by rewrite Hv, matrixRow_lookup.
  - rewrite !lookup_ge_None_2; [done | rewrite length_matrixRow; lia | lia].
Qed.

Lemma add_small a b :
  Int64.min_int ≤ a + b ≤ Int64.max_int → Int64.add a b = a + b.
Proof. apply wrap_small. Qed.

Lemma slice_set_lt {A} (v : list A) i x :
  (i < length v)%nat → slice_set v i x = Some (<[i:=x]> v).
Proof. intros Hi. unfold slice_set. by rewrite decide_True. Qed.

Lemma copy_same_length {A} (dst src : list A) :
  length dst = length src → copy dst src = src.
Proof.
  intros Hlen. unfold copy.
  rewrite Hlen, firstn_all, drop_ge, app_nil_r; [done | lia].
Qed.

(** ** The two-row dynamic programme computes the matrix *)

Section levenshtein_loops.
Variables (s1 s2 : string).
Hypothesis Hs1 : len s1 < Int64.max_int.
Hypothesis Hs2 : len s2 < Int64.max_int.

Lemma cell_bound i j :
  0 ≤ Z.of_nat (cell (bytes s1) (bytes s2) i j) < Int64.max_int.
Proof using Hs1 Hs2.
  pose proof (cell_le (bytes s1) (bytes s2) i j) as Hle.
  rewrite !length_bytes in Hle. unfold len in *. lia.
Qed.

Lemma levenshteinInner_step i j v1 x y :
  bytes s1 !! i = Some x →
  bytes s2 !! j = Some y →
  length v1 = (length (bytes s2) + 1)%nat →
  v1 !! j = Some (Z.of_nat (cell (bytes s1) (bytes s2) (S i) j)) →
  levenshteinInner s1 s2 (S i) (matrixRow (bytes s1) (bytes s2) i) (S j) v1
  = Some (<[S j := Z.of_nat (cell (bytes s1) (bytes s2) (S i) (S j))]> v1).
Proof using Hs1 Hs2.
  intros Hx Hy Hlen Hv1.
  assert (j < length (bytes s2))%nat as Hj by (by eapply lookup_lt_Some).
  unfold levenshteinInner.
  replace (S i - 1)%nat with i by lia. replace (S j - 1)%nat with j by lia.
  rewrite !get_bytes, Hx, Hy, Hv1. simpl.
  rewrite !matrixRow_lookup by lia. simpl.
  rewrite slice_set_lt by lia. do 2 f_equal.
  pose proof (cell_bound (S i) j). pose proof (cell_bound i (S j)).
  pose proof (cell_bound i j).
  rewrite (cell_S_S _ _ i j x y Hx Hy), min_spec.
  unfold Int64.max_int, Int64.min_int in *.
  rewrite !add_small
    by (unfold Int64.max_int, Int64.min_int; repeat case_decide; lia).
  case_decide; lia.
Qed.

Lemma levenshteinInner_loop i x v1 :
  bytes s1 !! i = Some x →
  length v1 = (length (bytes s2) + 1)%nat →
  v1 !! 0%nat = Some (Z.of_nat (S i)) →
  forM (seq 1 (String.length s2))
       (levenshteinInner s1 s2 (S i) (matrixRow (bytes s1) (bytes s2) i)) v1
  = Some (matrixRow (bytes s1) (bytes s2) (S i)).
Proof using Hs1 Hs2.
  intros Hx Hlen Hv0.
  assert (S i ≤ length (bytes s1))%nat as Hi by (by eapply lookup_lt_Some).
  destruct (forM_seq_inv
    (λ k v, length v = (length (bytes s2) + 1)%nat ∧
            ∀ j, (j ≤ k)%nat →
                 v !! j = Some (Z.of_nat (cell (bytes s1) (bytes s2) (S i) j)))
    (levenshteinInner s1 s2 (S i) (matrixRow (bytes s1) (bytes s2) i))
    1%nat (String.length s2) v1) as (v & Hrun & Hv & Hcells).
  - split; [done|]. intros j Hj. replace j with 0%nat by lia.
    by rewrite cell_0_r.
  - intros k v Hk [Hv Hcells]. rewrite <- length_bytes in Hk.
    destruct (lookup_lt_is_Some_2 (bytes s2) k Hk) as [y Hy].
    eexists. split.
    { apply (levenshteinInner_step i k v x y); auto. }
    split; [by rewrite length_insert|].
    intros j Hj. destruct (decide (j = S k)) as [->|Hne].
    + rewrite list_lookup_insert_eq; [done | lia].
    + rewrite list_lookup_insert_ne by done. apply Hcells. lia.
  - rewrite Hrun. f_equal. apply matrixRow_eq; [done|].
    intros j Hj. apply Hcells. rewrite <- length_bytes. lia.
Qed.

Lemma levenshteinOuter_step i v1 :
  (i < String.length s1)%nat →
  length v1 = (length (bytes s2) + 1)%nat →
  levenshteinOuter s1 s2 (S i) (matrixRow (bytes s1) (bytes s2) i, v1)
  = Some (matrixRow (bytes s1) (bytes s2) (S i),
          matrixRow (bytes s1) (bytes s2) (S i)).
Proof using Hs1 Hs2.
  intros Hi Hlen. rewrite <- length_bytes in Hi.
  destruct (lookup_lt_is_Some_2 (bytes s1) i Hi) as [x Hx].
  unfold levenshteinOuter.
  rewrite slice_set_lt by lia. simpl.
  rewrite (levenshteinInner_loop i x).
  - simpl. rewrite copy_same_length; [done|].
    by rewrite !length_matrixRow.
  - done.
  - by rewrite length_insert.
  - rewrite list_lookup_insert_eq; [done | lia].
Qed.

Lemma levenshtein_fill :
  forM (seq 0 (String.length s2 + 1))
       (λ i v0, slice_set v0 i (Z.of_nat i))
       (replicate (String.length s2 + 1) 0)
  = Some (matrixRow (bytes s1) (bytes s2) 0).
Proof.
  destruct (forM_seq_inv
    (λ k v, length v = (length (bytes s2) + 1)%nat ∧
            ∀ j, (j < k)%nat → v !! j = Some (Z.of_nat j))
    (λ i v0, slice_set v0 i (Z.of_nat i))
    0%nat (String.length s2 + 1) (replicate (String.length s2 + 1) 0))
    as (v & Hrun & Hv & Hcells).
  - split; [by rewrite length_replicate, length_bytes | lia].
  - intros k v Hk [Hv Hcells]. rewrite <- length_bytes in Hk. simpl.
    rewrite slice_set_lt by lia. eexists. split; [done|].
    split; [by rewrite length_insert|].
    intros j Hj. destruct (decide (j = k)) as [->|Hne].
    + rewrite list_lookup_insert_eq; [done | lia].
    + rewrite list_lookup_insert_ne by done. apply Hcells. lia.
  - rewrite Hrun. f_equal. apply matrixRow_eq; [done|].
    intros j Hj. rewrite cell_0_l by done. apply Hcells.
    rewrite <- length_bytes. lia.
Qed.

Lemma levenshtein_rows v1 :
  length v1 = (length (bytes s2) + 1)%nat →
  (0 < String.length s1)%nat →
  forM (seq 1 (String.length s1)) (levenshteinOuter s1 s2)
       (matrixRow (bytes s1) (bytes s2) 0, v1)
  = Some (matrixRow (bytes s1) (bytes s2) (String.length s1),
          matrixRow (bytes s1) (bytes s2) (String.length s1)).
Proof using Hs1 Hs2.
  intros Hlen Hpos.
  destruct (forM_seq_inv
    (λ k (vs : list Z * list Z),
       vs.1 = matrixRow (bytes s1) (bytes s2) k ∧
       length vs.2 = (length (bytes s2) + 1)%nat ∧
       ((0 < k)%nat → vs.2 = matrixRow (bytes s1) (bytes s2) k))
    (levenshteinOuter s1 s2) 1%nat (String.length s1)
    (matrixRow (bytes s1) (bytes s2) 0, v1)) as ([v0' v1'] & Hrun & H0 & _ & H1).
  - simpl. split; [done|]. split; [done | lia].
  - intros k [v0' v1'] Hk (H0 & Hl & _). simpl in *. subst v0'.
    eexists. split; [by apply levenshteinOuter_step|].
    simpl. split; [done|]. split; [|done]. apply length_matrixRow.
  - simpl in *. rewrite Hrun. subst v0'. by rewrite H1.
Qed.

(** The result is the corner of the matrix. *)
Lemma levenshteinDistance_lev :
  levenshteinDistance s1 s2
  = Some (Z.of_nat (lev (reverse (bytes s1)) (reverse (bytes s2)))).
Proof using Hs1 Hs2.
  unfold levenshteinDistance. case_decide as Heq.
  { subst s2. by rewrite lev_refl. }
  case_decide as Hl1.
  { destruct s1; [|done]. simpl. unfold len.
    by rewrite length_reverse, length_bytes. }
  case_decide as Hl2.
  { destruct s2; [|done]. change (reverse (bytes "")) with (@nil ascii).
    unfold len. by rewrite lev_nil_r, length_reverse, length_bytes. }
  rewrite length_replicate, levenshtein_fill. simpl.
  rewrite levenshtein_rows.
  - simpl. rewrite matrixRow_lookup by (rewrite length_bytes; lia).
    by rewrite <- (length_bytes s1), <- (length_bytes s2), cell_full.
  - by rewrite length_replicate, length_bytes.
  - unfold len in Hl1. lia.
Qed.
End levenshtein_loops.

Lemma mul_small a b :
  Int64.min_int ≤ a * b ≤ Int64.max_int → Int64.mul a b = a * b.
Proof. apply wrap_small. Qed.

(** ** Properties of [levenshteinDistance] and [isFuzzyMatch] *)

(** C4, as stated, fails when a character is a character of the text:
    one substitution of a character turns the letter e with an acute
    accent into the letter e, and the code, which indexes bytes
    ([s1[i-1]]), returns 2. *)
Lemma levenshteinDistance_characters_counterexample :
  characters (bytes Examples.eAcute) = [bytes Examples.eAcute] ∧
  characters (bytes "e") = [bytes "e"] ∧
  charEdits 1 (characters (bytes Examples.eAcute)) (characters (bytes "e")) ∧
  levenshteinDistance Examples.eAcute "e" = Some 2.
Proof.
  split; [reflexivity|]. split; [reflexivity|]. split; [|reflexivity].
  apply (charEdits_more 0 _ [bytes "e"]); [|constructor].
  apply (charEdit_subst [] (bytes Examples.eAcute) (bytes "e") []).
  discriminate.
Qed.

(** C4, amended: for strings whose lengths are representable,
    [levenshteinDistance] returns the classic Levenshtein distance over
    the bytes of the strings: some script of that many single-byte
    insertions, deletions and substitutions turns [s1] into [s2], and no
    script is shorter. *)
Theorem levenshteinDistance_classic (s1 s2 : string) :
  len s1 < Int64.max_int →
  len s2 < Int64.max_int →
  ∃ d : nat,
    levenshteinDistance s1 s2 = Some (Z.of_nat d) ∧
    edits d (bytes s1) (bytes s2) ∧
    ∀ n, edits n (bytes s1) (bytes s2) → (d ≤ n)%nat.
Proof.
  intros Hs1 Hs2.
  exists (lev (reverse (bytes s1)) (reverse (bytes s2))).
  split; [by apply levenshteinDistance_lev|]. split.
  - rewrite <- (reverse_involutive (bytes s1)), <- (reverse_involutive (bytes s2))
      at 2.
    apply edits_reverse, edits_lev.
  - intros n Hn. by apply edits_lower_bound, edits_reverse.
Qed.

Lemma levenshteinDistance_classic_witness :
  ∃ d : nat,
    levenshteinDistance "kitten" "sitting" = Some (Z.of_nat d) ∧
    edits d (bytes "kitten") (bytes "sitting") ∧
    ∀ n, edits n (bytes "kitten") (bytes "sitting") → (d ≤ n)%nat.
Proof. apply levenshteinDistance_classic; reflexivity. Defined.

(** C5: the edit distance is symmetric. *)
Theorem levenshteinDistance_symmetric (a b : string) :
  len a < Int64.max_int →
  len b < Int64.max_int →
  levenshteinDistance a b = levenshteinDistance b a.
Proof.
  intros Ha Hb. rewrite !levenshteinDistance_lev by done.
  by rewrite lev_sym.
Qed.

Lemma levenshteinDistance_symmetric_witness :
  levenshteinDistance "flaw" "lawn" = levenshteinDistance "lawn" "flaw".
Proof. apply levenshteinDistance_symmetric; reflexivity. Defined.

(** C6: with threshold 100 the fuzzy predicate accepts every two values
    whose normalized keys are both non-empty (and short enough for
    [maxLen * 100] to be representable). *)
Theorem isFuzzyMatch_threshold_100 `{Strings} (a b : string) :
  standardKey a ≠ "" →
  standardKey b ≠ "" →
  len (standardKey a) * 100 ≤ Int64.max_int →
  len (standardKey b) * 100 ≤ Int64.max_int →
  isFuzzyMatch a b 100 = Some true.
Proof.
  intros Ha Hb Hla Hlb. unfold isFuzzyMatch.
  case_decide; [done|]. rewrite decide_False by tauto.
  case_decide; [done|].
  assert (0 ≤ len (standardKey a)) by (unfold len; lia).
  assert (0 ≤ len (standardKey b)) by (unfold len; lia).
  unfold Int64.max_int in *.
  rewrite levenshteinDistance_lev by (unfold Int64.max_int; lia). simpl.
  pose proof (lev_le_max (reverse (bytes (standardKey a)))
                (reverse (bytes (standardKey b)))) as Hle.
  rewrite !length_reverse, !length_bytes in Hle.
  rewrite max_spec. unfold len in *.
  rewrite !mul_small by (unfold Int64.max_int, Int64.min_int; lia).
  f_equal. apply bool_decide_eq_true. lia.
Qed.

Lemma isFuzzyMatch_threshold_100_witness :
  isFuzzyMatch (H := AsciiStrings.strings) "Ab" "xyz" 100 = Some true.
Proof. apply isFuzzyMatch_threshold_100; vm_compute; congruence. Defined.

(** ** The keys of [matchedPairs] determine the row pair *)

Lemma allDigits_uint d : allDigits (NilEmpty.string_of_uint d) = true.
Proof. induction d; simpl; auto. Qed.

Lemma itoa_uint_shape d :
  allDigits (NilZero.string_of_uint d) = true ∧ NilZero.string_of_uint d ≠ "".
Proof.
  destruct d; (split; [try done; apply (allDigits_uint (_ d)) | done]).
Qed.

Lemma itoa_shape z :
  ∃ D, allDigits D = true ∧ D ≠ "" ∧
       itoa z = if decide (z < 0) then String "-" D else D.
Proof.
  destruct z as [|p|p]; unfold itoa.
  - exists "0". done.
  - exists (NilZero.string_of_uint (Pos.to_uint p)).
    destruct (itoa_uint_shape (Pos.to_uint p)). done.
  - exists (NilZero.string_of_uint (Pos.to_uint p)).
    destruct (itoa_uint_shape (Pos.to_uint p)). done.
Qed.

Lemma itoa_inj z z' : itoa z = itoa z' → z = z'.
Proof.
  unfold itoa. intros Heq. apply to_int_inj.
  assert (∀ z, Z.to_int z ≠ Decimal.Pos Decimal.Nil ∧
               Z.to_int z ≠ Decimal.Neg Decimal.Nil) as Hnn.
  { intros [|p|p]; simpl; split; try done;
      intros [= Hp]; by apply Unsigned.to_uint_nonnil in Hp. }
  destruct (Hnn z), (Hnn z').
  apply (f_equal NilZero.int_of_string) in Heq.
  rewrite !NilZero.isi in Heq by done. by simplify_eq.
Qed.

Lemma digits_split D D' t t' :
  allDigits D = true → allDigits D' = true →
  D +:+ String "-" t = D' +:+ String "-" t' → D = D' ∧ t = t'.
Proof.
  revert D'. induction D as [|c D IH]; intros [|c' D'] HD HD' Heq;
    simpl in *; simplify_eq; [done|].
  apply andb_prop in HD as [_ HD]. apply andb_prop in HD' as [_ HD'].
  destruct (IH D' HD HD') as [-> ->]; done.
Qed.

Lemma pairKey_inj a b a' b' : pairKey a b = pairKey a' b' → a = a' ∧ b = b'.
Proof.
  unfold pairKey. intros Heq.
  change ("-" +:+ itoa b) with (String "-" (itoa b)) in Heq.
  change ("-" +:+ itoa b') with (String "-" (itoa b')) in Heq.
  assert (itoa a = itoa a' ∧ itoa b = itoa b') as [Ha Hb];
    [|by split; apply itoa_inj].
  destruct (itoa_shape a) as (D & HD & HDne & Ea).
  destruct (itoa_shape a') as (D' & HD' & HDne' & Ea').
  rewrite Ea, Ea' in *. clear Ea Ea'.
  repeat case_decide; simpl in Heq.
  - injection Heq as Heq.
    by destruct (digits_split _ _ _ _ HD HD' Heq) as [-> ->].
  - destruct D' as [|c D']; [done|]. simpl in *. simplify_eq.
  - destruct D as [|c D]; [done|]. simpl in *. simplify_eq.
  - by destruct (digits_split _ _ _ _ HD HD' Heq) as [-> ->].
Qed.

(** ** States that only grow *)

Lemma extends_refl Q st : extends Q st st.
Proof.
  exists []. simpl. rewrite app_nil_r, (left_id_L ∅ (∪)).
  repeat split; constructor.
Qed.

Lemma extends_subseteq Q st st' : extends Q st st' → st.2 ⊆ st'.2.
Proof. intros (new & _ & -> & _). set_solver. Qed.

Lemma extends_trans Q st1 st2 st3 :
  extends Q st1 st2 → extends Q st2 st3 → extends Q st1 st3.
Proof.
  intros (new1 & Hl1 & Hs1 & Hnd1 & HQ1) (new2 & Hl2 & Hs2 & Hnd2 & HQ2).
  exists (new1 ++ new2). rewrite Forall_forall in HQ1, HQ2.
  split; [by rewrite Hl2, Hl1, (assoc_L (++))|].
  split.
  { rewrite Hs2, Hs1, fmap_app, list_to_set_app_L, (assoc_L (∪)).
    f_equal. apply (comm_L (∪)). }
  split.
  - rewrite fmap_app. apply NoDup_app. split; [done|]. split; [|done].
    intros k Hk1 Hk2. apply list_elem_of_fmap in Hk2 as (m & -> & Hm).
    destruct (HQ2 m Hm) as [_ Hfresh]. apply Hfresh.
    rewrite Hs1. apply elem_of_union_l. by apply elem_of_list_to_set.
  - apply Forall_app. rewrite !Forall_forall. split; [done|].
    intros m Hm. destruct (HQ2 m Hm) as [HQ Hfresh]. split; [done|].
    intros Hin. apply Hfresh. rewrite Hs1. by apply elem_of_union_r.
Qed.

Lemma extends_emit (Q : MatchResult → Prop) matches matchedPairs m :
  Q m → keyOf m ∉ matchedPairs →
  extends Q (matches, matchedPairs)
            (matches ++ [m], {[keyOf m]} ∪ matchedPairs).
Proof.
  intros HQ Hfresh. exists [m]. simpl.
  split; [done|]. split; [by rewrite (right_id_L ∅ (∪))|].
  split; [apply NoDup_singleton | by repeat constructor].
Qed.

(** The records appended satisfy what follows from their being new. *)
Lemma extends_mono (Q Q' : MatchResult → Prop) st st' :
  (∀ m, Q m → keyOf m ∉ st.2 → Q' m) →
  extends Q st st' → extends Q' st st'.
Proof.
  intros HQQ (new & Hl & Hs & Hnd & HQ). exists new.
  repeat split; try done.
  eapply Forall_impl; [exact HQ|]. intros m [Hm Hfresh]. auto.
Qed.

Lemma forM_extends {A} (Q : MatchResult → Prop) (xs : list A)
    (body : A → list MatchResult * gset string
              → option (list MatchResult * gset string)) st st' :
  (∀ x s s', x ∈ xs → body x s = Some s' → extends Q s s') →
  forM xs body st = Some st' →
  extends Q st st'.
Proof.
  intros Hstep Hrun.
  apply (forM_preserves (extends Q st) xs body st st' Hrun).
  - apply extends_refl.
  - intros x s s' Hx Hb Hs. eapply extends_trans; [done|]. by eapply Hstep.
Qed.

(** The run of a loop, cut at one of its iterations. *)
Lemma forM_visit {A S} (xs : list A) (body : A → S → option S) st st' x :
  x ∈ xs →
  forM xs body st = Some st' →
  ∃ pre post s s',
    xs = pre ++ x :: post ∧
    forM pre body st = Some s ∧ body x s = Some s' ∧
    forM post body s' = Some st'.
Proof.
  intros Hx Hrun.
  apply list_elem_of_split in Hx as (pre & post & ->).
  rewrite forM_app in Hrun.
  destruct (forM pre body st) as [s|] eqn:Hpre; [|done]. simpl in Hrun.
  destruct (body x s) as [s'|] eqn:Hb; [|done]. simpl in Hrun.
  by exists pre, post, s, s'.
Qed.

Lemma elem_of_indexed {A} (xs : list A) i x :
  (i, x) ∈ indexed xs ↔ xs !! i = Some x.
Proof.
  unfold indexed. rewrite elem_of_lookup_imap. split.
  - by intros (i' & x' & [= -> ->] & Hl).
  - intros Hl. by exists i, x.
Qed.

(** ** The index of a column *)

Lemma inBucket_empty key n : ¬ inBucket ∅ key n.
Proof. intros (idxs & Hl & _). by rewrite lookup_empty in Hl. Qed.

Lemma inBucket_append (keyMap2 : gmap string (list Z)) k x key n :
  inBucket (<[k := default [] (keyMap2 !! k) ++ [x]]> keyMap2) key n
  ↔ inBucket keyMap2 key n ∨ (key = k ∧ n = x).
Proof.
  unfold inBucket. destruct (decide (k = key)) as [->|Hne].
  - rewrite lookup_insert_eq. split.
    + intros (idxs & [= <-] & Hn). apply elem_of_app in Hn as [Hn|Hn].
      * left. destruct (keyMap2 !! key) as [old|]; simpl in Hn.
        -- by exists old.
        -- by apply elem_of_nil in Hn.
      * right. by apply list_elem_of_singleton in Hn.
    + intros [(idxs & Hl & Hn)|[_ ->]]; eexists; (split; [done|]).
      * rewrite Hl. simpl. by apply elem_of_app; left.
      * apply elem_of_app; right. by apply list_elem_of_singleton.
  - rewrite lookup_insert_ne by done. split; [by left|].
    by intros [Hold|[-> _]].
Qed.

Lemma buildKeyMap_spec `{Strings} sheet2Data c2 key n :
  inBucket (buildKeyMap sheet2Data c2) key n ↔
  ∃ j row2 val2,
    Rows sheet2Data !! j = Some row2 ∧ row2 !! c2 = Some val2 ∧
    standardKey val2 = key ∧ key ≠ "" ∧ n = Int64.add (Z.of_nat j) 2.
Proof.
  unfold buildKeyMap.
  transitivity (∃ j row2 val2,
    (j, row2) ∈ indexed (Rows sheet2Data) ∧ row2 !! c2 = Some val2 ∧
    standardKey val2 = key ∧ key ≠ "" ∧ n = Int64.add (Z.of_nat j) 2);
    [|by setoid_rewrite elem_of_indexed].
  generalize (indexed (Rows sheet2Data)). intros xs.
  induction xs as [|[r row] xs IH] using rev_ind.
  - simpl. split; [by intros ?%inBucket_empty|].
    intros (j & row2 & v2 & Hin & _). by apply elem_of_nil in Hin.
  - rewrite foldl_app. simpl.
    setoid_rewrite elem_of_app. setoid_rewrite list_elem_of_singleton.
    destruct (row !! c2) as [cell|] eqn:Hcell; [case_decide as Hk|].
    + rewrite inBucket_append, IH. split.
      * intros [(j & row2 & v2 & Hin & Hrest)|[-> ->]].
        -- exists j, row2, v2. by split; [left|].
        -- exists r, row, cell. by split; [right|].
      * intros (j & row2 & v2 & [Hin|[= -> ->]] & Hc & Hkey & Hne & ->).
        -- left. by exists j, row2, v2.
        -- right. by simplify_eq.
    + rewrite IH. split.
      * intros (j & row2 & v2 & Hin & Hrest).
        exists j, row2, v2. by split; [left|].
      * intros (j & row2 & v2 & [Hin|[= -> ->]] & Hc & Hkey & Hne & ->).
        -- by exists j, row2, v2.
        -- by simplify_eq.
    + rewrite IH. split.
      * intros (j & row2 & v2 & Hin & Hrest).
        exists j, row2, v2. by split; [left|].
      * intros (j & row2 & v2 & [Hin|[= -> ->]] & Hc & Hkey & Hne & ->).
        -- by exists j, row2, v2.
        -- by simplify_eq.
Qed.

(** ** One column pair *)

Section column_pair.
Context `{Strings}.
Variables (req : MatchRequest) (sheet1Data sheet2Data : SheetData).
Variables (c1 c2 : nat).

Local Abbreviation keyMap2 := (buildKeyMap sheet2Data c2).
Local Abbreviation recorded := (recorded req sheet1Data sheet2Data c1 c2).

Local Abbreviation fuzzyRecord := (fuzzyRecord req sheet2Data c2).

Lemma exactStep_extends i row1 val1 idx st st' :
  Rows sheet1Data !! i = Some row1 →
  row1 !! c1 = Some val1 →
  inBucket keyMap2 (standardKey val1) idx →
  exactStep sheet2Data c2 (Int64.add (Z.of_nat i) 2) val1 idx st = Some st' →
  extends recorded st st' ∧
  pairKey (Int64.add (Z.of_nat i) 2) idx ∈ st'.2.
Proof.
  intros Hrow1 Hval1 Hidx Hstep. destruct st as [matches matchedPairs].
  unfold exactStep in Hstep. case_decide as Hin.
  { simplify_eq. split; [apply extends_refl | done]. }
  destruct (at_Z (Rows sheet2Data) (Int64.sub idx 2)) as [row2'|] eqn:Hrow2';
    [|done]. simpl in Hstep.
  destruct (row2' !! c2) as [val2|] eqn:Hval2; [|done]. simplify_eq/=.
  split; [|set_solver].
  apply buildKeyMap_spec in Hidx as (j & row2 & v2 & Hrow2 & Hv2 & Hk & Hne & ->).
  apply (extends_emit recorded matches matchedPairs
           {| OriginalRow1 := Int64.add (Z.of_nat i) 2;
              OriginalRow2 := Int64.add (Z.of_nat j) 2;
              Val1 := val1; Val2 := val2; IsFuzzy := false |}); [|done].
  by eapply (recorded_exact _ _ _ _ _ i j row1 row2 row2' val1 v2 val2).
Qed.

Lemma exactPass_extends i row1 val1 st st' :
  Rows sheet1Data !! i = Some row1 →
  row1 !! c1 = Some val1 →
  exactPass sheet2Data c2 keyMap2 (Int64.add (Z.of_nat i) 2) val1
    (standardKey val1) st = Some st' →
  extends recorded st st' ∧
  ∀ idx, inBucket keyMap2 (standardKey val1) idx →
         pairKey (Int64.add (Z.of_nat i) 2) idx ∈ st'.2.
Proof.
  intros Hrow1 Hval1 Hpass. unfold exactPass in Hpass.
  destruct (keyMap2 !! standardKey val1) as [idxs|] eqn:Hidxs.
  - assert (∀ idx s s', idx ∈ idxs →
      exactStep sheet2Data c2 (Int64.add (Z.of_nat i) 2) val1 idx s = Some s' →
      extends recorded s s' ∧ pairKey (Int64.add (Z.of_nat i) 2) idx ∈ s'.2)
      as Hstep.
    { intros idx s s' Hin. apply (exactStep_extends i row1); [done..|].
      by exists idxs. }
    split.
    + eapply forM_extends; [|exact Hpass]. intros idx s s' Hin Hb.
      by apply (Hstep idx s s').
    + intros idx (idxs' & Hl & Hin). simplify_eq.
      destruct (forM_visit _ _ _ _ _ Hin Hpass)
        as (pre & post & s & s' & -> & _ & Hb & Hpost).
      destruct (Hstep idx s s' Hin Hb) as [_ Hk].
      assert (extends recorded s' st') as Hext.
      { eapply forM_extends; [|exact Hpost]. intros y t t' Hy Hyb.
        apply (Hstep y t t'); [|done].
        by apply elem_of_app; right; apply list_elem_of_further. }
      by apply (extends_subseteq _ _ _ Hext).
  - simplify_eq. split; [apply extends_refl|].
    intros idx (idxs & Hl & _). by rewrite Hidxs in Hl.
Qed.

Lemma fuzzyStep_extends i val1 j row2 st st' :
  Rows sheet2Data !! j = Some row2 →
  fuzzyStep req c2 (Int64.add (Z.of_nat i) 2) val1 (j, row2) st = Some st' →
  extends (fuzzyRecord i val1) st st'.
Proof.
  intros Hrow2 Hstep. destruct st as [matches matchedPairs].
  unfold fuzzyStep in Hstep. case_decide as Hin.
  { simplify_eq. apply extends_refl. }
  destruct (row2 !! c2) as [val2|] eqn:Hval2;
    [|simplify_eq; apply extends_refl].
  destruct (isFuzzyMatch val1 val2 (FuzzyThreshold req)) as [[]|] eqn:Hfz;
    simplify_eq/=; [|apply extends_refl].
  apply (extends_emit (fuzzyRecord i val1) matches matchedPairs
           {| OriginalRow1 := Int64.add (Z.of_nat i) 2;
              OriginalRow2 := Int64.add (Z.of_nat j) 2;
              Val1 := val1; Val2 := val2; IsFuzzy := true |}); [|done].
  by exists j, row2, val2.
Qed.

Lemma fuzzyPass_extends i val1 st st' :
  fuzzyPass req sheet2Data c2 (Int64.add (Z.of_nat i) 2) val1 st = Some st' →
  extends (fuzzyRecord i val1) st st'.
Proof.
  unfold fuzzyPass. destruct (UseFuzzy req); intros Hpass.
  - eapply forM_extends; [|exact Hpass].
    intros [j row2] s s' Hin%elem_of_indexed. by apply fuzzyStep_extends.
  - simplify_eq. apply extends_refl.
Qed.

(** One row of the first sheet: its records are exact or fuzzy records of
    this column pair, and the pairs its cell matches exactly are consumed. *)
Lemma rowStep_extends i row1 st st' :
  Rows sheet1Data !! i = Some row1 →
  rowStep req sheet2Data c1 c2 keyMap2 (i, row1) st = Some st' →
  extends recorded st st' ∧
  ∀ val1 idx, row1 !! c1 = Some val1 →
              inBucket keyMap2 (standardKey val1) idx →
              pairKey (Int64.add (Z.of_nat i) 2) idx ∈ st'.2.
Proof.
  intros Hrow1 Hstep. unfold rowStep in Hstep.
  destruct (row1 !! c1) as [val1|] eqn:Hval1;
    [|simplify_eq; split; [apply extends_refl | done]].
  destruct (exactPass sheet2Data c2 keyMap2 (Int64.add (Z.of_nat i) 2) val1
              (standardKey val1) st) as [st1|] eqn:Hexact; [|done].
  simpl in Hstep.
  destruct (exactPass_extends i row1 val1 st st1 Hrow1 Hval1 Hexact)
    as [Hext1 Hcons].
  pose proof (fuzzyPass_extends i val1 st1 st' Hstep) as Hext2.
  split.
  - eapply extends_trans; [exact Hext1|].
    eapply extends_mono; [|exact Hext2].
    intros m (j & row2 & val2 & Hrow2 & Hval2 & Hfz & ->) Hfresh.
    eapply (recorded_fuzzy _ _ _ _ _ i j row1 row2); try done.
    intros [Hk Hne]. apply Hfresh. apply Hcons.
    apply buildKeyMap_spec. by exists j, row2, val2.
  - intros v idx [= <-] Hidx.
    apply (extends_subseteq _ _ _ Hext2). by apply Hcons.
Qed.

Lemma matchColumnPair_extends matchedPairs matches matchedPairs' :
  matchColumnPair req sheet1Data sheet2Data c1 c2 matchedPairs
    = Some (matches, matchedPairs') →
  extends recorded ([], matchedPairs) (matches, matchedPairs').
Proof.
  unfold matchColumnPair. intros Hrun.
  eapply forM_extends; [|exact Hrun].
  intros [i row1] s s' Hin%elem_of_indexed Hb.
  by destruct (rowStep_extends i row1 s s' Hin Hb).
Qed.

(** After the column pair every pair of rows whose cells match exactly
    is in [matchedPairs]. *)
Lemma matchColumnPair_consumes matchedPairs matches matchedPairs' i j :
  matchColumnPair req sheet1Data sheet2Data c1 c2 matchedPairs
    = Some (matches, matchedPairs') →
  exactCells sheet1Data sheet2Data c1 c2 i j →
  pairKey (Int64.add (Z.of_nat i) 2) (Int64.add (Z.of_nat j) 2)
    ∈ matchedPairs'.
Proof.
  unfold matchColumnPair.
  intros Hrun (row1 & row2 & val1 & val2 & Hrow1 & Hval1 & Hrow2 & Hval2
               & Hk & Hne).
  assert ((i, row1) ∈ indexed (Rows sheet1Data)) as Hin
    by (by apply elem_of_indexed).
  destruct (forM_visit _ _ _ _ _ Hin Hrun)
    as (pre & post & s & s' & Hsplit & _ & Hb & Hpost).
  destruct (rowStep_extends i row1 s s' Hrow1 Hb) as [_ Hcons].
  assert (extends recorded s' (matches, matchedPairs')) as Hext.
  { eapply forM_extends; [|exact Hpost].
    intros [i' row1'] t t' Hy Hyb.
    assert ((i', row1') ∈ indexed (Rows sheet1Data)) as Hy'
      by (rewrite Hsplit; set_solver).
    apply elem_of_indexed in Hy'.
    by destruct (rowStep_extends i' row1' t t' Hy' Hyb). }
  apply (extends_subseteq _ _ _ Hext). apply (Hcons val1); [done|].
  apply buildKeyMap_spec. exists j, row2, val2. by repeat split.
Qed.
End column_pair.

(** ** The whole comparison *)

Section comparison.
Context `{Strings}.
Variables (req : MatchRequest) (sheet1Data sheet2Data : SheetData).

Local Abbreviation responseInv := (responseInv req sheet1Data sheet2Data).

Lemma allRecords_snoc groups g :
  allRecords (groups ++ [g]) = allRecords groups ++ Matches g.
Proof.
  unfold allRecords. rewrite fmap_app, concat_app. simpl.
  by rewrite app_nil_r.
Qed.

Lemma columnPair_inv c1 c2 st st' :
  responseInv st →
  columnPair req sheet1Data sheet2Data c1 c2 st = Some st' →
  responseInv st'.
Proof.
  destruct st as [allMatches matchedPairs].
  intros (Hnd & Hkeys & Hgroups) Hstep. unfold columnPair in Hstep.
  destruct (matchColumnPair req sheet1Data sheet2Data c1 c2 matchedPairs)
    as [[matches matchedPairs']|] eqn:Hpair; [|done].
  simpl in Hstep.
  destruct (matchColumnPair_extends _ _ _ _ _ _ _ _ Hpair)
    as (new & Hl & Hs & Hndnew & HQ).
  simpl in Hl, Hs. subst new matchedPairs'.
  rewrite Forall_forall in HQ. simpl in *.
  assert (∀ m, m ∈ allRecords allMatches →
               keyOf m ∈ list_to_set (keyOf <$> matches) ∪ matchedPairs)
    as Hkeys' by (intros m Hm; apply elem_of_union_r; auto).
  case_decide as Hlen; [|by simplify_eq].
  destruct (Headers sheet1Data !! c1) as [header1|] eqn:Hh1; [|done].
  destruct (Headers sheet2Data !! c2) as [header2|] eqn:Hh2; [|done].
  simplify_eq/=. unfold responseInv. simpl. rewrite allRecords_snoc. simpl.
  split; [|split].
  - rewrite fmap_app. apply NoDup_app. split; [done|]. split; [|done].
    intros k Hk1 Hk2.
    apply list_elem_of_fmap in Hk1 as (m1 & -> & Hm1).
    apply list_elem_of_fmap in Hk2 as (m2 & Heq & Hm2).
    destruct (HQ m2 Hm2) as [_ Hfresh]. apply Hfresh.
    rewrite <- Heq. by apply Hkeys.
  - intros m [Hm|Hm]%elem_of_app; [by apply Hkeys'|].
    apply elem_of_union_l, elem_of_list_to_set. by apply list_elem_of_fmap_2.
  - apply Forall_app. split; [done|]. apply Forall_singleton.
    exists c1, c2. simpl. repeat split; try done.
    + intros ->. simpl in Hlen. lia.
    + apply Forall_forall. intros m Hm. by destruct (HQ m Hm).
Qed.

Lemma matchColumns_inv st :
  matchColumns req sheet1Data sheet2Data = Some st → responseInv st.
Proof.
  unfold matchColumns. intros Hrun.
  eapply (forM_preserves responseInv); [exact Hrun | |].
  - repeat split; simpl; [constructor | set_solver | constructor].
  - intros c1 s s' _ Hinner Hs.
    eapply (forM_preserves responseInv); [exact Hinner | done |].
    intros c2 t t' _ Hb Ht. by eapply columnPair_inv.
Qed.
End comparison.

(** ** Absence of panics *)

Lemma get_is_Some s k : (k < String.length s)%nat → is_Some (String.get k s).
Proof.
  intros Hk. rewrite get_bytes. apply lookup_lt_is_Some_2.
  by rewrite length_bytes.
Qed.

Lemma levenshteinInner_total s1 s2 i j (v0 v1 : list Z) :
  (1 ≤ i ≤ String.length s1)%nat →
  (1 ≤ j ≤ String.length s2)%nat →
  length v0 = (String.length s2 + 1)%nat →
  length v1 = (String.length s2 + 1)%nat →
  ∃ v1', levenshteinInner s1 s2 i v0 j v1 = Some v1' ∧
         length v1' = (String.length s2 + 1)%nat.
Proof.
  intros Hi Hj Hv0 Hv1. unfold levenshteinInner.
  destruct (get_is_Some s1 (i - 1)) as [x ->]; [lia|].
  destruct (get_is_Some s2 (j - 1)) as [y ->]; [lia|]. simpl.
  destruct (lookup_lt_is_Some_2 v1 (j - 1)) as [a ->]; [lia|].
  destruct (lookup_lt_is_Some_2 v0 j) as [b ->]; [lia|].
  destruct (lookup_lt_is_Some_2 v0 (j - 1)) as [c ->]; [lia|]. simpl.
  rewrite slice_set_lt by lia. eexists. split; [done|].
  by rewrite length_insert.
Qed.

Lemma levenshteinOuter_total s1 s2 i (vs : list Z * list Z) :
  (1 ≤ i ≤ String.length s1)%nat →
  length vs.1 = (String.length s2 + 1)%nat →
  length vs.2 = (String.length s2 + 1)%nat →
  ∃ vs', levenshteinOuter s1 s2 i vs = Some vs' ∧
         length vs'.1 = (String.length s2 + 1)%nat ∧
         length vs'.2 = (String.length s2 + 1)%nat.
Proof.
  destruct vs as [v0 v1]. simpl. intros Hi Hv0 Hv1.
  unfold levenshteinOuter. rewrite slice_set_lt by lia. simpl.
  destruct (forM_total (λ v : list Z, length v = (String.length s2 + 1)%nat)
              (seq 1 (String.length s2)) (levenshteinInner s1 s2 i v0)
              (<[0%nat:=Z.of_nat i]> v1)) as (v1' & -> & Hv1').
  - by rewrite length_insert.
  - intros j v Hj%elem_of_seq Hv. apply levenshteinInner_total; [done|lia|done..].
  - simpl. eexists. split; [done|]. simpl.
    rewrite copy_same_length by lia. done.
Qed.

Lemma levenshteinDistance_total s1 s2 : is_Some (levenshteinDistance s1 s2).
Proof.
  unfold levenshteinDistance. repeat (case_decide; [done|]).
  rewrite length_replicate.
  destruct (forM_total (λ v : list Z, length v = (String.length s2 + 1)%nat)
              (seq 0 (String.length s2 + 1))
              (λ i v0, slice_set v0 i (Z.of_nat i))
              (replicate (String.length s2 + 1) 0)) as (v0 & -> & Hv0).
  { by rewrite length_replicate. }
  { intros i v Hi%elem_of_seq Hv. rewrite slice_set_lt by lia.
    eexists. split; [done|]. by rewrite length_insert. }
  simpl.
  destruct (forM_total
              (λ vs : list Z * list Z,
                 length vs.1 = (String.length s2 + 1)%nat ∧
                 length vs.2 = (String.length s2 + 1)%nat)
              (seq 1 (String.length s1)) (levenshteinOuter s1 s2)
              (v0, replicate (String.length s2 + 1) 0))
    as ([v0' v1'] & -> & Hv0' & Hv1').
  { simpl. by rewrite length_replicate. }
  { intros i vs Hi%elem_of_seq [Ha Hb].
    destruct (levenshteinOuter_total s1 s2 i vs) as (vs' & Hvs' & Hl);
      [lia | done | done |]. by exists vs'. }
  simpl in *. apply lookup_lt_is_Some_2. lia.
Qed.

Lemma isFuzzyMatch_total `{Strings} val1 val2 threshold :
  is_Some (isFuzzyMatch val1 val2 threshold).
Proof.
  unfold isFuzzyMatch. repeat (case_decide; [done|]).
  by destruct (levenshteinDistance_total (standardKey val1) (standardKey val2))
    as [d ->].
Qed.

(** Row numbers are the row indices shifted by two. *)
Lemma row_number sheet j :
  rowsFit sheet → (j < length (Rows sheet))%nat →
  Int64.add (Z.of_nat j) 2 = Z.of_nat j + 2.
Proof.
  unfold rowsFit, Int64.max_int. intros Hfit Hj.
  apply add_small. unfold Int64.max_int, Int64.min_int. lia.
Qed.

Lemma row_number_back sheet j :
  rowsFit sheet → (j < length (Rows sheet))%nat →
  at_Z (Rows sheet) (Int64.sub (Int64.add (Z.of_nat j) 2) 2) = Rows sheet !! j.
Proof.
  intros Hfit Hj. rewrite (row_number sheet) by done.
  unfold rowsFit, Int64.max_int in Hfit.
  unfold Int64.sub. rewrite wrap_small
    by (unfold Int64.max_int, Int64.min_int; lia).
  unfold at_Z. rewrite decide_False by lia. f_equal. lia.
Qed.

Section no_panic.
Context `{Strings}.
Variables (req : MatchRequest) (sheet1Data sheet2Data : SheetData).
Hypothesis Hfit2 : rowsFit sheet2Data.

Lemma bucket_in_bounds c2 key n :
  inBucket (buildKeyMap sheet2Data c2) key n →
  ∃ row2 val2,
    at_Z (Rows sheet2Data) (Int64.sub n 2) = Some row2 ∧
    row2 !! c2 = Some val2 ∧ standardKey val2 = key.
Proof using Hfit2.
  intros (j & row2 & val2 & Hrow2 & Hval2 & Hk & _ & ->)%buildKeyMap_spec.
  exists row2, val2. split; [|done].
  rewrite row_number_back; [done | done |]. by eapply lookup_lt_Some.
Qed.

Lemma exactStep_total c2 key row1Idx val1 n st :
  inBucket (buildKeyMap sheet2Data c2) key n →
  is_Some (exactStep sheet2Data c2 row1Idx val1 n st).
Proof using Hfit2.
  intros (row2 & val2 & Hrow2 & Hval2 & _)%bucket_in_bounds.
  destruct st as [matches matchedPairs]. unfold exactStep.
  case_decide; [done|]. rewrite Hrow2. simpl. by rewrite Hval2.
Qed.

Lemma exactPass_total c2 row1Idx val1 key1 st :
  is_Some (exactPass sheet2Data c2 (buildKeyMap sheet2Data c2)
             row1Idx val1 key1 st).
Proof using Hfit2.
  unfold exactPass.
  destruct (buildKeyMap sheet2Data c2 !! key1) as [idxs|] eqn:Hidxs; [|done].
  destruct (forM_total (λ _, True) idxs
              (exactStep sheet2Data c2 row1Idx val1) st) as (st' & -> & _);
    [done | | done].
  intros n s Hn _.
  destruct (exactStep_total c2 key1 row1Idx val1 n s) as [s' ->];
    [by exists idxs | by exists s'].
Qed.

Lemma fuzzyPass_total c2 row1Idx val1 st :
  is_Some (fuzzyPass req sheet2Data c2 row1Idx val1 st).
Proof.
  unfold fuzzyPass. destruct (UseFuzzy req); [|done].
  destruct (forM_total (λ _, True) (indexed (Rows sheet2Data))
              (fuzzyStep req c2 row1Idx val1) st) as (st' & -> & _);
    [done | | done].
  intros [j row2] [matches matchedPairs] _ _. unfold fuzzyStep.
  case_decide; [by eexists|].
  destruct (row2 !! c2) as [val2|]; [|by eexists].
  destruct (isFuzzyMatch_total val1 val2 (FuzzyThreshold req)) as [[] ->];
    by eexists.
Qed.

Lemma matchColumnPair_total c1 c2 matchedPairs :
  is_Some (matchColumnPair req sheet1Data sheet2Data c1 c2 matchedPairs).
Proof using Hfit2.
  unfold matchColumnPair.
  destruct (forM_total (λ _, True) (indexed (Rows sheet1Data))
              (rowStep req sheet2Data c1 c2 (buildKeyMap sheet2Data c2))
              ([], matchedPairs)) as (st' & -> & _); [done | | done].
  intros [i row1] s _ _. unfold rowStep.
  destruct (row1 !! c1) as [val1|]; [|by eexists].
  destruct (exactPass_total c2 (Int64.add (Z.of_nat i) 2) val1
              (standardKey val1) s) as [s1 ->]. simpl.
  destruct (fuzzyPass_total c2 (Int64.add (Z.of_nat i) 2) val1 s1)
    as [s2 ->]. by exists s2.
Qed.

Lemma matchColumns_total :
  is_Some (matchColumns req sheet1Data sheet2Data).
Proof using Hfit2.
  unfold matchColumns.
  destruct (forM_total (λ _, True) (seq 0 (length (Headers sheet1Data)))
              (λ c1, forM (seq 0 (length (Headers sheet2Data)))
                       (columnPair req sheet1Data sheet2Data c1))
              ([], ∅)) as (st' & -> & _); [done | | done].
  intros c1 s Hc1%elem_of_seq _.
  destruct (forM_total (λ _, True) (seq 0 (length (Headers sheet2Data)))
              (columnPair req sheet1Data sheet2Data c1) s)
    as (s' & -> & _); [done | | by exists s'].
  intros c2 [allMatches matchedPairs] Hc2%elem_of_seq _. unfold columnPair.
  destruct (matchColumnPair_total c1 c2 matchedPairs)
    as [[matches matchedPairs'] ->]. simpl.
  case_decide; [|by eexists].
  destruct (lookup_lt_is_Some_2 (Headers sheet1Data) c1) as [h1 ->]; [lia|].
  destruct (lookup_lt_is_Some_2 (Headers sheet2Data) c2) as [h2 ->]; [lia|].
  by eexists.
Qed.
End no_panic.

(** ** The response of [matchHandler] *)

Lemma matchHandler_inv `{Strings} dataStore req sheet1Data sheet2Data groups :
  dataStore !! Sheet1 req = Some sheet1Data →
  dataStore !! Sheet2 req = Some sheet2Data →
  matchHandler dataStore req = Some (OK groups) →
  ∃ matchedPairs, responseInv req sheet1Data sheet2Data (groups, matchedPairs).
Proof.
  unfold matchHandler. intros -> -> Hrun.
  destruct (matchColumns req sheet1Data sheet2Data) as [[all mp]|] eqn:Hcols;
    [|done].
  simplify_eq/=. exists mp. by apply matchColumns_inv.
Qed.

Lemma matchHandler_found `{Strings} dataStore req groups :
  matchHandler dataStore req = Some (OK groups) →
  ∃ sheet1Data sheet2Data,
    dataStore !! Sheet1 req = Some sheet1Data ∧
    dataStore !! Sheet2 req = Some sheet2Data.
Proof.
  unfold matchHandler. intros Hrun.
  destruct (dataStore !! Sheet1 req) as [s1|]; [|done].
  destruct (dataStore !! Sheet2 req) as [s2|]; [|done]. by exists s1, s2.
Qed.

Lemma NoDup_rowPair (ms : list MatchResult) :
  NoDup (keyOf <$> ms) → NoDup (rowPair <$> ms).
Proof.
  intros Hnd. apply (NoDup_fmap_1 (uncurry pairKey)).
  rewrite <- list_fmap_compose.
  erewrite list_fmap_ext; [exact Hnd|]. intros i m _. done.
Qed.

Lemma allRecords_group groups g :
  g ∈ groups → ∃ pre post, allRecords groups = pre ++ Matches g ++ post.
Proof.
  intros (pre & post & ->)%list_elem_of_split.
  exists (allRecords pre), (allRecords post).
  unfold allRecords. by rewrite fmap_app, concat_app.
Qed.

(** Under representable row counts a record names the rows and the cells
    it was built from. *)
Lemma recorded_cells `{Strings} req sheet1Data sheet2Data c1 c2 m :
  rowsFit sheet1Data → rowsFit sheet2Data →
  recorded req sheet1Data sheet2Data c1 c2 m →
  ∃ i j row1 row2,
    Rows sheet1Data !! i = Some row1 ∧ row1 !! c1 = Some (Val1 m) ∧
    Rows sheet2Data !! j = Some row2 ∧ row2 !! c2 = Some (Val2 m) ∧
    OriginalRow1 m = Z.of_nat i + 2 ∧ OriginalRow2 m = Z.of_nat j + 2 ∧
    (IsFuzzy m = false ↔ exactKeys (Val1 m) (Val2 m)).
Proof.
  intros Hfit1 Hfit2
    [i j row1 row2 row2' val1 v2 val2 Hrow1 Hval1 Hrow2 Hv2 Hk Hrow2' Hval2
    |i j row1 row2 val1 val2 Hrow1 Hval1 Hrow2 Hval2 Hk Hfz];
    exists i, j, row1, row2; simpl;
    pose proof (lookup_lt_Some _ _ _ Hrow1) as Hi;
    pose proof (lookup_lt_Some _ _ _ Hrow2) as Hj;
    rewrite (row_number sheet1Data), (row_number sheet2Data) by done.
  - rewrite row_number_back in Hrow2' by done. simplify_eq.
    repeat split; try done; by destruct Hk.
  - by repeat split.
Qed.

Lemma matchColumnPair_recorded `{Strings} req sheet1Data sheet2Data c1 c2
    matchedPairs matches matchedPairs' :
  matchColumnPair req sheet1Data sheet2Data c1 c2 matchedPairs
    = Some (matches, matchedPairs') →
  Forall (recorded req sheet1Data sheet2Data c1 c2) matches ∧
  matchedPairs' = list_to_set (keyOf <$> matches) ∪ matchedPairs ∧
  NoDup (keyOf <$> matches) ∧
  ∀ m, m ∈ matches → keyOf m ∉ matchedPairs.
Proof.
  intros (new & Hl & Hs & Hnd & HQ)%matchColumnPair_extends.
  simpl in *. subst new. rewrite Forall_forall in HQ.
  repeat split; try done.
  - apply Forall_forall. intros m Hm. by destruct (HQ m Hm).
  - intros m Hm. by destruct (HQ m Hm).
Qed.

(** ** What a column pair consumes *)

Lemma forM_grows {A G} (xs : list A)
    (body : A → G * gset string → option (G * gset string)) st st' :
  (∀ x s s', x ∈ xs → body x s = Some s' → s.2 ⊆ s'.2) →
  forM xs body st = Some st' →
  st.2 ⊆ st'.2.
Proof.
  intros Hstep Hrun.
  apply (forM_preserves (λ s, st.2 ⊆ s.2) xs body st st' Hrun); [done|].
  intros x s s' Hx Hb Hs. etrans; [done|]. by eapply Hstep.
Qed.

Section consumed.
Context `{Strings}.
Variables (req : MatchRequest) (sheet1Data sheet2Data : SheetData).

Lemma fuzzyPass_consumes c2 i val1 j row2 val2 st st' :
  UseFuzzy req = true →
  Rows sheet2Data !! j = Some row2 →
  row2 !! c2 = Some val2 →
  isFuzzyMatch val1 val2 (FuzzyThreshold req) = Some true →
  fuzzyPass req sheet2Data c2 (Int64.add (Z.of_nat i) 2) val1 st = Some st' →
  pairKey (Int64.add (Z.of_nat i) 2) (Int64.add (Z.of_nat j) 2) ∈ st'.2.
Proof.
  intros Huse Hrow2 Hval2 Hfz. unfold fuzzyPass. rewrite Huse. intros Hrun.
  assert ((j, row2) ∈ indexed (Rows sheet2Data)) as Hin
    by (by apply elem_of_indexed).
  destruct (forM_visit _ _ _ _ _ Hin Hrun)
    as (pre & post & [matches mp] & s' & Hsplit & _ & Hb & Hpost).
  assert (extends (fuzzyRecord req sheet2Data c2 i val1) s' st') as Hext.
  { eapply forM_extends; [|exact Hpost]. intros [j' row2'] t t' Hy Hyb.
    eapply fuzzyStep_extends; [|exact Hyb].
    apply elem_of_indexed. rewrite Hsplit.
    by apply elem_of_app; right; apply list_elem_of_further. }
  apply (extends_subseteq _ _ _ Hext).
  unfold fuzzyStep in Hb. case_decide; [by simplify_eq|].
  rewrite Hval2, Hfz in Hb. simplify_eq/=.
  by apply elem_of_union_l, elem_of_singleton.
Qed.

(** After a column pair every pair of rows it matches is in
    [matchedPairs]. *)
Lemma matchColumnPair_consumes_all c1 c2 mp matches mp' i j :
  matchColumnPair req sheet1Data sheet2Data c1 c2 mp = Some (matches, mp') →
  matchingCells req sheet1Data sheet2Data c1 c2 i j →
  pairKey (Int64.add (Z.of_nat i) 2) (Int64.add (Z.of_nat j) 2) ∈ mp'.
Proof.
  intros Hrun (row1 & row2 & val1 & val2 & Hrow1 & Hval1 & Hrow2 & Hval2
               & [Hk|[Huse Hfz]]).
  { eapply matchColumnPair_consumes; [exact Hrun|].
    by exists row1, row2, val1, val2. }
  unfold matchColumnPair in Hrun.
  assert ((i, row1) ∈ indexed (Rows sheet1Data)) as Hin
    by (by apply elem_of_indexed).
  destruct (forM_visit _ _ _ _ _ Hin Hrun)
    as (pre & post & s & s' & Hsplit & _ & Hb & Hpost).
  assert (extends (recorded req sheet1Data sheet2Data c1 c2) s' (matches, mp'))
    as Hext.
  { eapply forM_extends; [|exact Hpost].
    intros [i' row1'] t t' Hy Hyb.
    assert ((i', row1') ∈ indexed (Rows sheet1Data)) as Hy'.
    { rewrite Hsplit. by apply elem_of_app; right; apply list_elem_of_further. }
    apply elem_of_indexed in Hy'.
    by destruct (rowStep_extends _ _ _ _ _ i' row1' t t' Hy' Hyb). }
  apply (extends_subseteq _ _ _ Hext).
  unfold rowStep in Hb. rewrite Hval1 in Hb.
  destruct (exactPass sheet2Data c2 (buildKeyMap sheet2Data c2)
              (Int64.add (Z.of_nat i) 2) val1 (standardKey val1) s)
    as [s1|]; [|done]. simpl in Hb.
  by eapply fuzzyPass_consumes.
Qed.

Lemma columnPair_grows c1 c2 st st' :
  columnPair req sheet1Data sheet2Data c1 c2 st = Some st' → st.2 ⊆ st'.2.
Proof.
  destruct st as [all mp]. unfold columnPair. intros Hb.
  destruct (matchColumnPair req sheet1Data sheet2Data c1 c2 mp)
    as [[matches mp']|] eqn:Hpair; [|done]. simpl in Hb.
  pose proof (extends_subseteq _ _ _
                (matchColumnPair_extends _ _ _ _ _ _ _ _ Hpair)) as Hsub.
  case_decide; [|by simplify_eq].
  destruct (Headers sheet1Data !! c1); [|done].
  destruct (Headers sheet2Data !! c2); [|done]. by simplify_eq/=.
Qed.

Lemma columnPair_consumes c1 c2 st st' i j :
  columnPair req sheet1Data sheet2Data c1 c2 st = Some st' →
  matchingCells req sheet1Data sheet2Data c1 c2 i j →
  pairKey (Int64.add (Z.of_nat i) 2) (Int64.add (Z.of_nat j) 2) ∈ st'.2.
Proof.
  destruct st as [all mp]. unfold columnPair. intros Hb Hcells.
  destruct (matchColumnPair req sheet1Data sheet2Data c1 c2 mp)
    as [[matches mp']|] eqn:Hpair; [|done]. simpl in Hb.
  pose proof (matchColumnPair_consumes_all _ _ _ _ _ _ _ Hpair Hcells) as Hin.
  case_decide; [|by simplify_eq].
  destruct (Headers sheet1Data !! c1); [|done].
  destruct (Headers sheet2Data !! c2); [|done]. by simplify_eq/=.
Qed.

Lemma columns_grow c1 (cols : list nat) st st' :
  forM cols (columnPair req sheet1Data sheet2Data c1) st = Some st' →
  st.2 ⊆ st'.2.
Proof.
  apply forM_grows. intros c2 s s' _. apply columnPair_grows.
Qed.

Lemma matchColumns_consumes st c1 c2 i j :
  matchColumns req sheet1Data sheet2Data = Some st →
  (c1 < length (Headers sheet1Data))%nat →
  (c2 < length (Headers sheet2Data))%nat →
  matchingCells req sheet1Data sheet2Data c1 c2 i j →
  pairKey (Int64.add (Z.of_nat i) 2) (Int64.add (Z.of_nat j) 2) ∈ st.2.
Proof.
  unfold matchColumns. intros Hrun Hc1 Hc2 Hcells.
  assert (c1 ∈ seq 0 (length (Headers sheet1Data))) as Hin1
    by (apply elem_of_seq; lia).
  assert (c2 ∈ seq 0 (length (Headers sheet2Data))) as Hin2
    by (apply elem_of_seq; lia).
  destruct (forM_visit _ _ _ _ _ Hin1 Hrun)
    as (pre & post & s & s' & _ & _ & Hinner & Hpost).
  destruct (forM_visit _ _ _ _ _ Hin2 Hinner)
    as (pre2 & post2 & t & t' & _ & _ & Hb & Hpost2).
  assert (s'.2 ⊆ st.2) as Hout.
  { revert Hpost. apply forM_grows. intros c s0 s0' _. apply columns_grow. }
  apply Hout. apply (columns_grow _ _ _ _ Hpost2).
  by eapply columnPair_consumes.
Qed.

(** Every key of [matchedPairs] is the key of a record of a group. *)
Lemma matchColumns_keys st k :
  matchColumns req sheet1Data sheet2Data = Some st →
  k ∈ st.2 → ∃ m, m ∈ allRecords st.1 ∧ keyOf m = k.
Proof.
  unfold matchColumns. intros Hrun. revert k.
  apply (forM_preserves
    (λ st : list MatchGroup * gset string,
       ∀ k, k ∈ st.2 → ∃ m, m ∈ allRecords st.1 ∧ keyOf m = k) _ _ _ _ Hrun).
  { intros k Hk. by apply elem_of_empty in Hk. }
  intros c1 s s' _ Hinner Hs.
  apply (forM_preserves
    (λ st : list MatchGroup * gset string,
       ∀ k, k ∈ st.2 → ∃ m, m ∈ allRecords st.1 ∧ keyOf m = k)
    _ _ _ _ Hinner); [done|].
  intros c2 [all mp] t' _ Hb Ht k Hk. unfold columnPair in Hb.
  destruct (matchColumnPair req sheet1Data sheet2Data c1 c2 mp)
    as [[matches mp']|] eqn:Hpair; [|done]. simpl in Hb.
  destruct (matchColumnPair_recorded _ _ _ _ _ _ _ _ Hpair)
    as (_ & -> & _ & _).
  assert (∀ k, k ∈ list_to_set (keyOf <$> matches) ∪ mp →
    ∃ m, m ∈ allRecords all ++ matches ∧ keyOf m = k) as Hall.
  { intros k' [Hk'|Hk']%elem_of_union.
    - apply elem_of_list_to_set, list_elem_of_fmap in Hk' as (m & -> & Hm).
      exists m. split; [|done]. by apply elem_of_app; right.
    - destruct (Ht k' Hk') as (m & Hm & Hkm).
      exists m. split; [|done]. by apply elem_of_app; left. }
  case_decide as Hlen.
  - destruct (Headers sheet1Data !! c1); [|done].
    destruct (Headers sheet2Data !! c2); [|done]. simplify_eq/=.
    rewrite allRecords_snoc. simpl. by apply Hall.
  - simplify_eq/=. destruct matches; [|simpl in Hlen; lia].
    destruct (Hall k Hk) as (m & Hm & Hkm). rewrite app_nil_r in Hm.
    by exists m.
Qed.
End consumed.

(** With fuzzy matching off a column pair holds exact records only. *)
Lemma matchColumnPair_exact_only `{Strings} req sheet1Data sheet2Data c1 c2
    mp matches mp' :
  UseFuzzy req = false →
  matchColumnPair req sheet1Data sheet2Data c1 c2 mp = Some (matches, mp') →
  Forall (λ m, IsFuzzy m = false) matches.
Proof.
  intros Hoff Hrun. unfold matchColumnPair in Hrun.
  apply (forM_preserves (λ st, Forall (λ m, IsFuzzy m = false) st.1)
           _ _ _ _ Hrun); [constructor|].
  intros [i row1] s s' _ Hb Hs. unfold rowStep in Hb.
  destruct (row1 !! c1) as [val1|]; [|by simplify_eq].
  destruct (exactPass sheet2Data c2 (buildKeyMap sheet2Data c2)
              (Int64.add (Z.of_nat i) 2) val1 (standardKey val1) s)
    as [s1|] eqn:Hexact; [|done]. simpl in Hb.
  unfold fuzzyPass in Hb. rewrite Hoff in Hb. simplify_eq.
  unfold exactPass in Hexact.
  destruct (buildKeyMap sheet2Data c2 !! standardKey val1) as [idxs|];
    [|by simplify_eq].
  apply (forM_preserves (λ st, Forall (λ m, IsFuzzy m = false) st.1)
           _ _ _ _ Hexact); [done|].
  intros idx [matches0 mp0] t' _ Hstep Ht. unfold exactStep in Hstep.
  case_decide; [by simplify_eq|].
  destruct (at_Z (Rows sheet2Data) (Int64.sub idx 2)) as [row2|]; [|done].
  simpl in Hstep. destruct (row2 !! c2) as [val2|]; [|done]. simplify_eq/=.
  apply Forall_app. split; [done|]. by apply Forall_singleton.
Qed.

(** ** The first column pair that matches a row pair *)

(** A record of a column pair joins two cells the comparison matches. *)
Lemma recorded_matching `{Strings} req sheet1Data sheet2Data c1 c2 m :
  recorded req sheet1Data sheet2Data c1 c2 m →
  (UseFuzzy req = false → IsFuzzy m = false) →
  ∃ i j,
    (i < length (Rows sheet1Data))%nat ∧ (j < length (Rows sheet2Data))%nat ∧
    OriginalRow1 m = Int64.add (Z.of_nat i) 2 ∧
    OriginalRow2 m = Int64.add (Z.of_nat j) 2 ∧
    matchingCells req sheet1Data sheet2Data c1 c2 i j.
Proof.
  intros
    [i j row1 row2 row2' val1 v2 val2 Hrow1 Hval1 Hrow2 Hv2 Hk Hrow2' Hval2
    |i j row1 row2 val1 val2 Hrow1 Hval1 Hrow2 Hval2 Hk Hfz] Hoff;
    exists i, j; simpl in *;
    pose proof (lookup_lt_Some _ _ _ Hrow1) as Hi;
    pose proof (lookup_lt_Some _ _ _ Hrow2) as Hj;
    repeat split; try done.
  - exists row1, row2, val1, v2. repeat split; try done. by left.
  - exists row1, row2, val1, val2. repeat split; try done. right.
    split; [|done]. destruct (UseFuzzy req); [done|]. by specialize (Hoff eq_refl).
Qed.

Lemma reportedCells_snoc groups g h1 h2 r1 r2 val1 val2 :
  reportedCells groups h1 h2 r1 r2 val1 val2 →
  reportedCells (groups ++ [g]) h1 h2 r1 r2 val1 val2.
Proof.
  intros (g0 & m & Hg0 & Hrest). exists g0, m. split; [|done].
  apply elem_of_app. by left.
Qed.

Section first_pair.
Context `{Strings}.
Variables (req : MatchRequest) (sheet1Data sheet2Data : SheetData).
Hypothesis Hfit1 : rowsFit sheet1Data.
Hypothesis Hfit2 : rowsFit sheet2Data.
Variables (c1 c2 i j : nat) (header1 header2 : string).
Variables (row1 row2 : list string) (val1 val2 : string).
Hypothesis Hheader1 : Headers sheet1Data !! c1 = Some header1.
Hypothesis Hheader2 : Headers sheet2Data !! c2 = Some header2.
Hypothesis Hrow1 : Rows sheet1Data !! i = Some row1.
Hypothesis Hval1 : row1 !! c1 = Some val1.
Hypothesis Hrow2 : Rows sheet2Data !! j = Some row2.
Hypothesis Hval2 : row2 !! c2 = Some val2.
Hypothesis Hmatch :
  exactKeys val1 val2 ∨
  (UseFuzzy req = true ∧
   isFuzzyMatch val1 val2 (FuzzyThreshold req) = Some true).
Hypothesis Hfirst :
  ∀ d1 d2, pairBefore (d1, d2) (c1, c2) →
           (d2 < length (Headers sheet2Data))%nat →
           ¬ matchingCells req sheet1Data sheet2Data d1 d2 i j.

Local Abbreviation inv :=
  (firstInv header1 header2 (Z.of_nat i + 2) (Z.of_nat j + 2) val1 val2
     c1 c2).

(** A record with the key of the row pair is a record of the rows [i] and
    [j]. *)
Lemma first_pair_rows d1 d2 m :
  recorded req sheet1Data sheet2Data d1 d2 m →
  (UseFuzzy req = false → IsFuzzy m = false) →
  keyOf m = pairKey (Z.of_nat i + 2) (Z.of_nat j + 2) →
  matchingCells req sheet1Data sheet2Data d1 d2 i j.
Proof using Hfit1 Hfit2.
  intros Hrec Hoff Hkey.
  destruct (recorded_matching _ _ _ _ _ _ Hrec Hoff)
    as (i' & j' & Hi' & Hj' & Hr1 & Hr2 & Hcells).
  apply pairKey_inj in Hkey as [Hk1 Hk2].
  rewrite Hr1, (row_number sheet1Data) in Hk1 by done.
  rewrite Hr2, (row_number sheet2Data) in Hk2 by done.
  assert (i' = i) as -> by lia. assert (j' = j) as -> by lia. done.
Qed.

Lemma columnPair_first a b st st' :
  (b < length (Headers sheet2Data))%nat →
  inv a b st →
  columnPair req sheet1Data sheet2Data a b st = Some st' →
  inv a (S b) st'.
Proof using All.
  intros Hb [Hafter Hbefore] Hstep. destruct st as [all mp].
  unfold columnPair in Hstep.
  destruct (matchColumnPair req sheet1Data sheet2Data a b mp)
    as [[matches mp']|] eqn:Hpair; [|done]. simpl in Hstep.
  destruct (matchColumnPair_recorded _ _ _ _ _ _ _ _ Hpair)
    as (Hrec & -> & _ & _).
  rewrite Forall_forall in Hrec.
  assert (Hoff : ∀ m, m ∈ matches → UseFuzzy req = false → IsFuzzy m = false).
  { intros m Hm Hoff.
    pose proof (matchColumnPair_exact_only _ _ _ _ _ _ _ _ Hoff Hpair) as Hall.
    rewrite Forall_forall in Hall. by apply Hall. }
  pose proof (lookup_lt_Some _ _ _ Hrow1) as Hi.
  pose proof (lookup_lt_Some _ _ _ Hrow2) as Hj.
  unfold firstInv, pairBefore in *. simpl in *.
  destruct (decide (c1 < a ∨ (c1 = a ∧ c2 < b))%nat) as [Hdone|Hnot].
  - (* the column pair [(c1, c2)] has run *)
    specialize (Hafter Hdone). split; [intros _|intros Hn; lia].
    case_decide; [|by simplify_eq].
    destruct (Headers sheet1Data !! a); [|done].
    destruct (Headers sheet2Data !! b); [|done]. simplify_eq/=.
    by apply reportedCells_snoc.
  - specialize (Hbefore Hnot).
    destruct (decide (a = c1 ∧ b = c2)) as [[-> ->]|Hearlier].
    + (* this is the column pair [(c1, c2)] *)
      split; [intros _|intros Hn; lia].
      assert (matchingCells req sheet1Data sheet2Data c1 c2 i j) as Hcells
        by (by exists row1, row2, val1, val2).
      pose proof (matchColumnPair_consumes_all _ _ _ _ _ _ _ _ _ _
                    Hpair Hcells) as Hin.
      rewrite (row_number sheet1Data), (row_number sheet2Data) in Hin by done.
      apply elem_of_union in Hin as [Hin|Hin]; [|done].
      apply elem_of_list_to_set, list_elem_of_fmap in Hin as (m & Hkey & Hm).
      rewrite decide_True in Hstep
        by (destruct matches; [by apply elem_of_nil in Hm|simpl; lia]).
      rewrite Hheader1, Hheader2 in Hstep. simplify_eq/=.
      eexists _, m. split; [apply elem_of_app; right; apply list_elem_of_here|].
      simpl. repeat split; try done.
      * symmetry in Hkey. apply pairKey_inj in Hkey as [Hk1 Hk2].
        unfold rowPair. by rewrite Hk1, Hk2.
      * destruct (recorded_cells _ _ _ _ _ _ Hfit1 Hfit2 (Hrec m Hm))
          as (i' & j' & r1' & r2' & Hr1' & Hv1' & _ & _ & Ho1 & _ & _).
        symmetry in Hkey. apply pairKey_inj in Hkey as [Hk1 _].
        assert (i' = i) as -> by lia. by simplify_eq.
      * destruct (recorded_cells _ _ _ _ _ _ Hfit1 Hfit2 (Hrec m Hm))
          as (i' & j' & r1' & r2' & _ & _ & Hr2' & Hv2' & _ & Ho2 & _).
        symmetry in Hkey. apply pairKey_inj in Hkey as [_ Hk2].
        assert (j' = j) as -> by lia. by simplify_eq.
    + (* an earlier column pair: it does not match the rows *)
      split; [intros Hn; lia|intros _].
      assert (pairKey (Z.of_nat i + 2) (Z.of_nat j + 2)
                ∉ list_to_set (C := gset string) (keyOf <$> matches) ∪ mp)
        as Hkeep.
      { intros [Hin|Hin]%elem_of_union; [|done].
        apply elem_of_list_to_set, list_elem_of_fmap in Hin as (m & Hkey & Hm).
        apply (Hfirst a b); [lia|done|].
        apply (first_pair_rows a b m); [by apply Hrec|by apply Hoff|done]. }
      case_decide; [|by simplify_eq].
      destruct (Headers sheet1Data !! a); [|done].
      destruct (Headers sheet2Data !! b); [|done]. by simplify_eq/=.
Qed.

Lemma matchColumns_first st :
  matchColumns req sheet1Data sheet2Data = Some st →
  reportedCells st.1 header1 header2 (Z.of_nat i + 2) (Z.of_nat j + 2)
    val1 val2.
Proof using All.
  unfold matchColumns. intros Hrun.
  pose proof (lookup_lt_Some _ _ _ Hheader1) as Hc1.
  pose proof (lookup_lt_Some _ _ _ Hheader2) as Hc2.
  assert (Hend : inv (length (Headers sheet1Data)) 0 st).
  { apply (forM_seq_run_inv (λ a, inv a 0) _ _ _ _) in Hrun; [done| |].
    - split; unfold pairBefore; simpl; [lia|]. intros _.
      apply not_elem_of_empty.
    - intros a s s' _ Hs Hinner.
      apply (forM_seq_run_inv (λ b, inv a b) _ _ _ _) in Hinner; [|done|].
      + destruct Hinner as [Hafter Hbefore].
        unfold firstInv, pairBefore in *. simpl in *.
        split; [intros Hn; apply Hafter|intros Hn; apply Hbefore]; lia.
      + intros b t t'. apply columnPair_first. }
  destruct Hend as [Hafter _]. apply Hafter. unfold pairBefore. simpl. lia.
Qed.
End first_pair.

(** ** The exact record of a row pair *)

Lemma NoDup_fmap_eq {A B} (f : A → B) (l : list A) x y :
  NoDup (f <$> l) → x ∈ l → y ∈ l → f x = f y → x = y.
Proof.
  induction l as [|z l IH]; simpl; [by intros _ ?%elem_of_nil|].
  intros [Hz Hnd]%NoDup_cons [->|Hx]%elem_of_cons [->|Hy]%elem_of_cons Heq.
  - done.
  - exfalso. apply Hz. rewrite Heq. by apply list_elem_of_fmap_2.
  - exfalso. apply Hz. rewrite <- Heq. by apply list_elem_of_fmap_2.
  - by apply IH.
Qed.

(** A column pair emits the exact record of two cells with equal,
    non-empty keys, unless the set it starts from holds their row pair. *)
Lemma matchColumnPair_exact_record `{Strings} req sheet1Data sheet2Data c1 c2
    matchedPairs matches matchedPairs' i j row1 row2 val1 val2 :
  rowsFit sheet1Data → rowsFit sheet2Data →
  matchColumnPair req sheet1Data sheet2Data c1 c2 matchedPairs
    = Some (matches, matchedPairs') →
  Rows sheet1Data !! i = Some row1 → row1 !! c1 = Some val1 →
  Rows sheet2Data !! j = Some row2 → row2 !! c2 = Some val2 →
  exactKeys val1 val2 →
  pairKey (Z.of_nat i + 2) (Z.of_nat j + 2) ∉ matchedPairs →
  {| OriginalRow1 := Z.of_nat i + 2; OriginalRow2 := Z.of_nat j + 2;
     Val1 := val1; Val2 := val2; IsFuzzy := false |} ∈ matches.
Proof.
  intros Hfit1 Hfit2 Hpair Hrow1 Hval1 Hrow2 Hval2 Hk Hfresh.
  pose proof (lookup_lt_Some _ _ _ Hrow1) as Hi.
  pose proof (lookup_lt_Some _ _ _ Hrow2) as Hj.
  assert (exactCells sheet1Data sheet2Data c1 c2 i j) as Hcells
    by (by exists row1, row2, val1, val2).
  pose proof (matchColumnPair_consumes _ _ _ _ _ _ _ _ _ _ Hpair Hcells) as Hin.
  rewrite (row_number sheet1Data), (row_number sheet2Data) in Hin by done.
  destruct (matchColumnPair_recorded _ _ _ _ _ _ _ _ Hpair)
    as (Hrec & -> & _ & _).
  apply elem_of_union in Hin as [Hin|Hin]; [|done].
  apply elem_of_list_to_set, list_elem_of_fmap in Hin as (m & Hkey & Hm).
  apply pairKey_inj in Hkey as [Hr1 Hr2].
  rewrite Forall_forall in Hrec.
  destruct (recorded_cells _ _ _ _ _ _ Hfit1 Hfit2 (Hrec m Hm))
    as (i' & j' & row1' & row2' & Hrow1' & Hval1' & Hrow2' & Hval2'
        & Hr1' & Hr2' & Hfz).
  assert (i' = i) as -> by lia. assert (j' = j) as -> by lia.
  simplify_eq. apply Hfz in Hk.
  destruct m as [r1 r2 v1 v2 fz]. simpl in *. by simplify_eq.
Qed.

(** ** The claims about the response *)

(** C1, as stated, fails: the row pair (2, 2) matches exactly under the
    column pairs (a, c) and (b, c), and the response reports it under
    (a, c) only. *)
Lemma matchedPairs_scope_counterexample :
  exactCells (H := AsciiStrings.strings)
    Examples.twoColumnsA Examples.oneColumnB 0 0 0 0 ∧
  exactCells (H := AsciiStrings.strings)
    Examples.twoColumnsA Examples.oneColumnB 1 0 0 0 ∧
  ∃ groups,
    Examples.run Examples.twoColumnsA Examples.oneColumnB false 0
      = Some (OK groups) ∧
    reportedUnder groups "a" "c" 2 2 ∧
    ¬ reportedUnder groups "b" "c" 2 2.
Proof.
  split; [|split].
  - exists ["x"; "x"], ["x"], "x", "x". by repeat split.
  - exists ["x"; "x"], ["x"], "x", "x". by repeat split.
  - exists [Examples.group "a" "c" [Examples.record 2 2 "x" "x" false]].
    split; [by vm_compute|]. split.
    + exists (Examples.group "a" "c" [Examples.record 2 2 "x" "x" false]),
             (Examples.record 2 2 "x" "x" false).
      repeat split; apply list_elem_of_here.
    + intros (g & m & Hg%list_elem_of_singleton & Hh1 & _). by subst g.
Qed.

(** C1, amended: the set [matchedPairs] is created once and shared by all
    the column pairs of a comparison.  A row pair is reported in at most
    one record of the whole response; and when its cells match under
    several column pairs, the first of them in the order of the loops
    reports it: the group with the headers of that column pair holds the
    record of the two rows, with the values of their cells in these
    columns (so no later column pair reports it). *)
Theorem matchedPairs_shared `{Strings} dataStore req groups :
  matchHandler dataStore req = Some (OK groups) →
  NoDup (rowPair <$> allRecords groups) ∧
  ∀ sheet1Data sheet2Data c1 c2 i j header1 header2 row1 row2 val1 val2,
    dataStore !! Sheet1 req = Some sheet1Data →
    dataStore !! Sheet2 req = Some sheet2Data →
    rowsFit sheet1Data → rowsFit sheet2Data →
    Headers sheet1Data !! c1 = Some header1 →
    Headers sheet2Data !! c2 = Some header2 →
    Rows sheet1Data !! i = Some row1 → row1 !! c1 = Some val1 →
    Rows sheet2Data !! j = Some row2 → row2 !! c2 = Some val2 →
    exactKeys val1 val2 ∨
      (UseFuzzy req = true ∧
       isFuzzyMatch val1 val2 (FuzzyThreshold req) = Some true) →
    (∀ d1 d2, pairBefore (d1, d2) (c1, c2) →
              (d2 < length (Headers sheet2Data))%nat →
              ¬ matchingCells req sheet1Data sheet2Data d1 d2 i j) →
    reportedCells groups header1 header2 (Z.of_nat i + 2) (Z.of_nat j + 2)
      val1 val2.
Proof.
  intros Hrun. split.
  - destruct (matchHandler_found _ _ _ Hrun) as (s1 & s2 & Hs1 & Hs2).
    destruct (matchHandler_inv _ _ _ _ _ Hs1 Hs2 Hrun) as (mp & Hnd & _).
    by apply NoDup_rowPair.
  - intros s1 s2 c1 c2 i j header1 header2 row1 row2 val1 val2 Hs1 Hs2
      Hfit1 Hfit2 Hh1 Hh2 Hrow1 Hval1 Hrow2 Hval2 Hmatch Hfirst.
    unfold matchHandler in Hrun. rewrite Hs1, Hs2 in Hrun.
    destruct (matchColumns req s1 s2) as [[all mp]|] eqn:Hcols; [|done].
    simplify_eq/=.
    by apply (matchColumns_first req s1 s2 Hfit1 Hfit2 c1 c2 i j
                header1 header2 row1 row2 val1 val2 Hh1 Hh2
                Hrow1 Hval1 Hrow2 Hval2 Hmatch Hfirst _ Hcols).
Qed.

Lemma matchedPairs_shared_witness :
  NoDup (rowPair <$>
    allRecords [Examples.group "a" "c" [Examples.record 2 2 "cat" "cab" true];
                Examples.group "b" "d" [Examples.record 3 2 "dog" "dog" false]])
  ∧ reportedCells
      [Examples.group "a" "c" [Examples.record 2 2 "cat" "cab" true];
       Examples.group "b" "d" [Examples.record 3 2 "dog" "dog" false]]
      "b" "d" (Z.of_nat 1 + 2) (Z.of_nat 0 + 2) "dog" "dog".
Proof.
  destruct (matchedPairs_shared (H := AsciiStrings.strings)
              (Examples.store Examples.catA Examples.catB)
              (Examples.request true 40)
              [Examples.group "a" "c" [Examples.record 2 2 "cat" "cab" true];
               Examples.group "b" "d" [Examples.record 3 2 "dog" "dog" false]]
              (eq_refl _)) as [Hnd Hfirst].
  split; [exact Hnd|].
  apply (Hfirst Examples.catA Examples.catB 1%nat 1%nat 1%nat 0%nat
           "b" "d" ["z"; "dog"] ["cab"; "dog"] "dog" "dog");
    try reflexivity.
  - left. by vm_compute.
  - intros d1 d2 Hbefore Hd2
      (r1 & r2 & v1 & v2 & Hr1 & Hv1 & Hr2 & Hv2 & Hm).
    unfold pairBefore in Hbefore. simpl in *.
    destruct d1 as [|[|d1]], d2 as [|[|d2]]; try lia; simplify_eq/=;
      (destruct Hm as [[Hk _]|[_ Hf]];
       [by vm_compute in Hk|by vm_compute in Hf]).
Defined.

(** C2: the code at two blank cells.  With fuzzy matching off no record is
    produced; with fuzzy matching on, whatever the threshold, the blank
    cell of [A] is reported as a fuzzy match of both blank cells of [B]. *)
Theorem blank_cells_fuzzy_records (threshold : Z) :
  Examples.run Examples.blankA Examples.blankB false threshold
    = Some (OK []) ∧
  Examples.run Examples.blankA Examples.blankB true threshold
    = Some (OK [Examples.group "a" "c"
                  [Examples.record 2 2 "  " "" true;
                   Examples.record 2 3 "  " " " true]]).
Proof. split; reflexivity. Qed.

(** C3, as stated, fails.  Under the column pair (b, d) the cells of the
    row pair (2, 2) have equal keys, and the fuzzy predicate accepts them
    too; yet no record of the pair is emitted under (b, d), exact or
    fuzzy: the fuzzy record of the column pair (a, c) has consumed the
    pair, and it is the only record of the pair in the response. *)
Lemma exact_priority_counterexample :
  exactCells (H := AsciiStrings.strings)
    Examples.catA Examples.catB 1 1 0 0 ∧
  isFuzzyMatch (H := AsciiStrings.strings) "dog" "dog" 40 = Some true ∧
  ∃ groups,
    Examples.run Examples.catA Examples.catB true 40 = Some (OK groups) ∧
    ¬ reportedUnder groups "b" "d" 2 2 ∧
    reportedCells groups "a" "c" 2 2 "cat" "cab" ∧
    ∀ m, m ∈ allRecords groups → rowPair m = (2, 2) → IsFuzzy m = true.
Proof.
  split; [|split; [reflexivity|]].
  { exists ["cat"; "dog"], ["cab"; "dog"], "dog", "dog". by repeat split. }
  exists [Examples.group "a" "c" [Examples.record 2 2 "cat" "cab" true];
          Examples.group "b" "d" [Examples.record 3 2 "dog" "dog" false]].
  split; [by vm_compute|]. split; [|split].
  - intros (g & m & Hg & Hh1 & Hh2 & Hm & Hrows).
    apply elem_of_cons in Hg as [->|Hg%list_elem_of_singleton];
      [discriminate Hh1|]. subst g. simpl in Hm.
    apply list_elem_of_singleton in Hm as ->. discriminate Hrows.
  - exists (Examples.group "a" "c" [Examples.record 2 2 "cat" "cab" true]),
           (Examples.record 2 2 "cat" "cab" true).
    repeat split; apply list_elem_of_here.
  - intros m Hm Hrows. simpl in Hm.
    apply elem_of_cons in Hm as [->|Hm%list_elem_of_singleton]; [done|].
    subst m. discriminate Hrows.
Qed.

(** C3, amended: within the records of one column pair a row pair appears
    in at most one record, and a record whose two values match exactly is
    the exact record: the fuzzy pass never emits a pair the exact pass
    discovers.  When the cells of a row pair have equal, non-empty keys
    and the pair is not in the set [matchedPairs] the earlier column
    pairs left, the exact record is emitted, and it is the only record of
    the pair among those of the column pair, whether or not the fuzzy
    pass accepts the pair too; and [["foo"]] against [["foo"]] with fuzzy
    matching on at the threshold 50 yields the exact record alone. *)
Theorem one_record_per_pair :
  (∀ (H : Strings) dataStore req groups g,
     matchHandler dataStore req = Some (OK groups) → g ∈ groups →
     NoDup (rowPair <$> Matches g) ∧
     ∀ m, m ∈ Matches g → exactKeys (Val1 m) (Val2 m) → IsFuzzy m = false) ∧
  (∀ (H : Strings) req sheet1Data sheet2Data c1 c2 matchedPairs matches
     matchedPairs' i j row1 row2 val1 val2,
     rowsFit sheet1Data → rowsFit sheet2Data →
     matchColumnPair req sheet1Data sheet2Data c1 c2 matchedPairs
       = Some (matches, matchedPairs') →
     Rows sheet1Data !! i = Some row1 → row1 !! c1 = Some val1 →
     Rows sheet2Data !! j = Some row2 → row2 !! c2 = Some val2 →
     exactKeys val1 val2 →
     pairKey (Z.of_nat i + 2) (Z.of_nat j + 2) ∉ matchedPairs →
     ∀ m, m ∈ matches ∧ rowPair m = (Z.of_nat i + 2, Z.of_nat j + 2) ↔
          m = {| OriginalRow1 := Z.of_nat i + 2;
                 OriginalRow2 := Z.of_nat j + 2;
                 Val1 := val1; Val2 := val2; IsFuzzy := false |}) ∧
  Examples.run Examples.fooA Examples.fooB true 50
    = Some (OK [Examples.group "k" "k" [Examples.record 2 2 "foo" "foo" false]]).
Proof.
  split; [|split; [|by vm_compute]].
  - intros H dataStore req groups g Hrun Hg.
    destruct (matchHandler_found _ _ _ Hrun) as (s1 & s2 & Hs1 & Hs2).
    destruct (matchHandler_inv _ _ _ _ _ Hs1 Hs2 Hrun)
      as (mp & Hnd & _ & Hgs).
    simpl in *. split.
    + destruct (allRecords_group groups g Hg) as (pre & post & Hall).
      rewrite Hall, !fmap_app in Hnd.
      apply NoDup_app in Hnd as (_ & _ & Hnd).
      apply NoDup_app in Hnd as (Hnd & _). by apply NoDup_rowPair.
    + rewrite Forall_forall in Hgs.
      destruct (Hgs g Hg) as (c1 & c2 & _ & _ & _ & _ & _ & Hrec).
      rewrite Forall_forall in Hrec. intros m Hm Hk.
      destruct (Hrec m Hm); [done|]. simpl in *. done.
  - intros H req s1 s2 c1 c2 mp matches mp' i j row1 row2 val1 val2
      Hfit1 Hfit2 Hpair Hrow1 Hval1 Hrow2 Hval2 Hk Hfresh m.
    pose proof (matchColumnPair_exact_record _ _ _ _ _ _ _ _ _ _ _ _ _ _
                  Hfit1 Hfit2 Hpair Hrow1 Hval1 Hrow2 Hval2 Hk Hfresh)
      as Hexact.
    split; [|by intros ->].
    intros [Hm Hrows].
    destruct (matchColumnPair_recorded _ _ _ _ _ _ _ _ Hpair)
      as (_ & _ & Hnd & _).
    apply (NoDup_fmap_eq keyOf matches); [done..|].
    unfold keyOf. unfold rowPair in Hrows. simpl.
    injection Hrows as Hr1 Hr2. by rewrite Hr1, Hr2.
Qed.

Lemma one_record_per_pair_witness :
  Examples.record 3 2 "dog" "dog" false
    ∈ [Examples.record 3 2 "dog" "dog" false] ∧
  rowPair (Examples.record 3 2 "dog" "dog" false)
    = (Z.of_nat 1 + 2, Z.of_nat 0 + 2).
Proof.
  apply (proj1 (proj2 one_record_per_pair) AsciiStrings.strings
           (Examples.request true 40) Examples.catA Examples.catB
           1%nat 1%nat (list_to_set ["2-2"])
           [Examples.record 3 2 "dog" "dog" false]
           (list_to_set ["2-2"; "3-2"]) 1%nat 0%nat
           ["z"; "dog"] ["cab"; "dog"] "dog" "dog");
    by vm_compute.
Defined.

(** C7: every record of the response carries, for both sheets, the
    zero-based index of its data row plus two, together with the cells of
    those rows in the columns the group is about. *)
Theorem original_rows_offset `{Strings} dataStore req sheet1Data sheet2Data
    groups :
  dataStore !! Sheet1 req = Some sheet1Data →
  dataStore !! Sheet2 req = Some sheet2Data →
  rowsFit sheet1Data → rowsFit sheet2Data →
  matchHandler dataStore req = Some (OK groups) →
  ∀ g m, g ∈ groups → m ∈ Matches g →
    ∃ c1 c2 i j row1 row2,
      Headers sheet1Data !! c1 = Some (Header1 g) ∧
      Headers sheet2Data !! c2 = Some (Header2 g) ∧
      Rows sheet1Data !! i = Some row1 ∧ row1 !! c1 = Some (Val1 m) ∧
      Rows sheet2Data !! j = Some row2 ∧ row2 !! c2 = Some (Val2 m) ∧
      OriginalRow1 m = Z.of_nat i + 2 ∧
      OriginalRow2 m = Z.of_nat j + 2.
Proof.
  intros Hs1 Hs2 Hfit1 Hfit2 Hrun g m Hg Hm.
  destruct (matchHandler_inv _ _ _ _ _ Hs1 Hs2 Hrun) as (mp & _ & _ & Hgs).
  simpl in Hgs. rewrite Forall_forall in Hgs.
  destruct (Hgs g Hg) as (c1 & c2 & Hh1 & Hh2 & _ & _ & _ & Hrec).
  rewrite Forall_forall in Hrec.
  destruct (recorded_cells _ _ _ _ _ _ Hfit1 Hfit2 (Hrec m Hm))
    as (i & j & row1 & row2 & ? & ? & ? & ? & ? & ? & _).
  by exists c1, c2, i, j, row1, row2.
Qed.

Lemma original_rows_offset_witness :
  ∃ c1 c2 i j row1 row2,
    Headers Examples.aliceA !! c1 = Some "Name" ∧
    Headers Examples.aliceB !! c2 = Some "Name" ∧
    Rows Examples.aliceA !! i = Some row1 ∧ row1 !! c1 = Some "Alice" ∧
    Rows Examples.aliceB !! j = Some row2 ∧ row2 !! c2 = Some "alice" ∧
    2 = Z.of_nat i + 2 ∧ 3 = Z.of_nat j + 2.
Proof.
  apply (original_rows_offset (H := AsciiStrings.strings)
           (Examples.store Examples.aliceA Examples.aliceB)
           (Examples.request false 0) Examples.aliceA Examples.aliceB
           [Examples.group "Name" "Name"
              [Examples.record 2 2 "Alice" "alice" false;
               Examples.record 2 3 "Alice" "alice" false]]
           (eq_refl _) (eq_refl _) (eq_refl _) (eq_refl _) (eq_refl _)
           (Examples.group "Name" "Name"
              [Examples.record 2 2 "Alice" "alice" false;
               Examples.record 2 3 "Alice" "alice" false])
           (Examples.record 2 3 "Alice" "alice" false)).
  - apply list_elem_of_here.
  - apply list_elem_of_further, list_elem_of_here.
Defined.

(** C8: ragged rows never make the comparison fail: the handler answers
    with a list of groups, every column pair runs to its end, and a row
    too short for the column compared has no record among those of the
    column pair. *)
Theorem ragged_rows_tolerated `{Strings} dataStore req sheet1Data sheet2Data :
  dataStore !! Sheet1 req = Some sheet1Data →
  dataStore !! Sheet2 req = Some sheet2Data →
  rowsFit sheet1Data → rowsFit sheet2Data →
  (∃ groups, matchHandler dataStore req = Some (OK groups)) ∧
  ∀ c1 c2 matchedPairs,
    ∃ matches matchedPairs',
      matchColumnPair req sheet1Data sheet2Data c1 c2 matchedPairs
        = Some (matches, matchedPairs') ∧
      ∀ m, m ∈ matches →
        (∀ i row1, Rows sheet1Data !! i = Some row1 →
                   (length row1 ≤ c1)%nat →
                   OriginalRow1 m ≠ Z.of_nat i + 2) ∧
        (∀ j row2, Rows sheet2Data !! j = Some row2 →
                   (length row2 ≤ c2)%nat →
                   OriginalRow2 m ≠ Z.of_nat j + 2).
Proof.
  intros Hs1 Hs2 Hfit1 Hfit2. split.
  - unfold matchHandler. rewrite Hs1, Hs2.
    destruct (matchColumns_total req sheet1Data sheet2Data Hfit2)
      as [[all mp] ->]. by exists all.
  - intros c1 c2 mp.
    destruct (matchColumnPair_total req sheet1Data sheet2Data Hfit2 c1 c2 mp)
      as [[matches mp'] Hpair].
    exists matches, mp'. split; [done|]. intros m Hm.
    destruct (matchColumnPair_recorded _ _ _ _ _ _ _ _ Hpair) as (Hrec & _).
    rewrite Forall_forall in Hrec.
    destruct (recorded_cells _ _ _ _ _ _ Hfit1 Hfit2 (Hrec m Hm))
      as (i & j & row1 & row2 & Hrow1 & Hval1 & Hrow2 & Hval2 & Hr1 & Hr2 & _).
    apply lookup_lt_Some in Hval1, Hval2.
    split; intros k row Hrow Hshort Heq.
    + assert (k = i) as -> by lia. simplify_eq. lia.
    + assert (k = j) as -> by lia. simplify_eq. lia.
Qed.

Lemma ragged_rows_tolerated_witness :
  (∃ groups,
     Examples.run Examples.raggedA Examples.raggedB true 20
       = Some (OK groups)) ∧
  ∀ c1 c2 matchedPairs,
    ∃ matches matchedPairs',
      matchColumnPair (H := AsciiStrings.strings) (Examples.request true 20)
        Examples.raggedA Examples.raggedB c1 c2 matchedPairs
        = Some (matches, matchedPairs') ∧
      ∀ m, m ∈ matches →
        (∀ i row1, Rows Examples.raggedA !! i = Some row1 →
                   (length row1 ≤ c1)%nat →
                   OriginalRow1 m ≠ Z.of_nat i + 2) ∧
        (∀ j row2, Rows Examples.raggedB !! j = Some row2 →
                   (length row2 ≤ c2)%nat →
                   OriginalRow2 m ≠ Z.of_nat j + 2).
Proof.
  apply (ragged_rows_tolerated (H := AsciiStrings.strings)
           (Examples.store Examples.raggedA Examples.raggedB)
           (Examples.request true 20)); by vm_compute.
Defined.

(** C10: every row number the index of column [c2] holds is the number of
    an existing row of the second sheet that has a cell in column [c2]
    (whose key is the one it is listed under), so the exact pass reads
    [Rows[row2Idx-2][c2]] within bounds and its step never panics. *)
Theorem exact_pass_in_bounds `{Strings} sheet2Data c2 key row2Idx :
  rowsFit sheet2Data →
  inBucket (buildKeyMap sheet2Data c2) key row2Idx →
  (∃ row2 val2,
     at_Z (Rows sheet2Data) (Int64.sub row2Idx 2) = Some row2 ∧
     row2 !! c2 = Some val2 ∧ standardKey val2 = key) ∧
  ∀ row1Idx val1 st,
    is_Some (exactStep sheet2Data c2 row1Idx val1 row2Idx st).
Proof.
  intros Hfit Hin. split.
  - by apply bucket_in_bounds.
  - intros row1Idx val1 st. by eapply exactStep_total.
Qed.

Lemma exact_pass_in_bounds_witness :
  (∃ row2 val2,
     at_Z (Rows Examples.raggedB) (Int64.sub 4 2) = Some row2 ∧
     row2 !! 1%nat = Some val2 ∧
     standardKey (H := AsciiStrings.strings) val2 = "x") ∧
  ∀ row1Idx val1 st,
    is_Some (exactStep Examples.raggedB 1 row1Idx val1 4 st).
Proof.
  apply (exact_pass_in_bounds (H := AsciiStrings.strings)
           Examples.raggedB 1 "x" 4); [by vm_compute|].
  exists [4]. split; [by vm_compute | apply list_elem_of_here].
Defined.

(** C9, as stated, fails twice.  The key of the blank cell of [A] equals
    the keys of both blank cells of [B], and no exact record is emitted;
    and the cell of column [b] has the key of both rows of [B], but both
    row pairs were consumed under the column pair (a, c), so neither is
    reported under (b, c). *)
Lemma exact_many_to_many_counterexample :
  (Examples.key "  " = Examples.key "" ∧
   Examples.key "  " = Examples.key " " ∧
   Examples.run Examples.blankA Examples.blankB false 0 = Some (OK [])) ∧
  (exactCells (H := AsciiStrings.strings)
     Examples.twoColumnsA Examples.twoRowsB 1 0 0 0 ∧
   exactCells (H := AsciiStrings.strings)
     Examples.twoColumnsA Examples.twoRowsB 1 0 0 1 ∧
   ∃ groups,
     Examples.run Examples.twoColumnsA Examples.twoRowsB false 0
       = Some (OK groups) ∧
     ¬ reportedUnder groups "b" "c" 2 2 ∧
     ¬ reportedUnder groups "b" "c" 2 3).
Proof.
  split; [by vm_compute|]. split; [|split].
  - exists ["x"; "x"], ["x"], "x", "x". by repeat split.
  - exists ["x"; "x"], ["x"], "x", "x". by repeat split.
  - exists [Examples.group "a" "c" [Examples.record 2 2 "x" "x" false;
                                    Examples.record 2 3 "x" "x" false]].
    split; [by vm_compute|].
    split; intros (g & m & Hg%list_elem_of_singleton & Hh1 & _); by subst g.
Qed.

(** C9, amended: exact matching is many-to-many among the row pairs not
    yet consumed.  When the cell of an A-row has a non-empty normalized
    key equal to that of the cell of a B-row in the compared column, and
    the row pair is not in the set [matchedPairs] the earlier column pairs
    left, the exact record of the two rows is among the records of the
    column pair; and [["Alice"]] against [["alice"]; ["alice"]] with fuzzy
    matching off yields one group with the two exact records 2-2, 2-3. *)
Theorem exact_many_to_many :
  (∀ (H : Strings) req sheet1Data sheet2Data c1 c2 matchedPairs matches
     matchedPairs' i j row1 row2 val1 val2,
     rowsFit sheet1Data → rowsFit sheet2Data →
     matchColumnPair req sheet1Data sheet2Data c1 c2 matchedPairs
       = Some (matches, matchedPairs') →
     Rows sheet1Data !! i = Some row1 → row1 !! c1 = Some val1 →
     Rows sheet2Data !! j = Some row2 → row2 !! c2 = Some val2 →
     exactKeys val1 val2 →
     pairKey (Z.of_nat i + 2) (Z.of_nat j + 2) ∉ matchedPairs →
     {| OriginalRow1 := Z.of_nat i + 2; OriginalRow2 := Z.of_nat j + 2;
        Val1 := val1; Val2 := val2; IsFuzzy := false |} ∈ matches) ∧
  Examples.run Examples.aliceA Examples.aliceB false 0
    = Some (OK [Examples.group "Name" "Name"
                  [Examples.record 2 2 "Alice" "alice" false;
                   Examples.record 2 3 "Alice" "alice" false]]).
Proof.
  split; [|by vm_compute].
  intros H req s1 s2 c1 c2 mp matches mp' i j row1 row2 val1 val2
    Hfit1 Hfit2 Hpair Hrow1 Hval1 Hrow2 Hval2 Hk Hfresh.
  pose proof (lookup_lt_Some _ _ _ Hrow1) as Hi.
  pose proof (lookup_lt_Some _ _ _ Hrow2) as Hj.
  assert (exactCells s1 s2 c1 c2 i j) as Hcells
    by (by exists row1, row2, val1, val2).
  pose proof (matchColumnPair_consumes _ _ _ _ _ _ _ _ _ _ Hpair Hcells) as Hin.
  rewrite (row_number s1), (row_number s2) in Hin by done.
  destruct (matchColumnPair_recorded _ _ _ _ _ _ _ _ Hpair)
    as (Hrec & -> & _ & _).
  apply elem_of_union in Hin as [Hin|Hin]; [|done].
  apply elem_of_list_to_set, list_elem_of_fmap in Hin as (m & Hkey & Hm).
  apply pairKey_inj in Hkey as [Hr1 Hr2].
  rewrite Forall_forall in Hrec.
  destruct (recorded_cells _ _ _ _ _ _ Hfit1 Hfit2 (Hrec m Hm))
    as (i' & j' & row1' & row2' & Hrow1' & Hval1' & Hrow2' & Hval2'
        & Hr1' & Hr2' & Hfz).
  assert (i' = i) as -> by lia. assert (j' = j) as -> by lia.
  simplify_eq. apply Hfz in Hk.
  destruct m as [r1 r2 v1 v2 fz]. simpl in *. by simplify_eq.
Qed.

Lemma exact_many_to_many_witness :
  Examples.record 2 3 "Alice" "alice" false
    ∈ [Examples.record 2 2 "Alice" "alice" false;
       Examples.record 2 3 "Alice" "alice" false].
Proof.
  apply (proj1 exact_many_to_many AsciiStrings.strings
           (Examples.request false 0) Examples.aliceA Examples.aliceB
           0%nat 0%nat ∅ _ (list_to_set ["2-2"; "2-3"]) 0%nat 1%nat
           ["Alice"] ["alice"] "Alice" "alice"); by vm_compute.
Defined.

(** ** The examples of the specification, run on the model *)

Example exact_priority_example :
  Examples.run Examples.fooA Examples.fooB true 50
  = Some (OK [Examples.group "k" "k" [Examples.record 2 2 "foo" "foo" false]]).
Proof. reflexivity. Qed.

Example end_to_end_example :
  matchHandler (H := AsciiStrings.strings)
    (Examples.store {| Headers := ["Name"]; Rows := [["Jon Smith"]] |}
                    {| Headers := ["Full Name"]; Rows := [["John Smith"]] |})
    (Examples.request true 20)
  = Some (OK [Examples.group "Name" "Full Name"
                [Examples.record 2 2 "Jon Smith" "John Smith" true]]).
Proof. reflexivity. Qed.

Example threshold_zero_example :
  isFuzzyMatch (H := AsciiStrings.strings) "same" "same" 0 = Some true ∧
  isFuzzyMatch (H := AsciiStrings.strings) "ab" "xy" 0 = Some false.
Proof. split; reflexivity. Qed.

Example missing_sheet_example :
  matchHandler (H := AsciiStrings.strings) ∅ (Examples.request false 0)
  = Some (BadRequest "One or both sheets not found in store.").
Proof. reflexivity. Qed.

(** * Further properties of the code *)

(** ** The edit distance as a metric *)

Lemma bytes_inj s1 s2 : bytes s1 = bytes s2 → s1 = s2.
Proof.
  intros Heq.
  rewrite <- (string_of_list_ascii_of_string s1),
          <- (string_of_list_ascii_of_string s2).
  unfold bytes in Heq. by rewrite Heq.
Qed.

Lemma lev_zero a b : lev a b = 0%nat → a = b.
Proof.
  revert b. induction a as [|x a IH]; intros [|y b] Hz; try done.
  rewrite lev_cons_cons in Hz. case_decide; [|lia].
  subst y. f_equal. apply IH. lia.
Qed.

Lemma edits_trans n m a b c :
  edits n a b → edits m b c → edits (n + m) a c.
Proof.
  induction 1 as [s|n s t u Hst _ IH]; intros Hbc; [done|].
  simpl. eapply edits_more; [done | by apply IH].
Qed.

Lemma edit1_length a b :
  edit1 a b → (length a ≤ S (length b) ∧ length b ≤ S (length a))%nat.
Proof. intros [p c q|p c q|p c c' q _]; rewrite !length_app; simpl; lia. Qed.

Lemma edits_length n a b :
  edits n a b → (length a ≤ n + length b ∧ length b ≤ n + length a)%nat.
Proof.
  induction 1 as [s|n s t u Hst _ IH]; [lia|].
  apply edit1_length in Hst. lia.
Qed.

Lemma lev_triangle a b c : (lev a c ≤ lev a b + lev b c)%nat.
Proof.
  apply edits_lower_bound.
  eapply edits_trans; apply edits_lev.
Qed.

Lemma lev_length a b :
  (length a ≤ lev a b + length b ∧ length b ≤ lev a b + length a)%nat.
Proof. apply edits_length, edits_lev. Qed.

(** X1: the index arithmetic of [levenshteinDistance] is safe: whatever the
    two strings, no access to [s1], [s2], [v0] or [v1] is out of range. *)
Theorem levenshteinDistance_never_panics (s1 s2 : string) :
  ∃ d, levenshteinDistance s1 s2 = Some d.
Proof. apply levenshteinDistance_total. Qed.

(** X2: the distance is zero exactly for equal strings. *)
Theorem levenshteinDistance_zero (s1 s2 : string) :
  len s1 < Int64.max_int →
  len s2 < Int64.max_int →
  levenshteinDistance s1 s2 = Some 0 ↔ s1 = s2.
Proof.
  intros Hs1 Hs2. split.
  - rewrite levenshteinDistance_lev by done. intros [= Hz].
    apply bytes_inj, (inj reverse), lev_zero. lia.
  - intros ->. unfold levenshteinDistance. by rewrite decide_True.
Qed.

Lemma levenshteinDistance_zero_witness :
  levenshteinDistance "abc" "abc" = Some 0 ↔ "abc" = "abc".
Proof. apply levenshteinDistance_zero; reflexivity. Defined.

(** X3: the triangle inequality: going through a third string never makes
    the distance shorter. *)
Theorem levenshteinDistance_triangle (a b c : string) :
  len a < Int64.max_int →
  len b < Int64.max_int →
  len c < Int64.max_int →
  ∃ dab dbc dac,
    levenshteinDistance a b = Some dab ∧
    levenshteinDistance b c = Some dbc ∧
    levenshteinDistance a c = Some dac ∧
    dac ≤ dab + dbc.
Proof.
  intros Ha Hb Hc. rewrite !levenshteinDistance_lev by done.
  eexists _, _, _. repeat split.
  pose proof (lev_triangle (reverse (bytes a)) (reverse (bytes b))
                (reverse (bytes c))). lia.
Qed.

Lemma levenshteinDistance_triangle_witness :
  ∃ dab dbc dac,
    levenshteinDistance "kitten" "sitten" = Some dab ∧
    levenshteinDistance "sitten" "sitting" = Some dbc ∧
    levenshteinDistance "kitten" "sitting" = Some dac ∧
    dac ≤ dab + dbc.
Proof. apply levenshteinDistance_triangle; reflexivity. Defined.

(** X4: the distance lies between the difference of the two lengths and
    the greater of them. *)
Theorem levenshteinDistance_bounds (s1 s2 : string) :
  len s1 < Int64.max_int →
  len s2 < Int64.max_int →
  ∃ d, levenshteinDistance s1 s2 = Some d ∧
       Z.abs (len s1 - len s2) ≤ d ≤ Z.max (len s1) (len s2).
Proof.
  intros Hs1 Hs2. rewrite levenshteinDistance_lev by done.
  eexists. split; [done|].
  pose proof (lev_length (reverse (bytes s1)) (reverse (bytes s2))) as Hlo.
  pose proof (lev_le_max (reverse (bytes s1)) (reverse (bytes s2))) as Hhi.
  rewrite !length_reverse, !length_bytes in Hlo, Hhi. unfold len. lia.
Qed.

Lemma levenshteinDistance_bounds_witness :
  ∃ d, levenshteinDistance "ab" "xyzw" = Some d ∧
       Z.abs (len "ab" - len "xyzw") ≤ d ≤ Z.max (len "ab") (len "xyzw").
Proof. apply levenshteinDistance_bounds; reflexivity. Defined.

(** ** The fuzzy predicate *)

(** Without overflow the predicate is the comparison it is written as. *)
Lemma isFuzzyMatch_unfold `{Strings} (a b : string) (threshold : Z) :
  len (standardKey a) * 100 ≤ Int64.max_int →
  len (standardKey b) * 100 ≤ Int64.max_int →
  -100 ≤ threshold ≤ 100 →
  isFuzzyMatch a b threshold
  = Some (bool_decide
      (standardKey a = standardKey b ∨
       (standardKey a ≠ "" ∧ standardKey b ≠ "" ∧
        Z.of_nat (lev (reverse (bytes (standardKey a)))
                      (reverse (bytes (standardKey b)))) * 100
        ≤ Z.max (len (standardKey a)) (len (standardKey b)) * threshold))).
Proof.
  intros Hla Hlb Ht. unfold isFuzzyMatch.
  assert (0 ≤ len (standardKey a)) by (unfold len; lia).
  assert (0 ≤ len (standardKey b)) by (unfold len; lia).
  case_decide as Heq.
  { f_equal. symmetry. apply bool_decide_eq_true. by left. }
  case_decide as Hblank.
  { f_equal. symmetry. apply bool_decide_eq_false. intros [?|(? & ? & _)]; tauto. }
  case_decide as Hmax.
  { rewrite max_spec in Hmax. exfalso. apply Hblank. left.
    destruct (standardKey a); [done|]. unfold len in *. simpl in *. lia. }
  unfold Int64.max_int in *.
  rewrite levenshteinDistance_lev by (unfold Int64.max_int; lia). simpl.
  pose proof (lev_le_max (reverse (bytes (standardKey a)))
                (reverse (bytes (standardKey b)))) as Hle.
  rewrite !length_reverse, !length_bytes in Hle.
  rewrite max_spec. unfold len in *.
  rewrite !mul_small by (unfold Int64.max_int, Int64.min_int; nia).
  f_equal. apply bool_decide_ext. split; [|intros [?|(_ & _ & ?)]; done].
  intros Hd. right. repeat split; [tauto | tauto | done].
Qed.

(** X5: the fuzzy predicate is symmetric in its two values. *)
Theorem isFuzzyMatch_symmetric `{Strings} (a b : string) (threshold : Z) :
  len (standardKey a) < Int64.max_int →
  len (standardKey b) < Int64.max_int →
  isFuzzyMatch a b threshold = isFuzzyMatch b a threshold.
Proof.
  intros Hla Hlb. unfold isFuzzyMatch.
  destruct (decide (standardKey a = standardKey b)) as [Heq|Hne].
  { by rewrite decide_True. }
  rewrite (decide_False (P := standardKey b = standardKey a)) by done.
  destruct (decide (standardKey a = "" ∨ standardKey b = "")) as [Hblank|Hfull].
  { by rewrite decide_True by tauto. }
  rewrite (decide_False (P := standardKey b = "" ∨ standardKey a = "")) by tauto.
  rewrite !max_spec, (Z.max_comm (len (standardKey b))).
  case_decide; [done|].
  rewrite !levenshteinDistance_lev by done.
  by rewrite (lev_sym (reverse (bytes (standardKey b)))).
Qed.

Lemma isFuzzyMatch_symmetric_witness :
  isFuzzyMatch (H := AsciiStrings.strings) "Jon Smith" "John Smith" 20
  = isFuzzyMatch (H := AsciiStrings.strings) "John Smith" "Jon Smith" 20.
Proof. apply isFuzzyMatch_symmetric; reflexivity. Defined.

(** X6: a threshold of zero (or below, down to -100) accepts two values
    exactly when their normalized keys are identical. *)
Theorem isFuzzyMatch_threshold_0 `{Strings} (a b : string) (threshold : Z) :
  len (standardKey a) * 100 ≤ Int64.max_int →
  len (standardKey b) * 100 ≤ Int64.max_int →
  -100 ≤ threshold ≤ 0 →
  isFuzzyMatch a b threshold = Some true ↔ standardKey a = standardKey b.
Proof.
  intros Hla Hlb Ht. rewrite isFuzzyMatch_unfold by (done || lia).
  split.
  - intros [= Hd%bool_decide_eq_true]. destruct Hd as [?|(_ & _ & Hd)]; [done|].
    apply bytes_inj, (inj reverse), lev_zero. unfold len in *. nia.
  - intros Heq. f_equal. apply bool_decide_eq_true. by left.
Qed.

Lemma isFuzzyMatch_threshold_0_witness :
  isFuzzyMatch (H := AsciiStrings.strings) " Same" "same " 0 = Some true
  ↔ standardKey (H := AsciiStrings.strings) " Same"
    = standardKey (H := AsciiStrings.strings) "same ".
Proof. apply isFuzzyMatch_threshold_0; by vm_compute. Defined.

(** X7: the predicate is monotone in the threshold: what matches at a
    threshold between 0 and 100 matches at every greater one up to 100. *)
Theorem isFuzzyMatch_monotone `{Strings} (a b : string) (t t' : Z) :
  len (standardKey a) * 100 ≤ Int64.max_int →
  len (standardKey b) * 100 ≤ Int64.max_int →
  0 ≤ t ≤ t' → t' ≤ 100 →
  isFuzzyMatch a b t = Some true →
  isFuzzyMatch a b t' = Some true.
Proof.
  intros Hla Hlb Ht Ht'. rewrite !isFuzzyMatch_unfold by (done || lia).
  intros [= Hd%bool_decide_eq_true]. f_equal. apply bool_decide_eq_true.
  destruct Hd as [?|(? & ? & Hd)]; [by left|]. right. repeat split; try done.
  unfold len in *. nia.
Qed.

Lemma isFuzzyMatch_monotone_witness :
  isFuzzyMatch (H := AsciiStrings.strings) "Jon Smith" "John Smith" 40
  = Some true.
Proof.
  apply (isFuzzyMatch_monotone (H := AsciiStrings.strings) _ _ 20 40);
    by vm_compute.
Defined.

(** ** The records and groups of a response *)

(** A property of the records of every column pair is a property of the
    records of every group. *)
Lemma matchColumns_records `{Strings} req sheet1Data sheet2Data
    (Q : MatchResult → Prop) st :
  (∀ c1 c2 mp matches mp',
     matchColumnPair req sheet1Data sheet2Data c1 c2 mp = Some (matches, mp') →
     Forall Q matches) →
  matchColumns req sheet1Data sheet2Data = Some st →
  Forall (λ g, Forall Q (Matches g)) st.1.
Proof.
  intros HQ Hrun. unfold matchColumns in Hrun.
  eapply (forM_preserves (λ st, Forall (λ g, Forall Q (Matches g)) st.1));
    [exact Hrun | constructor |].
  intros c1 s s' _ Hinner Hs.
  eapply (forM_preserves (λ st, Forall (λ g, Forall Q (Matches g)) st.1));
    [exact Hinner | done |].
  intros c2 [all mp] t' _ Hb Ht. unfold columnPair in Hb.
  destruct (matchColumnPair req sheet1Data sheet2Data c1 c2 mp)
    as [[matches mp']|] eqn:Hpair; [|done]. simpl in Hb.
  case_decide; [|by simplify_eq].
  destruct (Headers sheet1Data !! c1); [|done].
  destruct (Headers sheet2Data !! c2); [|done]. simplify_eq/=.
  apply Forall_app. split; [done|]. apply Forall_singleton. simpl.
  by eapply HQ.
Qed.

Lemma matchHandler_records `{Strings} dataStore req sheet1Data sheet2Data
    (Q : MatchResult → Prop) groups :
  dataStore !! Sheet1 req = Some sheet1Data →
  dataStore !! Sheet2 req = Some sheet2Data →
  (∀ c1 c2 mp matches mp',
     matchColumnPair req sheet1Data sheet2Data c1 c2 mp = Some (matches, mp') →
     Forall Q matches) →
  matchHandler dataStore req = Some (OK groups) →
  ∀ g m, g ∈ groups → m ∈ Matches g → Q m.
Proof.
  unfold matchHandler. intros -> -> HQ Hrun g m Hg Hm.
  destruct (matchColumns req sheet1Data sheet2Data) as [[all mp]|] eqn:Hcols;
    [|done]. simplify_eq/=.
  pose proof (matchColumns_records _ _ _ Q _ HQ Hcols) as Hall.
  simpl in Hall. rewrite Forall_forall in Hall.
  specialize (Hall g Hg). rewrite Forall_forall in Hall. by apply Hall.
Qed.

(** A value the predicate accepts is blank exactly when the other is. *)
Lemma isFuzzyMatch_blank `{Strings} val1 val2 threshold :
  isFuzzyMatch val1 val2 threshold = Some true →
  standardKey val1 = "" ↔ standardKey val2 = "".
Proof.
  unfold isFuzzyMatch. case_decide as Heq; [by rewrite Heq|].
  case_decide as Hblank; [done|]. intros _. tauto.
Qed.

(** X8: a group of the response is never empty; it carries the two sheet
    names of the request and headers of the two sheets. *)
Theorem response_groups `{Strings} dataStore req sheet1Data sheet2Data groups :
  dataStore !! Sheet1 req = Some sheet1Data →
  dataStore !! Sheet2 req = Some sheet2Data →
  matchHandler dataStore req = Some (OK groups) →
  ∀ g, g ∈ groups →
    Matches g ≠ [] ∧ Tab1 g = Sheet1 req ∧ Tab2 g = Sheet2 req ∧
    Header1 g ∈ Headers sheet1Data ∧ Header2 g ∈ Headers sheet2Data.
Proof.
  intros Hs1 Hs2 Hrun g Hg.
  destruct (matchHandler_inv _ _ _ _ _ Hs1 Hs2 Hrun) as (mp & _ & _ & Hgs).
  simpl in Hgs. rewrite Forall_forall in Hgs.
  destruct (Hgs g Hg) as (c1 & c2 & Hh1 & Hh2 & Ht1 & Ht2 & Hne & _).
  repeat split; try done; by eapply list_elem_of_lookup_2.
Qed.

Lemma response_groups_witness :
  Matches (Examples.group "Name" "Name"
             [Examples.record 2 2 "Alice" "alice" false;
              Examples.record 2 3 "Alice" "alice" false]) ≠ [] ∧
  "A" = "A" ∧ "B" = "B" ∧
  "Name" ∈ Headers Examples.aliceA ∧ "Name" ∈ Headers Examples.aliceB.
Proof.
  apply (response_groups (H := AsciiStrings.strings)
           (Examples.store Examples.aliceA Examples.aliceB)
           (Examples.request false 0) Examples.aliceA Examples.aliceB
           [Examples.group "Name" "Name"
              [Examples.record 2 2 "Alice" "alice" false;
               Examples.record 2 3 "Alice" "alice" false]]
           (eq_refl _) (eq_refl _) (eq_refl _)).
  apply list_elem_of_here.
Defined.

(** X9: a fuzzy record is produced only when the request enables fuzzy
    matching, and its two values pass the fuzzy predicate at the threshold
    of the request. *)
Theorem fuzzy_records_sound `{Strings} dataStore req groups :
  matchHandler dataStore req = Some (OK groups) →
  ∀ g m, g ∈ groups → m ∈ Matches g → IsFuzzy m = true →
    UseFuzzy req = true ∧
    isFuzzyMatch (Val1 m) (Val2 m) (FuzzyThreshold req) = Some true.
Proof.
  intros Hrun.
  destruct (matchHandler_found _ _ _ Hrun) as (s1 & s2 & Hs1 & Hs2).
  apply (matchHandler_records dataStore req s1 s2
           (λ m, IsFuzzy m = true →
                 UseFuzzy req = true ∧
                 isFuzzyMatch (Val1 m) (Val2 m) (FuzzyThreshold req)
                 = Some true)); try done.
  intros c1 c2 mp matches mp' Hpair.
  destruct (matchColumnPair_recorded _ _ _ _ _ _ _ _ Hpair) as (Hrec & _).
  apply Forall_forall. intros m Hm Hfz. rewrite Forall_forall in Hrec.
  split.
  - destruct (UseFuzzy req) eqn:Huse; [done|].
    pose proof (matchColumnPair_exact_only _ _ _ _ _ _ _ _ Huse Hpair) as Hex.
    rewrite Forall_forall in Hex. rewrite (Hex m Hm) in Hfz. done.
  - destruct (Hrec m Hm); [done|]. done.
Qed.

Lemma fuzzy_records_sound_witness :
  UseFuzzy (Examples.request true 20) = true ∧
  isFuzzyMatch (H := AsciiStrings.strings) "Jon Smith" "John Smith" 20
  = Some true.
Proof.
  apply (fuzzy_records_sound (H := AsciiStrings.strings)
           (Examples.store {| Headers := ["Name"]; Rows := [["Jon Smith"]] |}
              {| Headers := ["Full Name"]; Rows := [["John Smith"]] |})
           (Examples.request true 20)
           [Examples.group "Name" "Full Name"
              [Examples.record 2 2 "Jon Smith" "John Smith" true]]
           (eq_refl _)
           (Examples.group "Name" "Full Name"
              [Examples.record 2 2 "Jon Smith" "John Smith" true])
           (Examples.record 2 2 "Jon Smith" "John Smith" true)).
  - apply list_elem_of_here.
  - apply list_elem_of_here.
  - reflexivity.
Defined.

(** X10: an exact record joins two cells whose normalized keys are equal
    and not empty; with fuzzy matching off every record is exact. *)
Theorem exact_records_sound `{Strings} dataStore req sheet1Data sheet2Data
    groups :
  dataStore !! Sheet1 req = Some sheet1Data →
  dataStore !! Sheet2 req = Some sheet2Data →
  rowsFit sheet1Data → rowsFit sheet2Data →
  matchHandler dataStore req = Some (OK groups) →
  ∀ g m, g ∈ groups → m ∈ Matches g →
    (IsFuzzy m = false → exactKeys (Val1 m) (Val2 m)) ∧
    (UseFuzzy req = false → IsFuzzy m = false).
Proof.
  intros Hs1 Hs2 Hfit1 Hfit2 Hrun.
  apply (matchHandler_records dataStore req sheet1Data sheet2Data
           (λ m, (IsFuzzy m = false → exactKeys (Val1 m) (Val2 m)) ∧
                 (UseFuzzy req = false → IsFuzzy m = false))); try done.
  intros c1 c2 mp matches mp' Hpair.
  destruct (matchColumnPair_recorded _ _ _ _ _ _ _ _ Hpair) as (Hrec & _).
  apply Forall_forall. intros m Hm. rewrite Forall_forall in Hrec. split.
  - destruct (recorded_cells _ _ _ _ _ _ Hfit1 Hfit2 (Hrec m Hm))
      as (i & j & row1 & row2 & _ & _ & _ & _ & _ & _ & Hfz). apply Hfz.
  - intros Huse.
    pose proof (matchColumnPair_exact_only _ _ _ _ _ _ _ _ Huse Hpair) as Hex.
    rewrite Forall_forall in Hex. by apply Hex.
Qed.

Lemma exact_records_sound_witness :
  (false = false →
   exactKeys (H := AsciiStrings.strings) "Alice" "alice") ∧
  (UseFuzzy (Examples.request false 0) = false → false = false).
Proof.
  apply (exact_records_sound (H := AsciiStrings.strings)
           (Examples.store Examples.aliceA Examples.aliceB)
           (Examples.request false 0) Examples.aliceA Examples.aliceB
           [Examples.group "Name" "Name"
              [Examples.record 2 2 "Alice" "alice" false;
               Examples.record 2 3 "Alice" "alice" false]]
           (eq_refl _) (eq_refl _) (eq_refl _) (eq_refl _) (eq_refl _)
           (Examples.group "Name" "Name"
              [Examples.record 2 2 "Alice" "alice" false;
               Examples.record 2 3 "Alice" "alice" false])
           (Examples.record 2 3 "Alice" "alice" false)).
  - apply list_elem_of_here.
  - apply list_elem_of_further, list_elem_of_here.
Defined.

(** X11: no record joins a blank cell and a populated one: the normalized
    key of one value is empty exactly when that of the other is. *)
Theorem records_never_half_blank `{Strings} dataStore req sheet1Data sheet2Data
    groups :
  dataStore !! Sheet1 req = Some sheet1Data →
  dataStore !! Sheet2 req = Some sheet2Data →
  rowsFit sheet1Data → rowsFit sheet2Data →
  matchHandler dataStore req = Some (OK groups) →
  ∀ g m, g ∈ groups → m ∈ Matches g →
    standardKey (Val1 m) = "" ↔ standardKey (Val2 m) = "".
Proof.
  intros Hs1 Hs2 Hfit1 Hfit2 Hrun.
  apply (matchHandler_records dataStore req sheet1Data sheet2Data
           (λ m, standardKey (Val1 m) = "" ↔ standardKey (Val2 m) = ""));
    try done.
  intros c1 c2 mp matches mp' Hpair.
  destruct (matchColumnPair_recorded _ _ _ _ _ _ _ _ Hpair) as (Hrec & _).
  apply Forall_forall. intros m Hm. rewrite Forall_forall in Hrec.
  pose proof (Hrec m Hm) as Hm'.
  destruct (recorded_cells _ _ _ _ _ _ Hfit1 Hfit2 Hm')
    as (i & j & row1 & row2 & _ & _ & _ & _ & _ & _ & Hfz).
  destruct (IsFuzzy m) eqn:Hm''.
  - destruct Hm'; [done|]. simpl. by eapply isFuzzyMatch_blank.
  - destruct Hfz as [Hfz _]. destruct (Hfz eq_refl) as [Hk Hne].
    rewrite <- Hk. tauto.
Qed.

Lemma records_never_half_blank_witness :
  standardKey (H := AsciiStrings.strings) "  " = ""
  ↔ standardKey (H := AsciiStrings.strings) " " = "".
Proof.
  apply (records_never_half_blank (H := AsciiStrings.strings)
           (Examples.store Examples.blankA Examples.blankB)
           (Examples.request true 0) Examples.blankA Examples.blankB
           [Examples.group "a" "c"
              [Examples.record 2 2 "  " "" true;
               Examples.record 2 3 "  " " " true]]
           (eq_refl _) (eq_refl _) (eq_refl _) (eq_refl _) (eq_refl _)
           (Examples.group "a" "c"
              [Examples.record 2 2 "  " "" true;
               Examples.record 2 3 "  " " " true])
           (Examples.record 2 3 "  " " " true)).
  - apply list_elem_of_here.
  - apply list_elem_of_further, list_elem_of_here.
Defined.

(** ** Nothing that matches is lost *)

(** X12: nothing that matches is lost: when two cells of compared columns
    match, exactly or (fuzzy matching on) by the fuzzy predicate, the
    response holds a record for their pair of rows. *)
Theorem matching_rows_reported `{Strings} dataStore req sheet1Data sheet2Data
    groups c1 c2 i j :
  dataStore !! Sheet1 req = Some sheet1Data →
  dataStore !! Sheet2 req = Some sheet2Data →
  rowsFit sheet1Data → rowsFit sheet2Data →
  matchHandler dataStore req = Some (OK groups) →
  (c1 < length (Headers sheet1Data))%nat →
  (c2 < length (Headers sheet2Data))%nat →
  matchingCells req sheet1Data sheet2Data c1 c2 i j →
  ∃ m, m ∈ allRecords groups ∧ rowPair m = (Z.of_nat i + 2, Z.of_nat j + 2).
Proof.
  intros Hs1 Hs2 Hfit1 Hfit2 Hrun Hc1 Hc2 Hcells.
  unfold matchHandler in Hrun. rewrite Hs1, Hs2 in Hrun.
  destruct (matchColumns req sheet1Data sheet2Data) as [[all mp]|] eqn:Hcols;
    [|done]. simplify_eq/=.
  pose proof (matchColumns_consumes _ _ _ _ _ _ _ _ Hcols Hc1 Hc2 Hcells) as Hk.
  destruct (matchColumns_keys _ _ _ _ _ Hcols Hk) as (m & Hm & Hkey).
  exists m. split; [done|].
  destruct Hcells as (row1 & row2 & _ & _ & Hrow1 & _ & Hrow2 & _).
  apply lookup_lt_Some in Hrow1, Hrow2.
  apply pairKey_inj in Hkey as [Hr1 Hr2]. unfold rowPair.
  by rewrite Hr1, Hr2, (row_number sheet1Data), (row_number sheet2Data).
Qed.

Lemma matching_rows_reported_witness :
  ∃ m, m ∈ allRecords
             [Examples.group "a" "c" [Examples.record 2 2 "x" "x" false]] ∧
       rowPair m = (Z.of_nat 0 + 2, Z.of_nat 0 + 2).
Proof.
  apply (matching_rows_reported (H := AsciiStrings.strings)
           (Examples.store Examples.twoColumnsA Examples.oneColumnB)
           (Examples.request false 0)
           Examples.twoColumnsA Examples.oneColumnB
           [Examples.group "a" "c" [Examples.record 2 2 "x" "x" false]]
           1%nat 0%nat 0%nat 0%nat
           (eq_refl _) (eq_refl _) (eq_refl _) (eq_refl _) (eq_refl _)).
  - simpl. lia.
  - simpl. lia.
  - exists ["x"; "x"], ["x"], "x", "x". repeat split; try done. by left.
Defined.

(** ** The upload handler *)

(** A loop that writes [h x] at the index of every [x] fills the slice
    with the image of the list. *)
Lemma forM_fill_from {A B} (body : nat * A → list B → option (list B))
    (h : A → B) (suf : list A) (n : nat) (d : list B) :
  (∀ i x d, body (i, x) d = slice_set d i (h x)) →
  length d = (n + length suf)%nat →
  forM (imap (λ i x, ((n + i)%nat, x)) suf) body d
  = Some (take n d ++ (h <$> suf)).
Proof.
  intros Hb. revert n d. induction suf as [|x suf IH]; intros n d Hlen.
  - simpl in *. by rewrite app_nil_r, take_ge by lia.
  - simpl in *. rewrite Hb, Nat.add_0_r, slice_set_lt by lia. simpl.
    erewrite imap_ext; [rewrite (IH (S n))|].
    + f_equal.
      rewrite (take_S_r _ n (h x)) by (apply list_lookup_insert_eq; lia).
      by rewrite take_insert_ge, <- (assoc_L (++)) by lia.
    + rewrite length_insert. lia.
    + intros i y _. simpl. f_equal. lia.
Qed.

Lemma forM_fill {A B} (body : nat * A → list B → option (list B))
    (h : A → B) (xs : list A) (z : B) :
  (∀ i x d, body (i, x) d = slice_set d i (h x)) →
  forM (indexed xs) body (replicate (length xs) z) = Some (h <$> xs).
Proof.
  intros Hb. unfold indexed.
  by rewrite (forM_fill_from body h xs 0%nat), take_0
    by (done || by rewrite length_replicate).
Qed.

Lemma copyRow_id row : copyRow row = Some row.
Proof.
  unfold copyRow. rewrite (forM_fill _ id); [by rewrite list_fmap_id|].
  done.
Qed.

Lemma storeSheet_spec sheetName result names dataStore :
  storeSheet (sheetName, result) (names, dataStore)
  = Some (names ++ [sheetName],
          match sheetOf result with
          | Some data => <[sheetName := data]> dataStore
          | None => dataStore
          end).
Proof.
  unfold storeSheet. destruct result as [[|headers rest]|]; try done.
  rewrite (forM_fill _ id); [by rewrite list_fmap_id|].
  intros i row d. by rewrite copyRow_id.
Qed.

Lemma storeSheets_spec sheets names dataStore :
  forM sheets storeSheet (names, dataStore)
  = Some (names ++ sheets.*1, stored dataStore sheets).
Proof.
  revert names dataStore.
  induction sheets as [|[n r] sheets IH]; intros names dataStore.
  - simpl. by rewrite app_nil_r.
  - cbn [forM]. rewrite storeSheet_spec. cbn [mbind option_bind].
    rewrite IH. by rewrite <- (assoc_L (++)).
Qed.

Lemma stored_notin dataStore sheets name :
  name ∉ sheets.*1 → stored dataStore sheets !! name = dataStore !! name.
Proof.
  revert dataStore. induction sheets as [|[n r] sheets IH];
    intros dataStore Hnot; [done|].
  simpl in *. apply not_elem_of_cons in Hnot as [Hne Hnot].
  unfold stored in *. simpl. rewrite IH by done.
  destruct (sheetOf r); [by rewrite lookup_insert_ne|done].
Qed.

(** With distinct sheet names the store holds, for each name of the
    workbook, the sheet built from its rows. *)
Lemma stored_lookup dataStore sheets name result :
  NoDup sheets.*1 →
  (name, result) ∈ sheets →
  stored dataStore sheets !! name
  = match sheetOf result with
    | Some data => Some data
    | None => dataStore !! name
    end.
Proof.
  revert dataStore. induction sheets as [|[n r] sheets IH];
    intros dataStore Hnd Hin; [by apply elem_of_nil in Hin|].
  simpl in Hnd. apply NoDup_cons in Hnd as [Hn Hnd].
  apply elem_of_cons in Hin as [[= -> ->]|Hin].
  - unfold stored. simpl. fold (stored (match sheetOf r with
      | Some data => <[n:=data]> dataStore | None => dataStore end) sheets).
    rewrite stored_notin by done.
    destruct (sheetOf r); [by rewrite lookup_insert_eq|done].
  - unfold stored in *. simpl. rewrite (IH _ Hnd Hin).
    destruct (sheetOf result); [done|].
    assert (name ≠ n) as Hne.
    { intros ->. apply Hn. apply list_elem_of_fmap. by exists (n, result). }
    destruct (sheetOf r); [by rewrite lookup_insert_ne|done].
Qed.


Lemma stringLe_total : Total stringLe.
Proof. intros a b. apply String.leb_total. Qed.

Lemma stringLe_antisym : AntiSymm (=) stringLe.
Proof. intros a b. apply String.leb_antisym. Qed.

Lemma stringLe_trans : Transitive stringLe.
Proof.
  unfold stringLe, String.leb. intros a.
  induction a as [|x a IH]; intros [|y b] [|z c]; simpl; try done.
  unfold Ascii.compare.
  destruct (N.compare_spec (N_of_ascii x) (N_of_ascii y)) as [E1|L1|G1];
    destruct (N.compare_spec (N_of_ascii y) (N_of_ascii z)) as [E2|L2|G2];
    destruct (N.compare_spec (N_of_ascii x) (N_of_ascii z)) as [E3|L3|G3];
    try done; try lia.
  apply IH.
Qed.

Lemma sortStrings_sorted names : Sorted stringLe (sortStrings names).
Proof. apply (@Sorted_merge_sort _ stringLe stringLe_dec stringLe_total). Qed.

Lemma sortStrings_perm names : sortStrings names ≡ₚ names.
Proof. apply merge_sort_Permutation. Qed.

(** The sorted names depend on the names only, not on their order. *)
Lemma sortStrings_proper names names' :
  names ≡ₚ names' → sortStrings names = sortStrings names'.
Proof.
  intros Hperm.
  apply (@Sorted_unique _ stringLe stringLe_trans stringLe_antisym);
    [apply sortStrings_sorted..|].
  by rewrite !sortStrings_perm.
Qed.

Lemma stored_proper sheets sheets' :
  NoDup sheets.*1 → sheets ≡ₚ sheets' → stored ∅ sheets = stored ∅ sheets'.
Proof.
  intros Hnd Hperm.
  assert (NoDup sheets'.*1) as Hnd' by (by rewrite <- Hperm).
  apply map_eq. intros name.
  destruct (decide (name ∈ sheets.*1)) as [Hin|Hnot].
  - apply list_elem_of_fmap in Hin as ([n r] & -> & Hin). simpl.
    rewrite (stored_lookup _ _ _ r Hnd Hin).
    rewrite Hperm in Hin. by rewrite (stored_lookup _ _ _ r Hnd' Hin).
  - rewrite stored_notin by done. rewrite Hperm in Hnot.
    by rewrite stored_notin by done.
Qed.

(** X13: an upload never fails on an index: every request gets a response,
    and a workbook is answered with the list of all its sheet names. *)
Theorem uploadHandler_never_panics method file dataStore :
  ∃ response dataStore',
    uploadHandler method file dataStore = Some (response, dataStore') ∧
    ∀ sheets, method = "POST" → file = Workbook sheets →
      ∃ sheetNames, response = Uploaded sheetNames ∧ sheetNames ≡ₚ sheets.*1.
Proof.
  unfold uploadHandler. case_decide as Hm.
  { eexists _, _. split; [done|]. intros sheets ->. done. }
  destruct file as [| | |sheets]; try (eexists _, _; split; [done|]; done).
  rewrite storeSheets_spec. simpl. eexists _, _. split; [done|].
  intros ? _ [= <-]. eexists. split; [done|]. apply sortStrings_perm.
Qed.

(** X14: the round trip of an upload.  From a workbook whose sheet names
    are distinct, every sheet with at least one row is stored under its
    name, its first row as the headers and the rows after it, unchanged,
    as the data rows. *)
Theorem upload_stores_sheets sheets dataStore name headers rest :
  NoDup sheets.*1 →
  (name, Some (headers :: rest)) ∈ sheets →
  ∃ sheetNames dataStore',
    uploadHandler "POST" (Workbook sheets) dataStore
      = Some (Uploaded sheetNames, dataStore') ∧
    dataStore' !! name = Some {| Headers := headers; Rows := rest |}.
Proof.
  intros Hnd Hin. unfold uploadHandler. rewrite decide_False by (by intros []).
  rewrite storeSheets_spec. simpl. eexists _, _. split; [done|].
  by rewrite (stored_lookup _ _ _ _ Hnd Hin).
Qed.

Lemma upload_stores_sheets_witness :
  ∃ sheetNames dataStore',
    uploadHandler "POST"
      (Workbook [("B", Some [["h1"; "h2"]; ["a"; "b"]; ["c"]]); ("A", None)])
      ∅
      = Some (Uploaded sheetNames, dataStore') ∧
    dataStore' !! "B"
      = Some {| Headers := ["h1"; "h2"]; Rows := [["a"; "b"]; ["c"]] |}.
Proof.
  apply upload_stores_sheets.
  - apply NoDup_cons.
    split; [by intros [=]%list_elem_of_singleton | apply NoDup_singleton].
  - apply list_elem_of_here.
Defined.





(** X17: the sheet names of the response are all the names of the
    workbook, in increasing order. *)
Theorem upload_names_sorted sheets dataStore sheetNames dataStore' :
  uploadHandler "POST" (Workbook sheets) dataStore
    = Some (Uploaded sheetNames, dataStore') →
  Sorted stringLe sheetNames ∧ sheetNames ≡ₚ sheets.*1.
Proof.
  unfold uploadHandler. rewrite decide_False by (by intros []).
  rewrite storeSheets_spec. simpl. intros [= <- <-].
  split; [apply sortStrings_sorted | apply sortStrings_perm].
Qed.

Lemma upload_names_sorted_witness :
  Sorted stringLe ["A"; "B"] ∧
  ["A"; "B"]
  ≡ₚ [("B", Some [["h1"; "h2"]; ["a"; "b"]; ["c"]]); ("A", None)].*1.
Proof.
  apply (upload_names_sorted _ ∅ _
           (<["B" := {| Headers := ["h1"; "h2"];
                        Rows := [["a"; "b"]; ["c"]] |}]> ∅)).
  reflexivity.
Defined.

(** X18: the outcome of an upload does not depend on the order in which
    the sheets of the workbook are visited (Go ranges over the map of
    sheets in no fixed order), nor on the store before it, when the sheet
    names are distinct. *)
Theorem upload_order_independent sheets sheets' dataStore dataStore' :
  NoDup sheets.*1 →
  sheets ≡ₚ sheets' →
  uploadHandler "POST" (Workbook sheets) dataStore
  = uploadHandler "POST" (Workbook sheets') dataStore'.
Proof.
  intros Hnd Hperm. unfold uploadHandler.
  rewrite decide_False by (by intros []).
  rewrite !storeSheets_spec. simpl.
  rewrite (stored_proper _ _ Hnd Hperm).
  by rewrite (sortStrings_proper sheets.*1 sheets'.*1) by (by rewrite Hperm).
Qed.

Lemma upload_order_independent_witness :
  uploadHandler "POST"
    (Workbook [("B", Some [["h"]; ["a"]]); ("A", Some [["k"]])]) ∅
  = uploadHandler "POST"
    (Workbook [("A", Some [["k"]]); ("B", Some [["h"]; ["a"]])])
    (Examples.store Examples.aliceA Examples.aliceB).
Proof.
  apply upload_order_independent.
  - apply NoDup_cons.
    split; [by intros [=]%list_elem_of_singleton | apply NoDup_singleton].
  - apply Permutation_swap.
Defined.

(** ** The data handler *)

Lemma Split_nonempty s sep : Split s sep ≠ [].
Proof.
  destruct s as [|c s]; simpl; [done|].
  case_decide; [done|]. by destruct (Split s sep).
Qed.

Lemma Split_sep a b sep :
  sep ∉ bytes a → Split (a +:+ String sep b) sep = a :: Split b sep.
Proof.
  induction a as [|c a IH]; simpl; intros Hnot.
  - by rewrite decide_True.
  - apply not_elem_of_cons in Hnot as [Hne Hnot].
    rewrite decide_False by done. by rewrite IH.
Qed.

Lemma Split_no_sep a sep : sep ∉ bytes a → Split a sep = [a].
Proof.
  induction a as [|c a IH]; simpl; intros Hnot; [done|].
  apply not_elem_of_cons in Hnot as [Hne Hnot].
  rewrite decide_False by done. by rewrite IH.
Qed.

(** The number of parts is the number of separators plus one. *)
Lemma length_Split s sep :
  length (Split s sep) = S (length (filter (λ c, c = sep) (bytes s))).
Proof.
  induction s as [|c s IH]; simpl; [done|].
  case_decide as Hc.
  - rewrite filter_cons_True by done. simpl. by rewrite IH.
  - rewrite filter_cons_False by done.
    pose proof (Split_nonempty s sep).
    destruct (Split s sep) as [|p ps]; [done|]. by rewrite <- IH.
Qed.

(** A literal has no slash. *)
Ltac no_slash :=
  let Hin := fresh "Hin" in
  cbv [bytes list_ascii_of_string]; intros Hin;
  repeat (apply elem_of_cons in Hin as [Hin|Hin]; [discriminate Hin|]);
  by apply elem_of_nil in Hin.

Lemma append_nil_r s : s +:+ "" = s.
Proof.
  induction s as [|c s IH]; [done|].
  change (String c (s +:+ "") = String c s). by rewrite IH.
Qed.

(** The sheet a well-formed path names. *)
Lemma dataHandler_path dataStore name suffix :
  "/"%char ∉ bytes name →
  suffix = "" ∨ (∃ rest, suffix = String "/" rest) →
  dataHandler dataStore ("/api/data/" +:+ name +:+ suffix)
  = Some (match dataStore !! name with
          | Some data => Data (Headers data) (Rows data)
          | None => DataError 404 "Sheet not found."
          end).
Proof.
  intros Hname Hsuffix. unfold dataHandler.
  assert (∃ parts, Split ("/api/data/" +:+ name +:+ suffix) "/"
                   = "" :: "api" :: "data" :: name :: parts) as [parts ->].
  { change ("/api/data/" +:+ name +:+ suffix)
      with ("" +:+ String "/" ("api" +:+ String "/" ("data" +:+
              String "/" (name +:+ suffix)))).
    rewrite (Split_sep ""), (Split_sep "api"), (Split_sep "data")
      by no_slash.
    destruct Hsuffix as [->|[rest ->]].
    - exists []. do 3 f_equal.
      rewrite append_nil_r. by apply Split_no_sep.
    - eexists. do 3 f_equal. by apply Split_sep. }
  rewrite decide_False by (cbn [length]; lia). simpl.
  by destruct (dataStore !! name).
Qed.

(** X19: the data handler never panics, and it answers "Sheet name not
    specified" (400) exactly when the path has fewer than three slashes. *)
Theorem dataHandler_bad_request dataStore path :
  (∃ response, dataHandler dataStore path = Some response) ∧
  (dataHandler dataStore path
     = Some (DataError 400 "Sheet name not specified.")
   ↔ (length (filter (λ c, c = "/"%char) (bytes path)) < 3)%nat).
Proof.
  unfold dataHandler. pose proof (length_Split path "/") as Hlen.
  case_decide as Hshort.
  - split; [by eexists|]. split; [lia | done].
  - destruct (lookup_lt_is_Some_2 (Split path "/") 3) as [sheetName ->];
      [lia|]. simpl.
    destruct (dataStore !! sheetName); (split; [by eexists|]);
      (split; [done | lia]).
Qed.

(** X20: the path [/api/data/<name>], with or without further segments,
    is answered with the headers and rows stored under [<name>], or with
    "Sheet not found" (404) when the store has no such sheet. *)
Theorem dataHandler_serves_sheet dataStore name suffix :
  "/"%char ∉ bytes name →
  suffix = "" ∨ (∃ rest, suffix = String "/" rest) →
  dataHandler dataStore ("/api/data/" +:+ name +:+ suffix)
  = Some (match dataStore !! name with
          | Some data => Data (Headers data) (Rows data)
          | None => DataError 404 "Sheet not found."
          end).
Proof. apply dataHandler_path. Qed.

Lemma dataHandler_serves_sheet_witness :
  dataHandler (Examples.store Examples.aliceA Examples.aliceB)
    ("/api/data/" +:+ "B" +:+ "/x")
  = Some (match Examples.store Examples.aliceA Examples.aliceB !! "B" with
          | Some data => Data (Headers data) (Rows data)
          | None => DataError 404 "Sheet not found."
          end).
Proof.
  apply dataHandler_serves_sheet.
  - no_slash.
  - right. by exists "x".
Defined.

(** X21: upload, then download.  After the upload of a workbook with
    distinct sheet names, the data handler returns, for a sheet with at
    least one row whose name has no slash, the first row as headers and
    the other rows as data. *)
Theorem upload_then_data sheets dataStore name headers rest :
  NoDup sheets.*1 →
  (name, Some (headers :: rest)) ∈ sheets →
  "/"%char ∉ bytes name →
  ∃ sheetNames dataStore',
    uploadHandler "POST" (Workbook sheets) dataStore
      = Some (Uploaded sheetNames, dataStore') ∧
    dataHandler dataStore' ("/api/data/" +:+ name) = Some (Data headers rest).
Proof.
  intros Hnd Hin Hname. unfold uploadHandler.
  rewrite decide_False by (by intros []).
  rewrite storeSheets_spec. simpl. eexists _, _. split; [done|].
  pose proof (dataHandler_path (stored ∅ sheets) name "" Hname) as Hdata.
  rewrite append_nil_r in Hdata. rewrite Hdata by (by left).
  by rewrite (stored_lookup _ _ _ _ Hnd Hin).
Qed.

Lemma upload_then_data_witness :
  ∃ sheetNames dataStore',
    uploadHandler "POST"
      (Workbook [("B", Some [["h1"; "h2"]; ["a"; "b"]; ["c"]]); ("A", None)])
      ∅
      = Some (Uploaded sheetNames, dataStore') ∧
    dataHandler dataStore' ("/api/data/" +:+ "B")
    = Some (Data ["h1"; "h2"] [["a"; "b"]; ["c"]]).
Proof.
  apply upload_then_data.
  - apply NoDup_cons.
    split; [by intros [=]%list_elem_of_singleton | apply NoDup_singleton].
  - apply list_elem_of_here.
  - no_slash.
Defined.

(** ** The order of the records of a group *)

(** A loop over [xs] that appends at most one record per element, for
    the row [tag x] of the second sheet, appends records in the order of
    the tags. *)
Lemma forM_emit_sorted {A} (tag : A → Z) (Q : MatchResult → Prop)
    (xs : list A)
    (body : A → list MatchResult * gset string
              → option (list MatchResult * gset string)) :
  (∀ x s s', x ∈ xs → body x s = Some s' →
     s'.1 = s.1 ∨ ∃ m, s'.1 = s.1 ++ [m] ∧ Q m ∧ OriginalRow2 m = tag x) →
  StronglySorted Z.lt (tag <$> xs) →
  ∀ st st', forM xs body st = Some st' →
    ∃ new, st'.1 = st.1 ++ new ∧ Forall Q new ∧
           StronglySorted (λ m m', OriginalRow2 m < OriginalRow2 m') new ∧
           Forall (λ m, OriginalRow2 m ∈ tag <$> xs) new.
Proof.
  induction xs as [|x xs IH]; intros Hstep Hsorted st st' Hrun.
  { simpl in Hrun. simplify_eq. exists []. rewrite app_nil_r.
    repeat split; constructor. }
  simpl in Hrun, Hsorted.
  destruct (body x st) as [s1|] eqn:Hb; [|done]. simpl in Hrun.
  apply StronglySorted_cons in Hsorted as [Hlt Hsorted].
  destruct (IH (λ y s s' Hy, Hstep y s s' (list_elem_of_further _ _ _ Hy))
              Hsorted s1 st' Hrun) as (new & Hl & HQ & Hs & Htags).
  assert (Forall (λ m, OriginalRow2 m ∈ tag <$> x :: xs) new) as Htags'.
  { eapply Forall_impl; [exact Htags|]. intros m Hm. simpl.
    by apply list_elem_of_further. }
  destruct (Hstep x st s1 (list_elem_of_here _ _) Hb)
    as [Hsame|(m & Hm & HQm & Htag)].
  - exists new. rewrite Hl, Hsame. done.
  - exists (m :: new). rewrite Hl, Hm, <- (assoc_L (++)). simpl.
    split; [done|]. split; [by constructor|]. split.
    + apply StronglySorted_cons. split; [|done].
      rewrite Forall_forall in Htags. apply Forall_forall. intros m' Hm'.
      rewrite Forall_forall in Hlt. rewrite Htag. apply Hlt. by apply Htags.
    + constructor; [|done]. rewrite Htag. simpl. apply list_elem_of_here.
Qed.

(** A loop over the elements of a list with their indices, with an
    invariant indexed by the number of elements done. *)
Lemma forM_indexed_inv {A S} (I : nat → S → Prop) (xs : list A)
    (body : nat * A → S → option S) st st' :
  I 0%nat st →
  (∀ k x s s', xs !! k = Some x → I k s → body (k, x) s = Some s' →
               I (Datatypes.S k) s') →
  forM (indexed xs) body st = Some st' →
  I (length xs) st'.
Proof.
  intros H0 Hstep. revert st'.
  induction xs as [|x xs IH] using rev_ind; intros st' Hrun.
  { simpl in Hrun. by simplify_eq. }
  unfold indexed in Hrun. rewrite imap_app, forM_app in Hrun. simpl in Hrun.
  destruct (forM (imap (λ i y, (i, y)) xs) body st) as [s|] eqn:Hpre; [|done].
  simpl in Hrun. rewrite Nat.add_0_r in Hrun.
  destruct (body (length xs, x) s) as [s'|] eqn:Hb; [|done].
  simpl in Hrun. simplify_eq.
  rewrite length_app. simpl. rewrite Nat.add_1_r.
  apply (Hstep (length xs) x s).
  - by rewrite lookup_app_r, Nat.sub_diag by lia.
  - apply IH; [|done]. intros k y t t' Hk. apply Hstep.
    by apply lookup_app_l_Some.
  - done.
Qed.

Lemma foldl_indexed_inv {A S} (I : nat → S → Prop) (xs : list A)
    (f : S → nat * A → S) st :
  I 0%nat st →
  (∀ k x s, xs !! k = Some x → I k s → I (Datatypes.S k) (f s (k, x))) →
  I (length xs) (foldl f st (indexed xs)).
Proof.
  intros H0 Hstep. induction xs as [|x xs IH] using rev_ind; [done|].
  unfold indexed. rewrite imap_app, foldl_app. simpl.
  rewrite Nat.add_0_r, length_app. simpl. rewrite Nat.add_1_r.
  apply Hstep.
  - by rewrite lookup_app_r, Nat.sub_diag by lia.
  - apply IH. intros k y t Hk. apply Hstep. by apply lookup_app_l_Some.
Qed.

(** The row numbers of the second sheet, in the order of its rows. *)
Lemma row_numbers_sorted sheet :
  rowsFit sheet →
  StronglySorted Z.lt
    ((λ x : nat * list string, Int64.add (Z.of_nat x.1) 2)
       <$> indexed (Rows sheet)).
Proof.
  intros Hfit.
  assert (∀ rows : list (list string),
    (length rows ≤ length (Rows sheet))%nat →
    StronglySorted Z.lt
      ((λ x : nat * list string, Int64.add (Z.of_nat x.1) 2) <$> indexed rows) ∧
    Forall (λ n, n < Z.of_nat (length rows) + 2)
      ((λ x : nat * list string, Int64.add (Z.of_nat x.1) 2) <$> indexed rows))
    as Hgen; [|by apply Hgen].
  induction rows as [|row rows IH] using rev_ind; intros Hlen.
  { split; constructor. }
  rewrite length_app in Hlen. simpl in Hlen.
  destruct IH as [Hs Hb]; [lia|].
  unfold indexed in *. rewrite imap_app, fmap_app. simpl.
  rewrite Nat.add_0_r, (row_number sheet) by (done || lia).
  split.
  - apply StronglySorted_app_2; [|done|repeat constructor].
    intros n1 n2 Hn1 ->%list_elem_of_singleton.
    rewrite Forall_forall in Hb. by apply Hb.
  - rewrite length_app. simpl. apply Forall_app. split.
    + eapply Forall_impl; [exact Hb|]. intros n Hn. simpl in Hn. lia.
    + repeat constructor. lia.
Qed.

(** The row numbers listed under a key are in increasing order. *)
Lemma bucket_sorted `{Strings} sheet2Data c2 key row2Indices :
  rowsFit sheet2Data →
  buildKeyMap sheet2Data c2 !! key = Some row2Indices →
  StronglySorted Z.lt row2Indices.
Proof.
  intros Hfit Hl.
  assert (∀ key idxs, buildKeyMap sheet2Data c2 !! key = Some idxs →
    StronglySorted Z.lt idxs ∧
    Forall (λ n, n < Z.of_nat (length (Rows sheet2Data)) + 2) idxs) as Hgen;
    [|by destruct (Hgen key row2Indices Hl)].
  unfold buildKeyMap.
  apply (foldl_indexed_inv
    (λ k (m : gmap string (list Z)), ∀ key idxs, m !! key = Some idxs →
       StronglySorted Z.lt idxs ∧ Forall (λ n, n < Z.of_nat k + 2) idxs)).
  { intros k idxs Hk. by rewrite lookup_empty in Hk. }
  clear key row2Indices Hl. intros k row m Hrow Hm key idxs.
  apply lookup_lt_Some in Hrow.
  assert (∀ idxs', m !! key = Some idxs' →
    StronglySorted Z.lt idxs' ∧
    Forall (λ n, n < Z.of_nat (S k) + 2) idxs') as Hold.
  { intros idxs' Hl. destruct (Hm key idxs' Hl) as [Hs Hb]. split; [done|].
    eapply Forall_impl; [exact Hb|]. intros n Hn. simpl in Hn. lia. }
  destruct (row !! c2) as [cell|]; [|by apply Hold].
  case_decide; [|by apply Hold].
  destruct (decide (standardKey cell = key)) as [<-|Hne];
    [|rewrite lookup_insert_ne by done; by apply Hold].
  rewrite lookup_insert_eq, (row_number sheet2Data) by done.
  intros [= <-].
  assert (StronglySorted Z.lt (default [] (m !! standardKey cell)) ∧
          Forall (λ n, n < Z.of_nat k + 2)
            (default [] (m !! standardKey cell))) as [Hs Hb].
  { destruct (m !! standardKey cell) as [old|] eqn:Hold'; simpl.
    - by apply (Hm _ _ Hold').
    - split; constructor. }
  split.
  - apply StronglySorted_app_2; [|done|repeat constructor].
    intros n1 n2 Hn1 ->%list_elem_of_singleton.
    rewrite Forall_forall in Hb. by apply Hb.
  - apply Forall_app. split.
    + eapply Forall_impl; [exact Hb|]. intros n Hn. simpl in Hn. lia.
    + repeat constructor. lia.
Qed.

Lemma StronglySorted_refine {A} (R R' : A → A → Prop) (P : A → Prop) l :
  (∀ x y, P x → P y → R x y → R' x y) →
  Forall P l → StronglySorted R l → StronglySorted R' l.
Proof.
  intros HR. induction l as [|x l IH]; intros HP Hs; [constructor|].
  apply Forall_cons in HP as [Hx HP].
  apply StronglySorted_cons in Hs as [Hall Hs].
  apply StronglySorted_cons. split; [|by apply IH].
  rewrite Forall_forall in HP, Hall. apply Forall_forall.
  intros y Hy. apply HR; auto.
Qed.

Section record_order.
Context `{Strings}.
Variables (req : MatchRequest) (sheet1Data sheet2Data : SheetData).
Hypothesis Hfit1 : rowsFit sheet1Data.
Hypothesis Hfit2 : rowsFit sheet2Data.

Lemma exactPass_order c2 row1Idx val1 key1 st st' :
  exactPass sheet2Data c2 (buildKeyMap sheet2Data c2) row1Idx val1 key1 st
    = Some st' →
  ∃ new, st'.1 = st.1 ++ new ∧
         Forall (λ m, OriginalRow1 m = row1Idx ∧ IsFuzzy m = false) new ∧
         StronglySorted (λ m m', OriginalRow2 m < OriginalRow2 m') new.
Proof using Hfit2.
  unfold exactPass.
  destruct (buildKeyMap sheet2Data c2 !! key1) as [idxs|] eqn:Hidxs.
  - intros Hrun.
    destruct (forM_emit_sorted id
                (λ m, OriginalRow1 m = row1Idx ∧ IsFuzzy m = false)
                idxs (exactStep sheet2Data c2 row1Idx val1))
      with (st := st) (st' := st') as (new & Hl & HQ & Hs & _); try done.
    + intros idx [matches mp] s' _ Hb. unfold exactStep in Hb.
      case_decide; [simplify_eq; by left|].
      destruct (at_Z (Rows sheet2Data) (Int64.sub idx 2)) as [row2|]; [|done].
      simpl in Hb. destruct (row2 !! c2) as [val2|]; [|done]. simplify_eq/=.
      right. eexists. by repeat split.
    + rewrite list_fmap_id. by eapply bucket_sorted.
    + by exists new.
  - intros [= <-]. exists []. rewrite app_nil_r. repeat split; constructor.
Qed.

Lemma fuzzyPass_order c2 row1Idx val1 st st' :
  fuzzyPass req sheet2Data c2 row1Idx val1 st = Some st' →
  ∃ new, st'.1 = st.1 ++ new ∧
         Forall (λ m, OriginalRow1 m = row1Idx ∧ IsFuzzy m = true) new ∧
         StronglySorted (λ m m', OriginalRow2 m < OriginalRow2 m') new.
Proof using Hfit2.
  unfold fuzzyPass. destruct (UseFuzzy req).
  - intros Hrun.
    destruct (forM_emit_sorted
                (λ x : nat * list string, Int64.add (Z.of_nat x.1) 2)
                (λ m, OriginalRow1 m = row1Idx ∧ IsFuzzy m = true)
                (indexed (Rows sheet2Data)) (fuzzyStep req c2 row1Idx val1))
      with (st := st) (st' := st') as (new & Hl & HQ & Hs & _); try done.
    + intros [j row2] [matches mp] s' _ Hb. unfold fuzzyStep in Hb.
      case_decide; [simplify_eq; by left|].
      destruct (row2 !! c2) as [val2|]; [|simplify_eq; by left].
      destruct (isFuzzyMatch val1 val2 (FuzzyThreshold req)) as [[]|];
        simplify_eq/=; [|by left].
      right. eexists. by repeat split.
    + by apply row_numbers_sorted.
    + by exists new.
  - intros [= <-]. exists []. rewrite app_nil_r. repeat split; constructor.
Qed.

Lemma rowStep_order c1 c2 i row1 st st' :
  rowStep req sheet2Data c1 c2 (buildKeyMap sheet2Data c2) (i, row1) st
    = Some st' →
  ∃ new, st'.1 = st.1 ++ new ∧
         Forall (λ m, OriginalRow1 m = Int64.add (Z.of_nat i) 2) new ∧
         StronglySorted recordBefore new.
Proof using Hfit2.
  unfold rowStep. destruct (row1 !! c1) as [val1|].
  - destruct (exactPass sheet2Data c2 (buildKeyMap sheet2Data c2)
                (Int64.add (Z.of_nat i) 2) val1 (standardKey val1) st)
      as [s1|] eqn:Hexact; [|done]. simpl. intros Hfuzzy.
    destruct (exactPass_order _ _ _ _ _ _ Hexact) as (newE & HlE & HQE & HsE).
    destruct (fuzzyPass_order _ _ _ _ _ Hfuzzy) as (newF & HlF & HQF & HsF).
    exists (newE ++ newF). rewrite HlF, HlE, (assoc_L (++)).
    split; [done|]. split.
    + apply Forall_app. split; (eapply Forall_impl; [eassumption|]);
        by intros m [? _].
    + rewrite Forall_forall in HQE, HQF. apply StronglySorted_app_2.
      * intros m m' [Hr Hf]%HQE [Hr' Hf']%HQF. right. split; [congruence|].
        by left.
      * eapply StronglySorted_refine; [|apply Forall_forall, HQE|exact HsE].
        intros m m' [Hr Hf] [Hr' Hf'] Hlt. right. split; [congruence|].
        right. split; [congruence|done].
      * eapply StronglySorted_refine; [|apply Forall_forall, HQF|exact HsF].
        intros m m' [Hr Hf] [Hr' Hf'] Hlt. right. split; [congruence|].
        right. split; [congruence|done].
  - intros [= <-]. exists []. rewrite app_nil_r. repeat split; constructor.
Qed.

Lemma matchColumnPair_order c1 c2 mp matches mp' :
  matchColumnPair req sheet1Data sheet2Data c1 c2 mp = Some (matches, mp') →
  StronglySorted recordBefore matches.
Proof using Hfit1 Hfit2.
  unfold matchColumnPair. intros Hrun.
  destruct (forM_indexed_inv
    (λ k (st : list MatchResult * gset string),
       StronglySorted recordBefore st.1 ∧
       Forall (λ m, OriginalRow1 m < Z.of_nat k + 2) st.1)
    (Rows sheet1Data)
    (rowStep req sheet2Data c1 c2 (buildKeyMap sheet2Data c2))
    ([], mp) (matches, mp')) as [Hs _]; try done.
  { split; constructor. }
  intros k row1 s s' Hrow1 [Hs Hb] Hstep.
  apply lookup_lt_Some in Hrow1.
  destruct (rowStep_order _ _ _ _ _ _ Hstep) as (new & -> & Hnew & Hsnew).
  rewrite (row_number sheet1Data) in Hnew by done.
  rewrite Forall_forall in Hnew, Hb. split.
  - apply StronglySorted_app_2; [|done..].
    intros m m' Hm Hm'. left. rewrite (Hnew m' Hm'). by apply Hb.
  - apply Forall_app. split; apply Forall_forall; intros m Hm.
    + specialize (Hb m Hm). lia.
    + rewrite (Hnew m Hm). lia.
Qed.
End record_order.

(** A property of the list of records of every column pair is a property
    of the list of records of every group. *)
Lemma matchHandler_groups `{Strings} dataStore req sheet1Data sheet2Data
    (P : list MatchResult → Prop) groups :
  dataStore !! Sheet1 req = Some sheet1Data →
  dataStore !! Sheet2 req = Some sheet2Data →
  (∀ c1 c2 mp matches mp',
     matchColumnPair req sheet1Data sheet2Data c1 c2 mp = Some (matches, mp') →
     P matches) →
  matchHandler dataStore req = Some (OK groups) →
  ∀ g, g ∈ groups → P (Matches g).
Proof.
  unfold matchHandler. intros -> -> HP Hrun.
  destruct (matchColumns req sheet1Data sheet2Data) as [[all mp]|] eqn:Hcols;
    [|done]. simplify_eq/=.
  apply Forall_forall. unfold matchColumns in Hcols.
  apply (forM_preserves
           (λ st : list MatchGroup * gset string,
              Forall (λ g, P (Matches g)) st.1) _ _ _ _ Hcols);
    [constructor|].
  intros c1 s s' _ Hinner Hs.
  apply (forM_preserves
           (λ st : list MatchGroup * gset string,
              Forall (λ g, P (Matches g)) st.1) _ _ _ _ Hinner); [done|].
  intros c2 [all' mp0] t' _ Hb Ht. unfold columnPair in Hb.
  destruct (matchColumnPair req sheet1Data sheet2Data c1 c2 mp0)
    as [[matches mp']|] eqn:Hpair; [|done]. simpl in Hb.
  case_decide; [|by simplify_eq].
  destruct (Headers sheet1Data !! c1); [|done].
  destruct (Headers sheet2Data !! c2); [|done]. simplify_eq/=.
  apply Forall_app. split; [done|]. apply Forall_singleton. simpl.
  by eapply HP.
Qed.

(** X22: the records of a group come in a fixed order: by row of the
    first sheet; for one row, its exact records before its fuzzy ones;
    and among those, by row of the second sheet. *)
Theorem records_in_order `{Strings} dataStore req sheet1Data sheet2Data
    groups :
  dataStore !! Sheet1 req = Some sheet1Data →
  dataStore !! Sheet2 req = Some sheet2Data →
  rowsFit sheet1Data → rowsFit sheet2Data →
  matchHandler dataStore req = Some (OK groups) →
  ∀ g, g ∈ groups → StronglySorted recordBefore (Matches g).
Proof.
  intros Hs1 Hs2 Hfit1 Hfit2 Hrun.
  apply (matchHandler_groups dataStore req sheet1Data sheet2Data
           (StronglySorted recordBefore)); try done.
  intros c1 c2 mp matches mp'. by apply matchColumnPair_order.
Qed.

Lemma records_in_order_witness :
  StronglySorted recordBefore
    [Examples.record 2 2 "Alice" "alice" false;
     Examples.record 2 3 "Alice" "alice" false].
Proof.
  apply (records_in_order (H := AsciiStrings.strings)
           (Examples.store Examples.aliceA Examples.aliceB)
           (Examples.request false 0) Examples.aliceA Examples.aliceB
           [Examples.group "Name" "Name"
              [Examples.record 2 2 "Alice" "alice" false;
               Examples.record 2 3 "Alice" "alice" false]]
           (eq_refl _) (eq_refl _) (eq_refl _) (eq_refl _) (eq_refl _)
           (Examples.group "Name" "Name"
              [Examples.record 2 2 "Alice" "alice" false;
               Examples.record 2 3 "Alice" "alice" false])).
  apply list_elem_of_here.
Defined.

(** ** The sheet selection of the page *)

Lemma indexOf_None xs x : indexOf xs x = None ↔ x ∉ xs.
Proof.
  induction xs as [|y ys IH]; simpl.
  - split; [intros _; apply not_elem_of_nil|done].
  - rewrite not_elem_of_cons. case_decide as Hy.
    + split; [done|]. intros [Hne _]. by destruct Hne.
    + destruct (indexOf ys x) eqn:Hi; simpl.
      * split; [done|]. intros [_ Hnin]. by apply IH in Hnin.
      * split; [|done]. intros _. split; [done|]. by apply IH.
Qed.

Lemma indexOf_Some xs x i :
  indexOf xs x = Some i → xs !! i = Some x ∧ x ∉ take i xs.
Proof.
  revert i. induction xs as [|y ys IH]; intros i; simpl; [done|].
  case_decide as Hy.
  - intros [= <-]. subst. split; [done|]. apply not_elem_of_nil.
  - destruct (indexOf ys x) as [j|]; [|done]. simpl. intros [= <-].
    destruct (IH j eq_refl) as [Hj Hnin]. split; [done|]. simpl.
    apply not_elem_of_cons. by split.
Qed.

Lemma removelast_snoc (xs : list string) x :
  last xs = Some x → xs = removelast xs ++ [x].
Proof.
  intros [l ->]%last_Some. by rewrite List.removelast_last.
Qed.

Lemma removelast_snoc_inv (xs : list string) :
  xs ≠ [] → ∃ x, last xs = Some x ∧ xs = removelast xs ++ [x].
Proof.
  intros Hne. destruct (last xs) as [x|] eqn:Hlast.
  - exists x. split; [done|]. by apply removelast_snoc.
  - by apply last_None in Hlast.
Qed.

(** What a call keeps: at most two names, no name twice. *)
Lemma toggleSheetSelection_inv document sheetName element selectedSheets :
  (length selectedSheets ≤ 2)%nat → NoDup selectedSheets →
  let after := arrayOf (toggleSheetSelection document sheetName element
                          selectedSheets) in
  (length after ≤ 2)%nat ∧ NoDup after.
Proof.
  intros Hlen Hnd. unfold toggleSheetSelection.
  assert (Hfinish : ∀ xs,
    arrayOf (if element && updateSelectionSlots document xs
             then Returned xs else Threw xs) = xs)
    by (intros xs; by destruct (element && _)).
  destruct (indexOf selectedSheets sheetName) as [index|] eqn:Hi; simpl.
  - rewrite Hfinish. split.
    + pose proof (sublist_length _ _ (sublist_delete selectedSheets index)).
      lia.
    + exact (sublist_NoDup _ _ Hnd (sublist_delete _ _)).
  - apply indexOf_None in Hi. case_decide as Hlt; simpl.
    + rewrite Hfinish. split; [rewrite length_app; simpl; lia|].
      apply NoDup_app. split; [done|]. split; [|apply NoDup_singleton].
      intros x Hx ->%list_elem_of_singleton. done.
    + destruct (removelast_snoc_inv selectedSheets) as (old & Hlast & Heq).
      { intros ->. simpl in Hlt. lia. }
      assert (Hlen' : (S (length (removelast selectedSheets))
                       = length selectedSheets)%nat).
      { rewrite Heq at 2. rewrite length_app. simpl. lia. }
      assert (Hnd' : NoDup (removelast selectedSheets)).
      { rewrite Heq in Hnd. by apply NoDup_app in Hnd as [? _]. }
      assert (Hnin : sheetName ∉ removelast selectedSheets).
      { intros Hin. apply Hi. rewrite Heq. apply elem_of_app. by left. }
      destruct (querySelector _ _); simpl.
      * rewrite Hfinish. split; [rewrite length_app; simpl; lia|].
        apply NoDup_app. split; [done|]. split; [|apply NoDup_singleton].
        intros x Hx ->%list_elem_of_singleton. done.
      * split; [lia|done].
Qed.

(** X23: whatever is clicked after the sheet buttons are set up, and
    whatever the document answers, at most two sheets are selected, and
    never the same sheet twice: a comparison that the page starts is of
    two different sheets. *)
Theorem selection_two_distinct clicks :
  (length (clickAll clicks) ≤ 2)%nat ∧ NoDup (clickAll clicks).
Proof.
  unfold clickAll.
  assert (Hgen : ∀ start, (length start ≤ 2)%nat → NoDup start →
    let final := foldl (λ selectedSheets (click : string * bool * Document),
                   arrayOf (toggleSheetSelection click.2 click.1.1 click.1.2
                              selectedSheets)) start clicks in
    (length final ≤ 2)%nat ∧ NoDup final).
  { induction clicks as [|[[name element] document] clicks IH];
      intros start Hlen Hnd; simpl.
    - done.
    - destruct (toggleSheetSelection_inv document name element start Hlen Hnd).
      by apply IH. }
  apply Hgen; [simpl; lia|constructor].
Qed.

(** X24: a click flips the selection of its sheet.  When the call is given
    an element, the document holds the elements [updateSelectionSlots]
    writes to and, in case two other sheets are selected, the button of
    the sheet to replace, and no name is twice in the array, the call
    returns, and the sheet is selected after it exactly when it was not
    before. *)
Theorem click_flips_selection document sheetName selectedSheets :
  NoDup selectedSheets →
  (∀ id, getElementById document id = true) →
  (sheetName ∈ selectedSheets ∨ (length selectedSheets < 2)%nat ∨
   ∀ oldSheet, last selectedSheets = Some oldSheet →
               querySelector document (selector oldSheet) = true) →
  ∃ after,
    toggleSheetSelection document sheetName true selectedSheets
      = Returned after ∧
    (sheetName ∈ after ↔ sheetName ∉ selectedSheets).
Proof.
  intros Hnd Hids Hcase. unfold toggleSheetSelection.
  assert (Hup : ∀ xs, updateSelectionSlots document xs = true).
  { intros xs. unfold updateSelectionSlots. rewrite !Hids. simpl.
    by destruct (bool_decide _). }
  cbv zeta.
  destruct (indexOf selectedSheets sheetName) as [index|] eqn:Hi.
  - rewrite Hup. simpl. eexists. split; [done|].
    apply indexOf_Some in Hi as [Hat Hnin].
    assert (Hin : sheetName ∈ selectedSheets)
      by (by eapply list_elem_of_lookup_2).
    split; [|done]. intros Hdel. exfalso.
    rewrite <-(take_drop_middle _ _ _ Hat) in Hnd.
    rewrite delete_take_drop in Hdel.
    apply NoDup_app in Hnd as (_ & _ & Hnd).
    apply NoDup_cons in Hnd as [Hnd _].
    apply elem_of_app in Hdel as [Hl|Hr]; [by apply Hnin|by apply Hnd].
  - apply indexOf_None in Hi. case_decide as Hlt.
    + rewrite Hup. simpl. eexists. split; [done|]. split; [done|].
      intros _.
      apply elem_of_app. right. apply list_elem_of_here.
    + destruct Hcase as [Hin|[Hlt'|Hq]]; [done..|].
      destruct (removelast_snoc_inv selectedSheets) as (old & Hlast & Heq).
      { intros ->. simpl in Hlt. lia. }
      rewrite Hlast. simpl. rewrite (Hq old Hlast), Hup. simpl.
      eexists. split; [done|]. split; [done|]. intros _.
      apply elem_of_app. right. apply list_elem_of_here.
Qed.

Lemma click_flips_selection_witness :
  ∃ after,
    toggleSheetSelection
      {| querySelector := λ _, true; getElementById := λ _, true |}
      "C" true ["A"; "B"] = Returned after ∧
    ("C" ∈ after ↔ "C" ∉ ["A"; "B"]).
Proof.
  apply (click_flips_selection
           {| querySelector := λ _, true; getElementById := λ _, true |}
           "C" ["A"; "B"]).
  - apply NoDup_cons. split.
    + intros Hin%list_elem_of_singleton. discriminate Hin.
    + apply NoDup_singleton.
  - intros id. reflexivity.
  - right. right. intros oldSheet _. reflexivity.
Defined.

(** ** The order of the groups of a response *)

Section group_order.
Context `{Strings}.
Variables (req : MatchRequest) (sheet1Data sheet2Data : SheetData).

Lemma columnPair_order c1 c2 st st' :
  groupsBefore sheet1Data sheet2Data c1 c2 st →
  columnPair req sheet1Data sheet2Data c1 c2 st = Some st' →
  groupsBefore sheet1Data sheet2Data c1 (S c2) st'.
Proof using Type.
  intros (pairs & Hgroups & Hsorted & Hbefore) Hb.
  destruct st as [allMatches mp]. unfold columnPair in Hb.
  destruct (matchColumnPair req sheet1Data sheet2Data c1 c2 mp)
    as [[matches mp']|]; [|done]. simpl in Hb.
  assert (Hweak : Forall (λ p, pairBefore p (c1, S c2)) pairs).
  { eapply Forall_impl; [exact Hbefore|]. unfold pairBefore. simpl.
    intros p [?|[? ?]]; [by left|right; split; [done|lia]]. }
  case_decide.
  - destruct (Headers sheet1Data !! c1) as [header1|] eqn:Hh1; [|done].
    destruct (Headers sheet2Data !! c2) as [header2|] eqn:Hh2; [|done].
    simplify_eq/=. exists (pairs ++ [(c1, c2)]). split; [|split].
    + apply Forall2_app; [done|]. by repeat constructor.
    + apply StronglySorted_app_2; [|done|repeat constructor].
      rewrite Forall_forall in Hbefore.
      intros p p' Hp ->%list_elem_of_singleton. by apply Hbefore.
    + apply Forall_app. split; [done|]. apply Forall_singleton.
      right. simpl. split; [done|lia].
  - simplify_eq. by exists pairs.
Qed.

Lemma matchColumns_order st' :
  matchColumns req sheet1Data sheet2Data = Some st' →
  ∃ pairs, Forall2 (groupAt sheet1Data sheet2Data) st'.1 pairs ∧
           StronglySorted pairBefore pairs.
Proof using Type.
  unfold matchColumns. intros Hrun.
  assert (Hend : groupsBefore sheet1Data sheet2Data
                   (length (Headers sheet1Data)) 0 st').
  { apply (forM_seq_run_inv
             (λ c1, groupsBefore sheet1Data sheet2Data c1 0) _ _ _ _)
      in Hrun; [done| |].
    - exists []. simpl. repeat split; constructor.
    - intros c1 s s' _ Hs Hinner.
      apply (forM_seq_run_inv
               (λ c2, groupsBefore sheet1Data sheet2Data c1 c2) _ _ _ _)
        in Hinner; [|done|].
      + destruct Hinner as (pairs & Hgroups & Hsorted & Hbefore).
        exists pairs. repeat split; [done..|].
        eapply Forall_impl; [exact Hbefore|]. unfold pairBefore. simpl.
        intros p [?|[? ?]]; left; lia.
      + intros c2 t t' _. apply columnPair_order. }
  destruct Hend as (pairs & ? & ? & _). by exists pairs.
Qed.
End group_order.

(** X25: the groups of a response come in the order of the column loops,
    and no pair of columns gives two groups: they carry the headers of
    pairs of columns that increase, by column of the first sheet, then by
    column of the second. *)
Theorem groups_in_column_order `{Strings} dataStore req sheet1Data sheet2Data
    groups :
  dataStore !! Sheet1 req = Some sheet1Data →
  dataStore !! Sheet2 req = Some sheet2Data →
  matchHandler dataStore req = Some (OK groups) →
  ∃ pairs, Forall2 (groupAt sheet1Data sheet2Data) groups pairs ∧
           StronglySorted pairBefore pairs.
Proof.
  unfold matchHandler. intros -> -> Hrun.
  destruct (matchColumns req sheet1Data sheet2Data) as [[all mp]|] eqn:Hcols;
    [|done]. simplify_eq/=.
  by apply (matchColumns_order _ _ _ _ Hcols).
Qed.

Lemma groups_in_column_order_witness :
  ∃ pairs,
    Forall2 (groupAt Examples.raggedA Examples.raggedB)
      [Examples.group "a" "c" [Examples.record 2 2 "x" "x" false];
       Examples.group "a" "d" [Examples.record 2 4 "x" "x" false];
       Examples.group "b" "c" [Examples.record 4 2 "x" "x" false];
       Examples.group "b" "d" [Examples.record 4 4 "x" "x" false]] pairs ∧
    StronglySorted pairBefore pairs.
Proof.
  exact (groups_in_column_order (H := AsciiStrings.strings)
           (Examples.store Examples.raggedA Examples.raggedB)
           (Examples.request false 0) Examples.raggedA Examples.raggedB
           [Examples.group "a" "c" [Examples.record 2 2 "x" "x" false];
            Examples.group "a" "d" [Examples.record 2 4 "x" "x" false];
            Examples.group "b" "c" [Examples.record 4 2 "x" "x" false];
            Examples.group "b" "d" [Examples.record 4 4 "x" "x" false]]
           (eq_refl _) (eq_refl _) (eq_refl _)).
Defined.
